(** * Coconut billing: calculation engine and ledger aggregation

    A shallow embedding of [src/core.py], the ledger part of
    [src/persistence.py] and the range report of [src/webapp.py],
    together with the properties the specification states about them.

    The interpreter is CPython 3.11 on Linux.  Python values are modelled
    as follows.
    - [int] is [Z] (unbounded); [int(text)] refuses more than 4300 digits.
    - [decimal.Decimal] is a finite decimal [coef * 10 ^ dexp] computed in
      the context the program sets up ([getcontext().prec = 28], rounding
      ROUND_HALF_EVEN, InvalidOperation and DivisionByZero trapped).  The
      special values (NaN, Infinity), the sign of a zero and the exponent
      limits of the context (Emax = 999999, beyond which the arithmetic
      raises decimal.Overflow) are outside the model: it follows the code
      for finite values whose magnitudes stay below [10 ^ 999999].
    - [str] is [string], read as ASCII text (character codes below 128).
    - a CSV row ([Dict[str, str]]) is a [gmap string string].
    - a raised exception is the [Raise] case of [result]. *)

From Stdlib Require Import ZArith Lia Bool Ascii String.
From stdpp Require Import gmap strings list sorting pretty.

Local Open Scope Z_scope.

(** ** Exceptions *)

Inductive error :=
| ValueError (msg : string)
| InvalidOperation
| DivisionByZero
| OverflowError (msg : string)
| FileNotFoundError
| FileExistsError
| NotADirectoryError
| IsADirectoryError.

Inductive result (A : Type) :=
| Ok (a : A)
| Raise (e : error).
Arguments Ok {A} a.
Arguments Raise {A} e.

(** Sequencing: the first exception raised ends the computation. *)
#[export] Instance result_ret : MRet result := fun A a => Ok a.
#[export] Instance result_bind : MBind result := fun A B k m =>
  match m with
  | Ok a => k a
  | Raise e => Raise e
  end.

(** ** Decimal arithmetic at precision 28 *)

Module Decimal.

(** [getcontext().prec = 28] (core.py, line 10). *)
Definition prec : Z := 28.

Record decimal := mkDec { coef : Z; dexp : Z }.

(** Number of decimal digits of [|c|]; [len(str(0)) = 1]. *)
Fixpoint ndigits_aux (fuel : nat) (c : Z) : Z :=
  match fuel with
  | O => 1
  | S f => if c <? 10 then 1 else 1 + ndigits_aux f (c / 10)
  end.

Definition ndigits (c : Z) : Z :=
  ndigits_aux (Z.to_nat (Z.log2 (Z.abs c))) (Z.abs c).

(** Nearest multiple of [d] to [a >= 0], as a quotient, ties to the even
    quotient (ROUND_HALF_EVEN on a magnitude). *)
Definition rnd_half_even (a d : Z) : Z :=
  let q := a / d in
  let r := a mod d in
  if 2 * r <? d then q
  else if d <? 2 * r then q + 1
  else if Z.even q then q else q + 1.

(** Decimal keeps sign and magnitude apart: the magnitude is rounded. *)
Definition round_div (c d : Z) : Z :=
  Z.sgn c * rnd_half_even (Z.abs c) d.

(** [Decimal._fix]: round to at most [prec] significant digits. *)
Definition dec_fix (d : decimal) : decimal :=
  let n := ndigits (coef d) in
  if n <=? prec then d
  else
    let k := n - prec in
    let c := round_div (coef d) (10 ^ k) in
    if prec <? ndigits c
    then mkDec (Z.quot c 10) (dexp d + k + 1)
    else mkDec c (dexp d + k).

(** What [dec_fix] does to a value, read on an integer: [x] rounded to
    [prec] significant digits.  The program never computes it; the
    properties of the values are stated with it. *)
Definition round_sig (x : Z) : Z :=
  let n := ndigits x in
  if n <=? prec then x
  else 10 ^ (n - prec) * round_div x (10 ^ (n - prec)).

(** [Decimal(n)] for an [int] is exact. *)
Definition of_int (n : Z) : decimal := mkDec n 0.

(** The coefficient of [d] written at the exponent [m <= dexp d]. *)
Definition at_scale (d : decimal) (m : Z) : Z :=
  coef d * 10 ^ (dexp d - m).

Definition dec_mul (a b : decimal) : decimal :=
  dec_fix (mkDec (coef a * coef b) (dexp a + dexp b)).

(** Addition and subtraction: the exact result at the smaller exponent,
    then rounded to the context precision. *)
Definition dec_sub (a b : decimal) : decimal :=
  let m := Z.min (dexp a) (dexp b) in
  dec_fix (mkDec (at_scale a m - at_scale b m) m).

(** The loop of [__truediv__] that moves an exact quotient towards the
    ideal exponent. *)
Fixpoint strip_zeros (fuel : nat) (c e ideal : Z) : Z * Z :=
  match fuel with
  | O => (c, e)
  | S f =>
      if (e <? ideal) && (c mod 10 =? 0)
      then strip_zeros f (c / 10) (e + 1) ideal
      else (c, e)
  end.

(** [Decimal.__truediv__]. *)
Definition dec_div (a b : decimal) : result decimal :=
  if coef b =? 0 then
    Raise (if coef a =? 0 then InvalidOperation else DivisionByZero)
  else if coef a =? 0 then
    Ok (dec_fix (mkDec 0 (dexp a - dexp b)))
  else
    let shift := ndigits (coef b) - ndigits (coef a) + prec + 1 in
    let e := dexp a - dexp b - shift in
    let na := Z.abs (coef a) in
    let nb := Z.abs (coef b) in
    let q := if 0 <=? shift then na * 10 ^ shift / nb
             else na / (nb * 10 ^ (- shift)) in
    let r := if 0 <=? shift then (na * 10 ^ shift) mod nb
             else na mod (nb * 10 ^ (- shift)) in
    let ideal := dexp a - dexp b in
    let ce :=
      if r =? 0 then strip_zeros (Z.to_nat (ideal - e)) q e ideal
      else (if q mod 5 =? 0 then q + 1 else q, e) in
    Ok (dec_fix (mkDec (Z.sgn (coef a) * Z.sgn (coef b) * fst ce) (snd ce))).

Definition adjusted (d : decimal) : Z := dexp d + ndigits (coef d) - 1.

(** [Decimal._rescale] with ROUND_HALF_EVEN. *)
Definition rescale (d : decimal) (e : Z) : decimal :=
  if e <=? dexp d
  then mkDec (coef d * 10 ^ (dexp d - e)) e
  else mkDec (round_div (coef d) (10 ^ (e - dexp d))) e.

(** [Decimal.quantize(q, rounding=ROUND_HALF_EVEN)]: the result has the
    exponent of [q]; InvalidOperation when it would need more than
    [prec] digits. *)
Definition quantize (d q : decimal) : result decimal :=
  let e := dexp q in
  if coef d =? 0 then Ok (mkDec 0 e)
  else if prec <? adjusted d - e + 1 then Raise InvalidOperation
  else
    let ans := rescale d e in
    if prec <? ndigits (coef ans) then Raise InvalidOperation else Ok ans.

(** [int(d)]: truncation towards zero. *)
Definition to_int (d : decimal) : Z :=
  if 0 <=? dexp d then coef d * 10 ^ dexp d
  else Z.quot (coef d) (10 ^ (- dexp d)).

(** Order of the values: both coefficients at the smaller exponent. *)
Definition dle (a b : decimal) : Prop :=
  at_scale a (Z.min (dexp a) (dexp b)) <= at_scale b (Z.min (dexp a) (dexp b)).

Definition dlt (a b : decimal) : Prop :=
  at_scale a (Z.min (dexp a) (dexp b)) < at_scale b (Z.min (dexp a) (dexp b)).

(** [|d| <= 10 ^ k], as two comparisons of values. *)
Definition mag_le (d : decimal) (k : Z) : Prop :=
  dle d (mkDec 1 k) /\ dle (mkDec (-1) k) d.

End Decimal.

(** ** core.py *)

Module Core.
Import Decimal.

Record Date := mkDate { year : Z; month : Z; day : Z }.

Module CalculationInput.
Record t := mk {
  invoice_no : string;
  client_no : Z;
  client_name : string;
  total_nuts : Z;
  price_each_rupees : decimal;
  date : Date;
  labor_percent : decimal
}.
End CalculationInput.

Module CalculationResult.
Record t := mk {
  invoice_no : string;
  client_no : Z;
  client_name : string;
  date : Date;
  total_nuts : Z;
  price_each_rupees : decimal;
  labor_percent : decimal;
  waste_nuts : Z;
  remaining_nuts : Z;
  gross_amount : decimal;
  tax_amount : decimal;
  labor_charges : decimal;
  final_amount : decimal
}.
End CalculationResult.

(** [Decimal("0.022")], [Decimal("1")], [Decimal("0.01")], [Decimal("100")],
    [Decimal("11")]. *)
Definition d_0_022 : decimal := mkDec 22 (-3).
Definition d_1 : decimal := mkDec 1 0.
Definition d_0_01 : decimal := mkDec 1 (-2).
Definition d_100 : decimal := mkDec 100 0.
Definition d_11 : decimal := mkDec 11 0.

Definition _round_waste_to_nearest_integer_half_even (nuts : Z) : result Z :=
  let waste_raw := dec_mul (of_int nuts) d_0_022 in
  waste_quantized ← quantize waste_raw d_1;
  Ok (to_int waste_quantized).

Definition _quantize_money (value : decimal) : result decimal :=
  quantize value d_0_01.

Definition calculate (input_data : CalculationInput.t)
  : result CalculationResult.t :=
  let total := CalculationInput.total_nuts input_data in
  let price := CalculationInput.price_each_rupees input_data in
  if total <=? 0 then
    Raise (ValueError "Total coconuts must be a positive integer")
  else if coef price <=? 0 then
    Raise (ValueError "Price per coconut must be a positive number")
  else if String.eqb (CalculationInput.invoice_no input_data) EmptyString then
    Raise (ValueError "V.No. (invoice number) must be a non-empty string")
  else if CalculationInput.client_no input_data <? 0 then
    Raise (ValueError "Client number must be >= 0")
  else
    waste_nuts ← _round_waste_to_nearest_integer_half_even total;
    let remaining_nuts := total - waste_nuts in
    let gross_amount := dec_mul (of_int remaining_nuts) price in
    let tax_amount := dec_mul gross_amount d_0_01 in
    rate ← dec_div (CalculationInput.labor_percent input_data) d_100;
    let labor_charges := dec_mul (of_int total) rate in
    let final_amount := dec_sub (dec_sub gross_amount tax_amount) labor_charges in
    gross_q ← _quantize_money gross_amount;
    tax_q ← _quantize_money tax_amount;
    labor_q ← _quantize_money labor_charges;
    final_q ← _quantize_money final_amount;
    price_q ← _quantize_money price;
    Ok (CalculationResult.mk
          (CalculationInput.invoice_no input_data)
          (CalculationInput.client_no input_data)
          (CalculationInput.client_name input_data)
          (CalculationInput.date input_data)
          total
          price_q
          (CalculationInput.labor_percent input_data)
          waste_nuts
          remaining_nuts
          gross_q
          tax_q
          labor_q
          final_q).

(** The four checks that make [calculate] raise [ValueError]. *)
Definition invalid_input (i : CalculationInput.t) : Prop :=
  CalculationInput.total_nuts i <= 0
  \/ coef (CalculationInput.price_each_rupees i) <= 0
  \/ CalculationInput.invoice_no i = EmptyString
  \/ CalculationInput.client_no i < 0.

(** The same input with another unit price. *)
Definition with_price (i : CalculationInput.t) (p : decimal) : CalculationInput.t :=
  CalculationInput.mk
    (CalculationInput.invoice_no i) (CalculationInput.client_no i)
    (CalculationInput.client_name i) (CalculationInput.total_nuts i)
    p (CalculationInput.date i) (CalculationInput.labor_percent i).

(** The specification's rounding: [w] is [num / den] rounded to the
    nearest integer, a tie going to the even neighbour. *)
Definition nearest_half_even (w num den : Z) : Prop :=
  2 * Z.abs (w * den - num) <= den
  /\ (2 * Z.abs (w * den - num) = den -> Z.even w = true).

(** The example of the specification and of [tests/test_core.py]. *)
Definition sample_input : CalculationInput.t :=
  CalculationInput.mk "001" 1 "Client 01" 5670 (mkDec 22 0)
    (mkDate 2025 8 10) d_11.

End Core.

(** ** Python text operations, on ASCII *)

Module Text.

Definition code (c : ascii) : Z := Z.of_nat (nat_of_ascii c).
Definition chr (n : Z) : ascii := ascii_of_nat (Z.to_nat n).

(** [str.isspace] on ASCII: tab to carriage return, the four separators
    28 to 31 and the space. *)
Definition isspace (c : ascii) : bool :=
  ((9 <=? code c) && (code c <=? 13)) || ((28 <=? code c) && (code c <=? 32)).

(** [Py_ISSPACE], the white space [int] and [float] skip at both ends of
    a text: tab to carriage return and the space.  The separators 28 to
    31, which [str.strip] removes, are not skipped. *)
Definition isspace_c (c : ascii) : bool :=
  ((9 <=? code c) && (code c <=? 13)) || (code c =? 32).

Definition isdigit (c : ascii) : bool := (48 <=? code c) && (code c <=? 57).
Definition isupper (c : ascii) : bool := (65 <=? code c) && (code c <=? 90).
Definition islower (c : ascii) : bool := (97 <=? code c) && (code c <=? 122).
Definition isalnum (c : ascii) : bool := isdigit c || isupper c || islower c.

Definition digit_value (c : ascii) : Z := code c - 48.

Definition lower_char (c : ascii) : ascii :=
  if isupper c then chr (code c + 32) else c.

Fixpoint lower (s : string) : string :=
  match s with
  | EmptyString => EmptyString
  | String c s' => String (lower_char c) (lower s')
  end.

Definition is_empty (s : string) : bool :=
  match s with EmptyString => true | _ => false end.

Fixpoint lstrip_chars (p : ascii -> bool) (s : string) : string :=
  match s with
  | EmptyString => EmptyString
  | String c s' => if p c then lstrip_chars p s' else s
  end.

Fixpoint rstrip_chars (p : ascii -> bool) (s : string) : string :=
  match s with
  | EmptyString => EmptyString
  | String c s' =>
      let r := rstrip_chars p s' in
      if p c && is_empty r then EmptyString else String c r
  end.

Definition strip_chars (p : ascii -> bool) (s : string) : string :=
  lstrip_chars p (rstrip_chars p s).

(** [s.strip()]. *)
Definition strip (s : string) : string := strip_chars isspace s.

(** [s.split()]: the maximal runs of characters that are not spaces. *)
Fixpoint split_go (cur : string) (s : string) : list string :=
  match s with
  | EmptyString => if is_empty cur then [] else [cur]
  | String c s' =>
      if isspace c
      then (if is_empty cur then split_go EmptyString s'
            else cur :: split_go EmptyString s')
      else split_go (cur +:+ String c EmptyString) s'
  end.

Definition split (s : string) : list string := split_go EmptyString s.

Fixpoint str_take (n : nat) (s : string) : string :=
  match n, s with
  | S n', String c s' => String c (str_take n' s')
  | _, _ => EmptyString
  end.

Fixpoint str_drop (n : nat) (s : string) : string :=
  match n, s with
  | S n', String _ s' => str_drop n' s'
  | _, _ => s
  end.

(** [s[-k:]] and [s[:-k]] for [k > 0]. *)
Definition last_chars (k : nat) (s : string) : string :=
  str_drop (String.length s - k) s.
Definition but_last_chars (k : nat) (s : string) : string :=
  str_take (String.length s - k) s.

Fixpoint replicate_char (n : nat) (c : ascii) : string :=
  match n with
  | O => EmptyString
  | S n' => String c (replicate_char n' c)
  end.

Definition rjust (w : nat) (s : string) : string :=
  replicate_char (w - String.length s) " " +:+ s.
Definition ljust (w : nat) (s : string) : string :=
  s +:+ replicate_char (w - String.length s) " ".
Definition zfill (w : nat) (s : string) : string :=
  replicate_char (w - String.length s) "0" +:+ s.

(** [sys.get_int_max_str_digits()], at its default: the longest decimal
    text [int] reads and [str] writes. *)
Definition max_str_digits : Z := 4300.

(** [str(n)] for an [int] of at most [max_str_digits] digits; for a
    longer one [str] raises ValueError. *)
Definition str_of_int (n : Z) : string := pretty n.

(** The number of digits of a text. *)
Fixpoint count_digits (s : string) : Z :=
  match s with
  | EmptyString => 0
  | String c s' => (if isdigit c then 1 else 0) + count_digits s'
  end.

(** The format [02d]: sign first, zeros up to a width of two. *)
Definition fmt_02d (n : Z) : string :=
  if n <? 0 then "-" +:+ zfill 1 (pretty (Z.abs n)) else zfill 2 (pretty n).

Definition join (sep : string) (l : list string) : string := String.concat sep l.

(** One pass of [safe.replace("__", "_")]: pairs are taken from the left
    and do not overlap. *)
Fixpoint replace_double_underscore (s : string) : string :=
  match s with
  | EmptyString => EmptyString
  | String c s' =>
      match s' with
      | String c2 s'' =>
          if Ascii.eqb c "_" && Ascii.eqb c2 "_"
          then String "_" (replace_double_underscore s'')
          else String c (replace_double_underscore s')
      | EmptyString => String c EmptyString
      end
  end.

Fixpoint has_double_underscore (s : string) : bool :=
  match s with
  | EmptyString => false
  | String c s' =>
      match s' with
      | String c2 _ =>
          (Ascii.eqb c "_" && Ascii.eqb c2 "_") || has_double_underscore s'
      | EmptyString => false
      end
  end.

(** [while "__" in safe: safe = safe.replace("__", "_")]; every pass
    shortens the text, so its length is enough fuel. *)
Fixpoint collapse_underscores (fuel : nat) (s : string) : string :=
  match fuel with
  | O => s
  | S f =>
      if has_double_underscore s
      then collapse_underscores f (replace_double_underscore s)
      else s
  end.

(** Every character of [s] satisfies [p]. *)
Fixpoint all_chars (p : ascii -> bool) (s : string) : bool :=
  match s with
  | EmptyString => true
  | String c s' => p c && all_chars p s'
  end.

(** The value of a text of decimal digits, read after [acc]. *)
Fixpoint digits_value (acc : Z) (s : string) : Z :=
  match s with
  | EmptyString => acc
  | String c s' => digits_value (10 * acc + digit_value c) s'
  end.

(** Not the path separator. *)
Definition no_slash (c : ascii) : bool := negb (Ascii.eqb c "/").

(** Not a whitespace character. *)
Definition nonspace (c : ascii) : bool := negb (isspace c).

(** A character of ASCII: the texts of the model are made of them. *)
Definition is_ascii (c : ascii) : bool := code c <? 128.

End Text.

(** ** persistence.py *)

Module Persistence.
Import Core Text.

(** A row of [csv.DictReader]: field name to text.  A field the reader
    leaves at [None] is an absent key. *)
Abbreviation row := (gmap string string).

(** [r.get(k1) or r.get(k2) or d]: an absent or empty value is falsy. *)
Definition get_or (r : row) (k1 k2 d : string) : string :=
  match r !! k1 with
  | Some (String c s) => String c s
  | _ =>
      match r !! k2 with
      | Some (String c s) => String c s
      | _ => d
      end
  end.

(** The key of [deduplicate_history] (lines 318 to 321). *)
Definition dedup_key (r : row) : string * string * string :=
  (lower (strip (get_or r "client_name" "Name" EmptyString)),
   strip (get_or r "v_no" "V.No." EmptyString),
   strip (get_or r "final_amount" "Amount" EmptyString)).

(** The loop of [deduplicate_history] (lines 314 to 326), with its three
    variables. *)
Fixpoint dedup_loop (rows : list row) (seen_keys : gset (string * string * string))
    (unique_rows : list row) (removed : nat) : list row * nat :=
  match rows with
  | [] => (unique_rows, removed)
  | r :: rest =>
      let key := dedup_key r in
      if decide (key ∈ seen_keys)
      then dedup_loop rest seen_keys unique_rows (S removed)
      else dedup_loop rest ({[key]} ∪ seen_keys) (unique_rows ++ [r]) removed
  end.

(** The same loop without its accumulators: the rows kept once the keys
    of [seen] are taken.  The program does not compute it; the properties
    of the loop are proved on it. *)
Fixpoint dedup_from (seen : gset (string * string * string)) (rows : list row)
  : list row :=
  match rows with
  | [] => []
  | r :: rest =>
      if decide (dedup_key r ∈ seen) then dedup_from seen rest
      else r :: dedup_from ({[dedup_key r]} ∪ seen) rest
  end.

(** [history.csv]: the header line and the rows below it. *)
Record history := mkHistory { hheader : list string; hrows : list row }.

(** [r.setdefault(k, v)]. *)
Definition setdefault (k v : string) (r : row) : row :=
  match r !! k with
  | Some _ => r
  | None => <[k := v]> r
  end.

(** The rows [deduplicate_history] works on: the rows of the file, with
    the party column filled in when the header lacks it. *)
Definition dedup_input (h : history) : list row :=
  if bool_decide ("party_name" ∈ hheader h) then hrows h
  else setdefault "party_name" EmptyString <$> hrows h.

(** [deduplicate_history]: the ledger after the call and the number of
    removed rows.  The file is rewritten with the kept rows, in order. *)
Definition deduplicate_history (h : history) : history * nat :=
  match hrows h with
  | [] => (h, O)
  | _ =>
      let has_party := bool_decide ("party_name" ∈ hheader h) in
      let header := if has_party then hheader h else hheader h ++ ["party_name"] in
      let rows := if has_party then hrows h
                  else setdefault "party_name" EmptyString <$> hrows h in
      let '(unique_rows, removed) := dedup_loop rows ∅ [] O in
      (mkHistory header unique_rows, removed)
  end.

Definition read_history_rows (h : history) : list row := hrows h.

(** [f"{value:.2f}"] for a Decimal.  (For a negative zero, which the
    model does not have, the code writes [-0.00].) *)
Definition fmt_2f (d : Decimal.decimal) : string :=
  let c := Decimal.coef (Decimal.rescale d (-2)) in
  (if c <? 0 then "-" else EmptyString)
  +:+ pretty (Z.abs c / 100) +:+ "." +:+ zfill 2 (pretty (Z.abs c mod 100)).

(** [format_date_for_csv]: [date.strftime("%Y-%m-%d")].  The C library
    writes the year without padding (999 for the year 999), month and day
    on two digits. *)
Definition format_date_for_csv (d : Date) : string :=
  pretty (year d) +:+ "-" +:+ zfill 2 (pretty (month d)) +:+ "-"
  +:+ zfill 2 (pretty (day d)).

(** The row [append_history] writes (lines 141 to 156), as it is read
    back under the standard header. *)
Definition history_row (res : CalculationResult.t) (created_at party_name : string)
  : row :=
  list_to_map
    [("date"%string, format_date_for_csv (CalculationResult.date res));
     ("v_no"%string, CalculationResult.invoice_no res);
     ("client_no"%string, str_of_int (CalculationResult.client_no res));
     ("client_name"%string, CalculationResult.client_name res);
     ("total_nuts"%string, str_of_int (CalculationResult.total_nuts res));
     ("waste"%string, str_of_int (CalculationResult.waste_nuts res));
     ("remaining"%string, str_of_int (CalculationResult.remaining_nuts res));
     ("price_each"%string, fmt_2f (CalculationResult.price_each_rupees res));
     ("gross"%string, fmt_2f (CalculationResult.gross_amount res));
     ("tax"%string, fmt_2f (CalculationResult.tax_amount res));
     ("labor"%string, fmt_2f (CalculationResult.labor_charges res));
     ("final_amount"%string, fmt_2f (CalculationResult.final_amount res));
     ("created_at"%string, created_at);
     ("party_name"%string, party_name)].

(** The fourteen values of that row, in the order of [fieldnames] (lines
    124 to 139): [csv.DictWriter] writes them by position, whatever the
    header of the file is. *)
Definition history_values (res : CalculationResult.t) (created_at party_name : string)
  : list string :=
  [format_date_for_csv (CalculationResult.date res);
   CalculationResult.invoice_no res;
   str_of_int (CalculationResult.client_no res);
   CalculationResult.client_name res;
   str_of_int (CalculationResult.total_nuts res);
   str_of_int (CalculationResult.waste_nuts res);
   str_of_int (CalculationResult.remaining_nuts res);
   fmt_2f (CalculationResult.price_each_rupees res);
   fmt_2f (CalculationResult.gross_amount res);
   fmt_2f (CalculationResult.tax_amount res);
   fmt_2f (CalculationResult.labor_charges res);
   fmt_2f (CalculationResult.final_amount res);
   created_at;
   party_name].

(** A line as [csv.DictReader] gives it under the header [fieldnames]:
    [dict(zip(fieldnames, values))], where a name that comes twice keeps
    its last value; values beyond the header are left out and the names
    beyond the values are set to [None]. *)
Definition dict_row (fieldnames values : list string) : row :=
  foldr delete (list_to_map (reverse (zip fieldnames values)))
    (drop (length values) fieldnames).

(** [_ensure_history_has_party_column] (lines 98 to 116), for a file
    whose lines have as many fields as its header: the column is added at
    the end, empty in every row. *)
Definition _ensure_history_has_party_column (h : history) : history :=
  if bool_decide ("party_name" ∈ hheader h) then h
  else mkHistory (hheader h ++ ["party_name"])
         (<["party_name" := EmptyString]> <$> hrows h).

(** [append_history] (lines 119 to 162) on a ledger whose file has a
    header line: the fourteen values are written as one more line, which
    reads back under the header of the file. *)
Definition append_history (h : history) (res : CalculationResult.t)
    (created_at party_name : string) : history :=
  let h := _ensure_history_has_party_column h in
  mkHistory (hheader h)
    (hrows h ++ [dict_row (hheader h) (history_values res created_at party_name)]).

(** *** Files *)

(** A path below DATA_DIR is its list of components.  The store keeps the
    directories and the regular files; DATA_DIR itself always exists. *)
Record filesystem := mkFs {
  dirs : gset (list string);
  files : gmap (list string) string
}.

Definition is_dir (fs : filesystem) (p : list string) : bool :=
  bool_decide (p = []) || bool_decide (p ∈ dirs fs).

Definition is_file (fs : filesystem) (p : list string) : bool :=
  bool_decide (is_Some (files fs !! p)).

(** [Path.exists]. *)
Definition path_exists (fs : filesystem) (p : list string) : bool :=
  is_dir fs p || is_file fs p.

(** The components of a relative name: split at the slashes, empty
    components and single dots dropped, as [pathlib] does. *)
Fixpoint components_go (cur : string) (s : string) : list string :=
  match s with
  | EmptyString => [cur]
  | String c s' =>
      if Ascii.eqb c "/" then cur :: components_go EmptyString s'
      else components_go (cur +:+ String c EmptyString) s'
  end.

Definition components (name : string) : list string :=
  filter (fun c => c <> EmptyString /\ c <> "."%string) (components_go EmptyString name).

(** [dir / name], for a name that does not start with a slash. *)
Definition path_join (dir : list string) (name : string) : list string :=
  dir ++ components name.

Definition parent (p : list string) : list string := removelast p.

(** [Path.write_text]: the directory of the file has to exist. *)
Definition write_text (fs : filesystem) (p : list string) (content : string)
  : result filesystem :=
  if is_dir fs p then Raise IsADirectoryError
  else if is_file fs (parent p) then Raise NotADirectoryError
  else if negb (is_dir fs (parent p)) then Raise FileNotFoundError
  else Ok (mkFs (dirs fs) (<[p := content]> (files fs))).

(** [Path.mkdir(parents=True, exist_ok=True)] for a directory directly
    below DATA_DIR. *)
Definition mkdir (fs : filesystem) (p : list string) : result filesystem :=
  if is_file fs p then Raise FileExistsError
  else Ok (mkFs ({[p]} ∪ dirs fs) (files fs)).

Definition CLIENTS_CSV : list string := ["clients.csv"%string].
Definition CLIENTS_JSON : list string := ["clients.json"%string].
Definition HISTORY_CSV : list string := ["history.csv"%string].
Definition SLIPS_DIR : list string := ["slips"%string].
Definition RANGE_DIR : list string := ["range_reports"%string].
Definition PARTIES_CSV : list string := ["parties.csv"%string].

Definition nl : string := String (chr 10) EmptyString.
Definition crlf : string := String (chr 13) (String (chr 10) EmptyString).
Definition dquote : string := String (chr 34) EmptyString.

(** [json.dumps({str(i): f"Client {i:02d}" for i in range(1, 21)}, indent=2)]. *)
Definition default_clients_json : string :=
  "{" +:+ nl +:+
  join ("," +:+ nl)
    ((fun i : nat =>
        "  " +:+ dquote +:+ pretty i +:+ dquote +:+ ": " +:+ dquote +:+
        "Client " +:+ zfill 2 (pretty i) +:+ dquote) <$> seq 1 20)
  +:+ nl +:+ "}".

Definition history_header : string :=
  "date,v_no,client_no,client_name,total_nuts,waste,remaining,price_each,gross,tax,labor,final_amount,created_at,party_name"
  +:+ crlf.

(** Write [content] at [p] unless something is there already. *)
Definition create_if_missing (fs : filesystem) (p : list string) (content : string)
  : result filesystem :=
  if path_exists fs p then Ok fs else write_text fs p content.

Definition ensure_files_exist (fs : filesystem) : result filesystem :=
  fs ← mkdir fs SLIPS_DIR;
  fs ← mkdir fs RANGE_DIR;
  fs ← (if negb (path_exists fs CLIENTS_JSON) && negb (path_exists fs CLIENTS_CSV)
        then write_text fs CLIENTS_JSON default_clients_json
        else Ok fs);
  fs ← create_if_missing fs CLIENTS_CSV ("client_no,client_name" +:+ nl);
  fs ← create_if_missing fs PARTIES_CSV ("party_name" +:+ nl);
  create_if_missing fs HISTORY_CSV history_header.

Definition _shorten_client_name (name : string) : string :=
  match split name with
  | [] => "Client"
  | [p] => str_take 16 p
  | p :: rest => str_take 24 (p +:+ List.last rest EmptyString)
  end.

(** [s.replace(" ", "")]. *)
Fixpoint remove_spaces (s : string) : string :=
  match s with
  | EmptyString => EmptyString
  | String c s' =>
      if Ascii.eqb c " " then remove_spaces s' else String c (remove_spaces s')
  end.

(** [date.strftime("%Y%m%d")]: the year without padding, month and day on
    two digits. *)
Definition strftime_Ymd (d : Date) : string :=
  pretty (year d) +:+ zfill 2 (pretty (month d)) +:+ zfill 2 (pretty (day d)).

Definition slip_filename (res : CalculationResult.t) : string :=
  let ymd := strftime_Ymd (CalculationResult.date res) in
  let short := remove_spaces (_shorten_client_name (CalculationResult.client_name res)) in
  "VNo" +:+ CalculationResult.invoice_no res +:+ "_" +:+ ymd +:+ "_" +:+ short +:+ ".txt".

(** [save_slip_text_if_new]: the store after the call, the path and
    whether the file was created. *)
Definition save_slip_text_if_new (fs : filesystem) (res : CalculationResult.t)
    (content : string) : result (filesystem * (list string * bool)) :=
  fs ← ensure_files_exist fs;
  let path := path_join SLIPS_DIR (slip_filename res) in
  if path_exists fs path then Ok (fs, (path, false))
  else
    fs ← write_text fs path content;
    Ok (fs, (path, true)).

Definition _sanitize_filename_component (text : string) : string :=
  let stripped := strip text in
  let safe :=
    (fix go (s : string) : string :=
       match s with
       | EmptyString => EmptyString
       | String ch s' =>
           String (if isalnum ch || Ascii.eqb ch "-" || Ascii.eqb ch "_"
                   then ch else "_"%char) (go s')
       end) stripped in
  let safe := collapse_underscores (String.length safe) safe in
  let out := strip_chars (fun c => Ascii.eqb c "." || Ascii.eqb c "_") safe in
  if is_empty out then "NA" else out.

Definition range_report_filename (party_name : string) (from_vno to_vno : Z)
    (on_date : Date) : string :=
  let party_slug := _sanitize_filename_component party_name in
  let date_tag := strftime_Ymd on_date in
  date_tag +:+ "_V" +:+ str_of_int from_vno +:+ "-" +:+ str_of_int to_vno
    +:+ "_" +:+ party_slug +:+ ".txt".

Definition _range_report_path (party_name : string) (from_vno to_vno : Z)
    (on_date : Date) : list string :=
  path_join RANGE_DIR (range_report_filename party_name from_vno to_vno on_date).

(** [save_range_report_if_new]; [utcnow] is the text of
    [datetime.utcnow().isoformat(timespec="seconds")] at the call. *)
Definition save_range_report_if_new (fs : filesystem) (utcnow : string)
    (party_name : string) (from_vno to_vno : Z) (report_text : string)
    (on_date : Date) : result (filesystem * (list string * bool)) :=
  fs ← ensure_files_exist fs;
  let path := _range_report_path party_name from_vno to_vno on_date in
  if path_exists fs path then Ok (fs, (path, false))
  else
    let header :=
      "Party: " +:+ party_name +:+ nl +:+
      "Range: " +:+ str_of_int from_vno +:+ ".." +:+ str_of_int to_vno +:+ nl +:+
      "Saved At (UTC): " +:+ utcnow +:+ nl +:+ nl in
    fs ← write_text fs path (header +:+ report_text);
    Ok (fs, (path, true)).

(** The shape the two saves share, used to state their properties once:
    make sure the data files are there, then write only when nothing is at
    the path. *)
Definition save_if_new (fs : filesystem) (path : list string) (content : string)
  : result (filesystem * (list string * bool)) :=
  fs ← ensure_files_exist fs;
  if path_exists fs path then Ok (fs, (path, false))
  else
    fs ← write_text fs path content;
    Ok (fs, (path, true)).

(** The text [save_range_report_if_new] puts in front of the report. *)
Definition range_report_header (utcnow party_name : string) (from_vno to_vno : Z)
  : string :=
  "Party: " +:+ party_name +:+ nl +:+
  "Range: " +:+ str_of_int from_vno +:+ ".." +:+ str_of_int to_vno +:+ nl +:+
  "Saved At (UTC): " +:+ utcnow +:+ nl +:+ nl.

(** A store on which [ensure_files_exist] has nothing left to do. *)
Definition initialised (fs : filesystem) : Prop :=
  SLIPS_DIR ∈ dirs fs /\ RANGE_DIR ∈ dirs fs
  /\ files fs !! SLIPS_DIR = None /\ files fs !! RANGE_DIR = None
  /\ path_exists fs CLIENTS_CSV = true
  /\ path_exists fs PARTIES_CSV = true
  /\ path_exists fs HISTORY_CSV = true.

(** One store grows into another: directories and files are only added,
    files only at the paths of the data files or at [extra]. *)
Definition grows (extra : list (list string)) (fs fs' : filesystem) : Prop :=
  dirs fs ⊆ dirs fs'
  /\ (forall q c, files fs !! q = Some c -> files fs' !! q = Some c)
  /\ (forall q, is_Some (files fs' !! q) ->
        is_Some (files fs !! q)
        \/ q ∈ extra ++ [CLIENTS_JSON; CLIENTS_CSV; PARTIES_CSV; HISTORY_CSV]).

(** Example rows: two that differ in the text of the amount only; two
    with one key, told apart by the creation time, and one with another
    voucher id. *)
Definition row_100_0 : row :=
  {[ "client_name" := "Ravi"; "v_no" := "7"; "final_amount" := "100.0" ]}%string.
Definition row_100_00 : row :=
  {[ "client_name" := "Ravi"; "v_no" := "7"; "final_amount" := "100.00" ]}%string.
Definition row_a1 : row :=
  {[ "client_name" := " Ravi "; "v_no" := "7"; "final_amount" := "100.00";
     "created_at" := "t1" ]}%string.
Definition row_a2 : row :=
  {[ "client_name" := "RAVI"; "v_no" := " 7"; "final_amount" := "100.00 ";
     "created_at" := "t2" ]}%string.
Definition row_b : row :=
  {[ "client_name" := "Ravi"; "v_no" := "8"; "final_amount" := "100.00";
     "created_at" := "t3" ]}%string.

(** The characters [_sanitize_filename_component] lets through. *)
Definition safe_char (c : ascii) : bool :=
  isalnum c || Ascii.eqb c "-" || Ascii.eqb c "_".

(** [save_slip_text] (lines 220 to 224): the slip is written whether or
    not a file is there. *)
Definition save_slip_text (fs : filesystem) (res : CalculationResult.t)
    (content : string) : result (filesystem * list string) :=
  fs ← ensure_files_exist fs;
  let path := path_join SLIPS_DIR (slip_filename res) in
  fs ← write_text fs path content;
  Ok (fs, path).

(** [save_range_report] (lines 277 to 279); [today] is [Date.today()]. *)
Definition save_range_report (fs : filesystem) (utcnow : string) (today : Date)
    (party_name : string) (from_vno to_vno : Z) (report_text : string)
  : result (filesystem * list string) :=
  r ← save_range_report_if_new fs utcnow party_name from_vno to_vno report_text today;
  Ok (fst r, fst (snd r)).

(** [row.get(k) or ""]. *)
Definition get_text (r : row) (k : string) : string :=
  match r !! k with
  | Some v => v
  | None => EmptyString
  end.

(** The names [load_parties] collects from the rows of [parties.csv]
    (lines 172 to 175): stripped, the empty ones left out. *)
Definition party_names (rows : list row) : list string :=
  filter (fun name => name <> EmptyString)
    ((fun r => strip (get_text r "party_name")) <$> rows).

(** The loop of [load_parties] (lines 177 to 184), with its two
    variables. *)
Fixpoint unique_loop (parties : list string) (seen : gset string)
    (unique : list string) : list string :=
  match parties with
  | [] => unique
  | p :: rest =>
      let k := lower p in
      if decide (k ∈ seen) then unique_loop rest seen unique
      else unique_loop rest ({[k]} ∪ seen) (unique ++ [p])
  end.

(** [load_parties], on the rows below the header of [parties.csv]. *)
Definition load_parties (rows : list row) : list string :=
  unique_loop (party_names rows) ∅ [].

(** [append_party_if_new] (lines 188 to 201): the rows of [parties.csv]
    after the call. *)
Definition append_party_if_new (rows : list row) (name : string) : list row :=
  let name := strip name in
  if is_empty name then rows
  else
    let existing : gset string := list_to_set (lower <$> load_parties rows) in
    if decide (lower name ∈ existing) then rows
    else rows ++ [{[ "party_name"%string := name ]}].

(** The loop of [load_parties] without its accumulator: the names kept
    once the keys of [seen] are taken.  The program does not compute it;
    the properties of the loop are proved on it. *)
Fixpoint unique_from (seen : gset string) (parties : list string) : list string :=
  match parties with
  | [] => []
  | p :: rest =>
      if decide (lower p ∈ seen) then unique_from seen rest
      else p :: unique_from ({[lower p]} ∪ seen) rest
  end.

(** The integers of a result have at most [max_str_digits] digits, so
    that [csv.writer] can write them ([str] raises ValueError beyond). *)
Definition writable (res : CalculationResult.t) : Prop :=
  Z.abs (CalculationResult.client_no res) < 10 ^ max_str_digits
  /\ Z.abs (CalculationResult.total_nuts res) < 10 ^ max_str_digits
  /\ Z.abs (CalculationResult.waste_nuts res) < 10 ^ max_str_digits
  /\ Z.abs (CalculationResult.remaining_nuts res) < 10 ^ max_str_digits.

End Persistence.

(** ** Python floats: binary64 values as exact dyadic numbers *)

Module PyFloat.
Import Decimal.

(** A finite float is [m * 2 ^ e]; the sign of a zero is not kept. *)
Inductive float :=
| Finite (m e : Z)
| Infinity (neg : bool)
| NaN.

(** The float nearest to [num / den] (for [0 <= num] and [0 < den]),
    ties to the even mantissa: 53 bits, exponents from -1074 to 971. *)
Definition round_b64 (neg : bool) (num den : Z) : float :=
  if num =? 0 then Finite 0 0
  else
    let e0 := Z.log2 num - Z.log2 den - 53 in
    let floor_at e :=
      if 0 <=? e then num / (den * 2 ^ e) else (num * 2 ^ (- e)) / den in
    let e1 := if 2 ^ 53 <=? floor_at e0 then e0 + 1 else e0 in
    let e2 := Z.max e1 (-1074) in
    let m := if 0 <=? e2 then rnd_half_even num (den * 2 ^ e2)
             else rnd_half_even (num * 2 ^ (- e2)) den in
    let m' := if m =? 2 ^ 53 then 2 ^ 52 else m in
    let e' := if m =? 2 ^ 53 then e2 + 1 else e2 in
    if 971 <? e' then Infinity neg
    else Finite (if neg then - m' else m') e'.

(** The float nearest to the integer [z * 2 ^ e]. *)
Definition round_dyadic (z e : Z) : float :=
  if 0 <=? e then round_b64 (z <? 0) (Z.abs z * 2 ^ e) 1
  else round_b64 (z <? 0) (Z.abs z) (2 ^ (- e)).

Definition of_int (z : Z) : float := round_dyadic z 0.

Definition fsub (a b : float) : float :=
  match a, b with
  | Finite m1 e1, Finite m2 e2 =>
      let e := Z.min e1 e2 in
      round_dyadic (m1 * 2 ^ (e1 - e) - m2 * 2 ^ (e2 - e)) e
  | NaN, _ | _, NaN => NaN
  | Infinity s1, Infinity s2 => if Bool.eqb s1 s2 then NaN else Infinity s1
  | Infinity s, Finite _ _ => Infinity s
  | Finite _ _, Infinity s => Infinity (negb s)
  end.

Definition fmul (a b : float) : float :=
  match a, b with
  | Finite m1 e1, Finite m2 e2 => round_dyadic (m1 * m2) (e1 + e2)
  | NaN, _ | _, NaN => NaN
  | Infinity s, Finite m _ | Finite m _, Infinity s =>
      if m =? 0 then NaN else Infinity (xorb s (m <? 0))
  | Infinity s1, Infinity s2 => Infinity (xorb s1 s2)
  end.

(** [int(x)]: truncation towards zero. *)
Definition to_int (x : float) : result Z :=
  match x with
  | Finite m e => Ok (if 0 <=? e then m * 2 ^ e else Z.quot m (2 ^ (- e)))
  | Infinity _ => Raise (OverflowError "cannot convert float infinity to integer")
  | NaN => Raise (ValueError "cannot convert float NaN to integer")
  end.

(** [round(x)] with one argument: the nearest [int], ties to even. *)
Definition py_round (x : float) : result Z :=
  match x with
  | Finite m e => Ok (if 0 <=? e then m * 2 ^ e else round_div m (2 ^ (- e)))
  | Infinity _ => Raise (OverflowError "cannot convert float infinity to integer")
  | NaN => Raise (ValueError "cannot convert float NaN to integer")
  end.

End PyFloat.

(** ** webapp.py *)

Module Webapp.
Import Core Text Persistence.

(** A run of digits in which single underscores may separate digits. *)
Fixpoint parse_digits (expect_digit : bool) (acc : Z) (s : string) : option Z :=
  match s with
  | EmptyString => if expect_digit then None else Some acc
  | String c s' =>
      if isdigit c then parse_digits false (10 * acc + digit_value c) s'
      else if Ascii.eqb c "_" && negb expect_digit then parse_digits true acc s'
      else None
  end.

(** The digits of an integer literal, after the sign: at most
    [max_str_digits] of them. *)
Definition int_digits (s : string) : option Z :=
  if max_str_digits <? count_digits s then None else parse_digits true 0 s.

(** [int(s)] for a text; [None] is the ValueError.  White space is
    skipped at both ends, a sign may come first. *)
Definition int_of_str (s : string) : option Z :=
  match strip_chars isspace_c s with
  | String "-" r => Z.opp <$> int_digits r
  | String "+" r => int_digits r
  | t => int_digits t
  end.

(** The longest digit part at the head of [s], read after a first digit:
    its value so far, the number of digits and the rest. *)
Fixpoint digit_part (acc : Z) (cnt : Z) (s : string) : Z * Z * string :=
  match s with
  | EmptyString => (acc, cnt, EmptyString)
  | String c s' =>
      if isdigit c then digit_part (10 * acc + digit_value c) (cnt + 1) s'
      else if Ascii.eqb c "_" then
        match s' with
        | String c2 s'' =>
            if isdigit c2
            then digit_part (10 * acc + digit_value c2) (cnt + 1) s''
            else (acc, cnt, s)
        | EmptyString => (acc, cnt, s)
        end
      else (acc, cnt, s)
  end.

(** An optional digit part: value, number of digits (0 when absent), rest. *)
Definition opt_digit_part (s : string) : Z * Z * string :=
  match s with
  | String c s' =>
      if isdigit c then digit_part (digit_value c) 1 s' else (0, 0, s)
  | EmptyString => (0, 0, s)
  end.

(** The exponent of a float literal: [Some (exponent, rest)], or [None]
    when the text is malformed. *)
Definition exponent_part (s : string) : option (Z * string) :=
  match s with
  | String c s' =>
      if Ascii.eqb c "e" || Ascii.eqb c "E" then
        let '(neg, body) :=
          match s' with
          | String "-" b => (true, b)
          | String "+" b => (false, b)
          | _ => (false, s')
          end in
        let '(v, n, rest) := opt_digit_part body in
        if n =? 0 then None else Some (if neg then - v else v, rest)
      else Some (0, s)
  | EmptyString => Some (0, s)
  end.

(** [float(s)] for a text; [None] is the ValueError. *)
Definition float_of_str (s : string) : option PyFloat.float :=
  let t := strip_chars isspace_c s in
  let '(neg, body) :=
    match t with
    | String "-" b => (true, b)
    | String "+" b => (false, b)
    | _ => (false, t)
    end in
  let low := lower body in
  if String.eqb low "inf" || String.eqb low "infinity" then Some (PyFloat.Infinity neg)
  else if String.eqb low "nan" then Some PyFloat.NaN
  else
    let '(ip, ni, rest1) := opt_digit_part body in
    let '(fp, nf, rest2) :=
      match rest1 with
      | String "." r => opt_digit_part r
      | _ => (0, 0, rest1)
      end in
    if (ni =? 0) && (nf =? 0) then None
    else
      match exponent_part rest2 with
      | Some (ex, EmptyString) =>
          let mant := ip * 10 ^ nf + fp in
          let e10 := ex - nf in
          Some (if 0 <=? e10 then PyFloat.round_b64 neg (mant * 10 ^ e10) 1
                else PyFloat.round_b64 neg mant (10 ^ (- e10)))
      | _ => None
      end.

(** The loop of [_format_indian_number]: groups of two taken from the
    right of [rest], the remainder of one or two digits in front. *)
Fixpoint indian_groups (fuel : nat) (rest : string) (groups : list string)
  : list string :=
  match fuel with
  | O => groups
  | S f =>
      if (2 <? String.length rest)%nat
      then indian_groups f (but_last_chars 2 rest) (last_chars 2 rest :: groups)
      else if is_empty rest then groups else rest :: groups
  end.

Definition _format_indian_number (n : Z) : string :=
  let s := str_of_int (Z.abs n) in
  if (String.length s <=? 3)%nat then s
  else
    let last3 := last_chars 3 s in
    let rest := but_last_chars 3 s in
    let groups := indian_groups (S (String.length rest)) rest [] in
    join "," (groups ++ [last3]).

(** Lines 288 to 296 of [voucher_range]: the rows whose voucher id reads
    as an integer of the window, each with that integer. *)
Fixpoint filter_vouchers (a b : Z) (rows : list row) : list (Z * row) :=
  match rows with
  | [] => []
  | r :: rest =>
      let v := get_or r "v_no" "V.No." EmptyString in
      match int_of_str (strip v) with
      | None => filter_vouchers a b rest
      | Some v_int =>
          if (a <=? v_int) && (v_int <=? b)
          then (v_int, r) :: filter_vouchers a b rest
          else filter_vouchers a b rest
      end
  end.

(** [list.sort(key=...)] is stable, and every stable sort gives the same
    list; it is modelled by the insertion sort that puts the head of the
    list in front of the first element whose key is not smaller. *)
Fixpoint insert_by_key (x : Z * row) (l : list (Z * row)) : list (Z * row) :=
  match l with
  | [] => [x]
  | y :: l' => if fst x <=? fst y then x :: l else y :: insert_by_key x l'
  end.

Fixpoint sort_by_key (l : list (Z * row)) : list (Z * row) :=
  match l with
  | [] => []
  | x :: l' => insert_by_key x (sort_by_key l')
  end.

(** The specification's selection test: the voucher id of the row reads
    as an integer of the inclusive window. *)
Definition in_window (lo hi : Z) (r : row) : bool :=
  match int_of_str (strip (get_or r "v_no" "V.No." EmptyString)) with
  | Some v => (lo <=? v) && (v <=? hi)
  | None => false
  end.

(** The selection of the range report (lines 284 to 297): the window put
    in order, the rows filtered, then sorted by voucher id. *)
Definition select_vouchers (a b : Z) (rows : list row) : list (Z * row) :=
  let a' := if b <? a then b else a in
  let b' := if b <? a then a else b in
  sort_by_key (filter_vouchers a' b' rows).

(** Lines 306 to 315: the amount text of a row. *)
Definition amount_text (r : row) : result string :=
  let amount := get_or r "final_amount" "Amount" "0" in
  let amt := match float_of_str amount with
             | Some x => x
             | None => PyFloat.Finite 0 0
             end in
  rupees ← PyFloat.to_int amt;
  paise ← PyFloat.py_round
            (PyFloat.fmul (PyFloat.fsub amt (PyFloat.of_int rupees)) (PyFloat.of_int 100));
  let amt_text := _format_indian_number rupees in
  Ok (if paise =? 0 then amt_text else amt_text +:+ "." +:+ fmt_02d paise).

(** Lines 304 to 317: label and amount of every selected row. *)
Fixpoint build_entries (filtered : list (Z * row)) : result (list (string * string)) :=
  match filtered with
  | [] => Ok []
  | (vnum, r) :: rest =>
      let name := strip (get_or r "client_name" "Name" EmptyString) in
      amt_text ← amount_text r;
      let label := name +:+ " (" +:+ str_of_int vnum +:+ ")" in
      entries ← build_entries rest;
      Ok ((label, amt_text) :: entries)
  end.

Definition max_len (l : list string) : nat :=
  foldr (fun s m => Nat.max (String.length s) m) O l.

(** Lines 322 to 327: the aligned lines. *)
Definition render_lines (entries : list (string * string)) : list string :=
  let name_width := max_len (fst <$> entries) in
  let amt_width := max_len (snd <$> entries) in
  let idx_width := String.length (pretty (length entries)) in
  imap (fun i e =>
          rjust idx_width (pretty (S i)) +:+ ". " +:+ ljust name_width (fst e)
          +:+ "  =  " +:+ rjust amt_width (snd e)) entries.

(** What [render_with] is given. *)
Record response := mkResponse {
  resp_error : option string;
  resp_report_text : option string
}.

Definition str_of_error (e : error) : string :=
  match e with
  | ValueError msg => msg
  | OverflowError msg => msg
  | InvalidOperation => "[<class 'decimal.InvalidOperation'>]"
  | DivisionByZero => "[<class 'decimal.DivisionByZero'>]"
  | FileNotFoundError => "[Errno 2] No such file or directory"
  | FileExistsError => "[Errno 17] File exists"
  | NotADirectoryError => "[Errno 20] Not a directory"
  | IsADirectoryError => "[Errno 21] Is a directory"
  end.

Definition no_vouchers : string := "No vouchers found in this range".

(** [voucher_range] from line 274 on, on the two form fields and the
    ledger: the ledger after the request and what [render_with] is given.
    This is what the request does once [get_clients()] (line 239, outside
    the [try]) has returned; an exception of [get_clients] ends the
    request before. *)
Definition voucher_range (from_no to_no : option string) (h : history)
  : history * response :=
  match from_no, to_no with
  | Some (String c1 s1), Some (String c2 s2) =>
      match int_of_str (String c1 s1), int_of_str (String c2 s2) with
      | Some a, Some b =>
          let filtered := select_vouchers a b (read_history_rows h) in
          match filtered with
          | [] => (h, mkResponse None (Some no_vouchers))
          | _ =>
              match build_entries filtered with
              | Raise e => (h, mkResponse (Some (str_of_error e)) None)
              | Ok entries =>
                  let lines := render_lines entries in
                  let h' := fst (deduplicate_history h) in
                  (h', mkResponse None (Some (join nl lines)))
              end
          end
      | _, _ => (h, mkResponse (Some "Voucher numbers must be integers"%string) None)
      end
  | _, _ =>
      (h, mkResponse (Some "Please enter both From and To voucher numbers"%string) None)
  end.

(** The order [sort] leaves the selection in. *)
Definition key_le (x y : Z * row) : Prop := fst x <= fst y.

(** Example data: a row that has a voucher id only; the standard header;
    a sale whose final amount is negative (100 units at 0.01 leave 0.98
    less 0.01 tax less 11.00 labor); a sale to a party whose name holds a
    slash. *)
Definition voucher_row (v : string) : row := {[ "v_no" := v ]}.

Definition standard_header : list string :=
  ["date"; "v_no"; "client_no"; "client_name"; "total_nuts"; "waste";
   "remaining"; "price_each"; "gross"; "tax"; "labor"; "final_amount";
   "created_at"; "party_name"]%string.

Definition negative_sale : CalculationInput.t :=
  CalculationInput.mk "12" 0 "Ravi" 100 (Decimal.mkDec 1 (-2))
    (mkDate 2025 8 10) d_11.

Definition slash_party_sale : CalculationInput.t :=
  CalculationInput.mk "001" 0 "M/s Traders" 5670 (Decimal.mkDec 22 0)
    (mkDate 2025 8 10) d_11.

(** The voucher id of a row as [voucher_range] and [voucher_get] read it:
    [int(str(r.get("v_no") or r.get("V.No.") or "").strip())]; [None] when
    [int] raises. *)
Definition voucher_id (r : row) : option Z :=
  int_of_str (strip (get_or r "v_no" "V.No." EmptyString)).

(** The loop of [voucher_get] (lines 433 to 442) on the rows it walks. *)
Fixpoint first_with_id (v : Z) (rows : list row) : option row :=
  match rows with
  | [] => None
  | r :: rest =>
      if decide (voucher_id r = Some v) then Some r else first_with_id v rest
  end.

(** [voucher_get] walks [reversed(rows)]: the most recent match wins. *)
Definition find_voucher (v : Z) (rows : list row) : option row :=
  first_with_id v (reverse rows).

(** The amount text the specification describes, for an amount of [c]
    paise: the rupees in Indian grouping, then a point and the two digits
    of the paise unless the paise are zero. *)
Definition spec_amount_text (c : Z) : string :=
  if c mod 100 =? 0 then _format_indian_number (c / 100)
  else _format_indian_number (c / 100) +:+ "." +:+ zfill 2 (pretty (c mod 100)).

End Webapp.

(** ** cli.py *)

Module Cli.
Import Text Webapp.

(** [parse_positive_int] (lines 21 to 28); the left case is the message
    of the [argparse.ArgumentTypeError] it raises. *)
Definition parse_positive_int (value field_name : string) : string + Z :=
  match int_of_str value with
  | None => inl (field_name +:+ " must be an integer")
  | Some num =>
      if num <=? 0 then inl (field_name +:+ " must be > 0") else inr num
  end.

End Cli.

(** * Properties *)

Import Decimal Core Text Persistence Webapp.

Lemma pow10_pos k : 0 < 10 ^ k \/ k < 0.
Proof. destruct (Z_lt_le_dec k 0); [right|left]; [lia|]. apply Z.pow_pos_nonneg; lia. Qed.

Lemma pow10_gt0 k : 0 <= k -> 0 < 10 ^ k.
Proof. intros. apply Z.pow_pos_nonneg; lia. Qed.

Lemma pow10_succ k : 0 <= k -> 10 ^ (k + 1) = 10 * 10 ^ k.
Proof. intros. rewrite Z.pow_add_r by lia. lia. Qed.

Lemma pow10_add a b : 0 <= a -> 0 <= b -> 10 ^ (a + b) = 10 ^ a * 10 ^ b.
Proof. intros. apply Z.pow_add_r; lia. Qed.

Lemma pow10_le a b : 0 <= a <= b -> 10 ^ a <= 10 ^ b.
Proof. intros. apply Z.pow_le_mono_r; lia. Qed.

Lemma pow10_lt a b : 0 <= a < b -> 10 ^ a < 10 ^ b.
Proof. intros. apply Z.pow_lt_mono_r; lia. Qed.

Lemma ndigits_aux_pos fuel c : 1 <= ndigits_aux fuel c.
Proof.
  revert c. induction fuel as [|f IH]; intros c; simpl; [lia|].
  destruct (c <? 10); [lia|]. specialize (IH (c / 10)). lia.
Qed.

Lemma ndigits_aux_spec fuel c :
  0 < c < 2 ^ (Z.of_nat fuel + 1) ->
  10 ^ (ndigits_aux fuel c - 1) <= c < 10 ^ ndigits_aux fuel c.
Proof.
  revert c. induction fuel as [|f IH]; intros c Hc.
  - simpl in *. assert (c = 1) by lia. subst. simpl. lia.
  - cbn [ndigits_aux]. destruct (Z.ltb_spec c 10) as [Hlt|Hge].
    + simpl. lia.
    + assert (Hq : 0 < c / 10 < 2 ^ (Z.of_nat f + 1)).
      { split.
        - apply Z.div_str_pos. lia.
        - apply Z.div_lt_upper_bound; [lia|].
          replace (Z.of_nat (S f) + 1) with (Z.of_nat f + 1 + 1) in Hc by lia.
          rewrite Z.pow_add_r in Hc by lia. lia. }
      specialize (IH _ Hq).
      pose proof (ndigits_aux_pos f (c / 10)) as Hp.
      set (k := ndigits_aux f (c / 10)) in *.
      replace (1 + k - 1) with (k - 1 + 1) by lia.
      replace (1 + k) with (k + 1) by lia.
      rewrite !pow10_succ by lia.
      pose proof (Z.div_mod c 10 ltac:(lia)) as Hdm.
      pose proof (Z.mod_pos_bound c 10 ltac:(lia)). lia.
Qed.

Lemma ndigits_pos c : 1 <= ndigits c.
Proof. apply ndigits_aux_pos. Qed.

Lemma ndigits_abs c : ndigits (Z.abs c) = ndigits c.
Proof. unfold ndigits. now rewrite Z.abs_idemp. Qed.

Lemma ndigits_opp c : ndigits (- c) = ndigits c.
Proof. unfold ndigits. now rewrite Z.abs_opp. Qed.

Lemma ndigits_spec c :
  c <> 0 -> 10 ^ (ndigits c - 1) <= Z.abs c < 10 ^ ndigits c.
Proof.
  intros Hc. unfold ndigits. apply ndigits_aux_spec.
  assert (0 < Z.abs c) by lia. split; [lia|].
  rewrite Z2Nat.id by apply Z.log2_nonneg.
  replace (Z.log2 (Z.abs c) + 1) with (Z.succ (Z.log2 (Z.abs c))) by lia.
  apply Z.log2_spec. lia.
Qed.

Lemma ndigits_0 : ndigits 0 = 1.
Proof. reflexivity. Qed.

Lemma ndigits_unique c k :
  1 <= k -> 10 ^ (k - 1) <= Z.abs c < 10 ^ k -> ndigits c = k.
Proof.
  intros Hk [Hlo Hhi].
  assert (Hc : c <> 0).
  { intros ->. simpl in Hlo. pose proof (pow10_gt0 (k - 1)). lia. }
  pose proof (ndigits_spec c Hc) as [Hlo' Hhi'].
  pose proof (ndigits_pos c).
  destruct (Z_lt_le_dec (ndigits c) k) as [Hl|Hl].
  - pose proof (pow10_le (ndigits c) (k - 1)). lia.
  - destruct (Z_lt_le_dec k (ndigits c)) as [Hg|Hg]; [|lia].
    pose proof (pow10_le k (ndigits c - 1)). lia.
Qed.

Lemma ndigits_lt_pow c k : 0 <= k -> Z.abs c < 10 ^ k -> c <> 0 -> ndigits c <= k.
Proof.
  intros Hk Hc Hnz. pose proof (ndigits_spec c Hnz) as [Hlo _].
  destruct (Z_lt_le_dec k (ndigits c)) as [Hg|]; [|lia].
  pose proof (pow10_le k (ndigits c - 1)). lia.
Qed.

Lemma ndigits_ge_pow c k : 0 <= k -> 10 ^ k <= Z.abs c -> k + 1 <= ndigits c.
Proof.
  intros Hk Hc.
  assert (Hnz : c <> 0). { intros ->. pose proof (pow10_gt0 k). simpl in Hc. lia. }
  pose proof (ndigits_spec c Hnz) as [_ Hhi]. pose proof (ndigits_pos c).
  destruct (Z_lt_le_dec (ndigits c) (k + 1)) as [Hg|]; [|lia].
  pose proof (pow10_le (ndigits c) k). lia.
Qed.

(** *** Rounding a quotient half-even *)

Lemma rnd_half_even_spec a d :
  0 < d ->
  2 * Z.abs (rnd_half_even a d * d - a) <= d /\
  (2 * Z.abs (rnd_half_even a d * d - a) = d -> Z.even (rnd_half_even a d) = true).
Proof.
  intros Hd. unfold rnd_half_even.
  pose proof (Z.div_mod a d ltac:(lia)) as Hdm.
  pose proof (Z.mod_pos_bound a d Hd) as Hr.
  set (q := a / d) in *. set (r := a mod d) in *.
  destruct (Z.ltb_spec (2 * r) d) as [H1|H1].
  - split; [lia|]. intros H. exfalso. lia.
  - destruct (Z.ltb_spec d (2 * r)) as [H2|H2].
    + split; [lia|]. intros H. exfalso. lia.
    + destruct (Z.even q) eqn:He.
      * split; [lia|]. auto.
      * split; [lia|]. intros _.
        replace (q + 1) with (Z.succ q) by lia.
        rewrite Z.even_succ, <- Z.negb_even, He. reflexivity.
Qed.

Lemma rnd_half_even_unique a d x :
  0 < d ->
  2 * Z.abs (x * d - a) <= d ->
  (2 * Z.abs (x * d - a) = d -> Z.even x = true) ->
  x = rnd_half_even a d.
Proof.
  intros Hd H1 H2.
  destruct (rnd_half_even_spec a d Hd) as [H3 H4].
  set (y := rnd_half_even a d) in *.
  assert (Hxy : Z.abs (x - y) <= 1) by nia.
  destruct (Z.eq_dec x y) as [|Hne]; [assumption|exfalso].
  assert (Hcase : x = y + 1 \/ y = x + 1) by lia.
  assert (Z.even x = true) by (apply H2; nia).
  assert (Z.even y = true) by (apply H4; nia).
  destruct Hcase as [->| ->].
  - replace (y + 1) with (Z.succ y) in * by lia.
    rewrite Z.even_succ, <- Z.negb_even in *. destruct (Z.even y); discriminate.
  - replace (x + 1) with (Z.succ x) in * by lia.
    rewrite Z.even_succ, <- Z.negb_even in *. destruct (Z.even x); discriminate.
Qed.

Lemma rnd_half_even_bounds a d :
  0 < d -> a / d <= rnd_half_even a d <= a / d + 1.
Proof.
  intros Hd. unfold rnd_half_even.
  repeat match goal with |- context [if ?b then _ else _] => destruct b end; lia.
Qed.

Lemma rnd_half_even_nonneg a d : 0 <= a -> 0 < d -> 0 <= rnd_half_even a d.
Proof.
  intros Ha Hd. pose proof (rnd_half_even_bounds a d Hd).
  pose proof (Z.div_pos a d Ha Hd). lia.
Qed.

Lemma rnd_half_even_mono a b d :
  0 < d -> a <= b -> rnd_half_even a d <= rnd_half_even b d.
Proof.
  intros Hd Hab.
  pose proof (Z.div_le_mono a b d Hd Hab) as Hq.
  destruct (Z.eq_dec (a / d) (b / d)) as [Heq|Hne].
  - pose proof (Z.div_mod a d ltac:(lia)) as Ha.
    pose proof (Z.div_mod b d ltac:(lia)) as Hb.
    unfold rnd_half_even. rewrite <- Heq in *.
    set (q := a / d) in *.
    assert (a mod d <= b mod d) by lia.
    repeat match goal with |- context [if ?b then _ else _] => destruct b eqn:? end;
      try lia.
  - pose proof (rnd_half_even_bounds a d Hd).
    pose proof (rnd_half_even_bounds b d Hd). lia.
Qed.

Lemma rnd_half_even_exact q d : 0 < d -> rnd_half_even (q * d) d = q.
Proof.
  intros Hd. unfold rnd_half_even.
  rewrite Z.div_mul, Z.mod_mul by lia.
  destruct (Z.ltb_spec (2 * 0) d); [reflexivity|lia].
Qed.

Lemma rnd_half_even_scale a d t :
  0 < d -> 0 < t -> rnd_half_even (a * t) (d * t) = rnd_half_even a d.
Proof.
  intros Hd Ht. unfold rnd_half_even.
  rewrite Z.div_mul_cancel_r, Z.mul_mod_distr_r by lia.
  set (q := a / d). set (r := a mod d).
  assert (E1 : (2 * (r * t) <? d * t) = (2 * r <? d)).
  { destruct (Z.ltb_spec (2 * r) d), (Z.ltb_spec (2 * (r * t)) (d * t)); auto; nia. }
  assert (E2 : (d * t <? 2 * (r * t)) = (d <? 2 * r)).
  { destruct (Z.ltb_spec d (2 * r)), (Z.ltb_spec (d * t) (2 * (r * t))); auto; nia. }
  rewrite E1, E2. reflexivity.
Qed.

Lemma round_div_opp c d : round_div (- c) d = - round_div c d.
Proof. unfold round_div. rewrite Z.sgn_opp, Z.abs_opp. lia. Qed.

Lemma round_div_nonneg c d : 0 < d -> 0 <= c -> round_div c d = rnd_half_even c d.
Proof.
  intros Hd Hc. unfold round_div. rewrite Z.abs_eq by lia.
  destruct (Z.eq_dec c 0) as [->|Hne].
  - change (0 = rnd_half_even (0 * d) d). now rewrite rnd_half_even_exact.
  - rewrite Z.sgn_pos by lia. lia.
Qed.

Lemma round_div_sign c d : 0 < d -> 0 <= c -> 0 <= round_div c d.
Proof.
  intros Hd Hc. rewrite round_div_nonneg by lia. now apply rnd_half_even_nonneg.
Qed.

Lemma round_div_mono c1 c2 d :
  0 < d -> c1 <= c2 -> round_div c1 d <= round_div c2 d.
Proof.
  intros Hd H.
  destruct (Z_le_gt_dec 0 c1) as [H1|H1].
  - rewrite !round_div_nonneg by lia. now apply rnd_half_even_mono.
  - destruct (Z_le_gt_dec 0 c2) as [H2|H2].
    + pose proof (round_div_sign c2 d Hd H2).
      pose proof (round_div_sign (- c1) d Hd ltac:(lia)) as H3.
      rewrite round_div_opp in H3. lia.
    + assert (E : round_div (- c2) d <= round_div (- c1) d).
      { rewrite !round_div_nonneg by lia. apply rnd_half_even_mono; lia. }
      rewrite !round_div_opp in E. lia.
Qed.

Lemma round_div_exact q d : 0 < d -> round_div (q * d) d = q.
Proof.
  intros Hd.
  destruct (Z_le_gt_dec 0 q) as [H|H].
  - rewrite round_div_nonneg by nia. now apply rnd_half_even_exact.
  - replace (q * d) with (- (- q * d)) by lia.
    rewrite round_div_opp, round_div_nonneg by nia.
    rewrite rnd_half_even_exact by lia. lia.
Qed.

Lemma round_div_1 c : round_div c 1 = c.
Proof. rewrite <- (Z.mul_1_r c) at 1. now apply round_div_exact. Qed.

Lemma round_div_scale c d t :
  0 < d -> 0 < t -> round_div (c * t) (d * t) = round_div c d.
Proof.
  intros Hd Ht.
  destruct (Z_le_gt_dec 0 c) as [H|H].
  - rewrite !round_div_nonneg by nia. now apply rnd_half_even_scale.
  - assert (E : round_div (- c * t) (d * t) = round_div (- c) d).
    { rewrite !round_div_nonneg by nia. now apply rnd_half_even_scale. }
    replace (- c * t) with (- (c * t)) in E by lia.
    rewrite !round_div_opp in E. lia.
Qed.

(** [round_div] is the nearest quotient, ties to even, on both signs. *)
Lemma round_div_spec c d :
  0 < d ->
  2 * Z.abs (round_div c d * d - c) <= d /\
  (2 * Z.abs (round_div c d * d - c) = d -> Z.even (round_div c d) = true).
Proof.
  intros Hd.
  destruct (Z_le_gt_dec 0 c) as [H|H].
  - rewrite round_div_nonneg by lia. now apply rnd_half_even_spec.
  - assert (E : round_div c d = - rnd_half_even (- c) d).
    { rewrite <- round_div_nonneg by lia. rewrite round_div_opp. lia. }
    rewrite E.
    destruct (rnd_half_even_spec (- c) d Hd) as [H1 H2].
    rewrite Z.even_opp. split; [lia|]. intros E'. apply H2. lia.
Qed.

(** *** Rounding to the context precision *)

Lemma prec_eq : prec = 28.
Proof. reflexivity. Qed.

Lemma ndigits_mul_pow c j :
  c <> 0 -> 0 <= j -> ndigits (c * 10 ^ j) = ndigits c + j.
Proof.
  intros Hc Hj. pose proof (ndigits_pos c) as Hp.
  pose proof (ndigits_spec c Hc) as [Hlo Hhi].
  pose proof (pow10_gt0 j Hj) as Hj'.
  apply ndigits_unique; [lia|].
  rewrite Z.abs_mul, (Z.abs_eq (10 ^ j)) by lia.
  replace (ndigits c + j - 1) with (ndigits c - 1 + j) by lia.
  rewrite !pow10_add by lia. split; nia.
Qed.

Lemma ndigits_mono x y : 0 <= x <= y -> ndigits x <= ndigits y.
Proof.
  intros [Hx Hxy]. pose proof (ndigits_pos y).
  destruct (Z.eq_dec x 0) as [->|Hne]; [rewrite ndigits_0; lia|].
  pose proof (ndigits_spec x Hne) as [Hlo _].
  pose proof (ndigits_spec y ltac:(lia)) as [_ Hhi].
  pose proof (ndigits_pos x).
  destruct (Z_lt_le_dec (ndigits y) (ndigits x)) as [Hlt|]; [|lia].
  pose proof (pow10_le (ndigits y) (ndigits x - 1)). lia.
Qed.

Lemma round_sig_small c j :
  ndigits c <= prec -> 0 <= j -> round_sig (c * 10 ^ j) = c * 10 ^ j.
Proof.
  pose proof prec_eq as Hprec.
  intros Hn Hj.
  destruct (Z.eq_dec c 0) as [->|Hc]; [reflexivity|].
  unfold round_sig. rewrite ndigits_mul_pow by assumption.
  destruct (Z.leb_spec (ndigits c + j) prec) as [|Hgt]; [reflexivity|].
  set (k := ndigits c + j - prec).
  assert (Hk : 0 < k <= j) by (unfold k; lia).
  replace (c * 10 ^ j) with (c * 10 ^ (j - k) * 10 ^ k) at 1.
  - rewrite round_div_exact by (apply pow10_gt0; lia).
    replace j with (j - k + k) at 2 by lia.
    rewrite pow10_add by lia. lia.
  - rewrite <- Z.mul_assoc, <- pow10_add by lia. do 2 f_equal. lia.
Qed.

Lemma round_sig_pow10 j : 0 <= j -> round_sig (10 ^ j) = 10 ^ j.
Proof.
  intros Hj. rewrite <- (Z.mul_1_l (10 ^ j)).
  apply round_sig_small; [vm_compute; discriminate|assumption].
Qed.

Lemma round_sig_opp x : round_sig (- x) = - round_sig x.
Proof.
  unfold round_sig. rewrite ndigits_opp.
  destruct (ndigits x <=? prec); [reflexivity|].
  rewrite round_div_opp. lia.
Qed.

Lemma round_sig_nonneg x : 0 <= x -> 0 <= round_sig x.
Proof.
  pose proof prec_eq as Hprec.
  intros Hx. unfold round_sig.
  destruct (Z.leb_spec (ndigits x) prec) as [|Hgt]; [assumption|].
  pose proof (pow10_gt0 (ndigits x - prec) ltac:(lia)) as Hp.
  pose proof (round_div_sign x _ Hp Hx). nia.
Qed.

(** Rounding at a quantum [10 ^ k]. *)
Lemma round_sig_as_quantum x :
  round_sig x =
  10 ^ Z.max 0 (ndigits x - prec) * round_div x (10 ^ Z.max 0 (ndigits x - prec)).
Proof.
  unfold round_sig.
  destruct (Z.leb_spec (ndigits x) prec) as [Hle|Hgt].
  - rewrite Z.max_l by lia. simpl. rewrite round_div_1. lia.
  - rewrite Z.max_r by lia. reflexivity.
Qed.

Lemma round_sig_mono_nonneg x y :
  0 <= x <= y -> round_sig x <= round_sig y.
Proof.
  pose proof prec_eq as Hprec.
  intros [Hx Hxy].
  destruct (Z.eq_dec y 0) as [->|Hy].
  { assert (x = 0) by lia. subst. lia. }
  pose proof (ndigits_mono x y ltac:(lia)) as Hn.
  pose proof (ndigits_pos x) as Hpx.
  rewrite (round_sig_as_quantum x), (round_sig_as_quantum y).
  set (kx := Z.max 0 (ndigits x - prec)).
  set (ky := Z.max 0 (ndigits y - prec)).
  assert (Hkx : 0 <= kx) by (unfold kx; lia).
  assert (Hky : 0 <= ky) by (unfold ky; lia).
  pose proof (pow10_gt0 kx Hkx) as Hpkx.
  pose proof (pow10_gt0 ky Hky) as Hpky.
  destruct (Z.eq_dec kx ky) as [E|NE].
  - rewrite E. pose proof (round_div_mono x y (10 ^ ky) Hpky Hxy). nia.
  - assert (Hlt : kx < ky) by (unfold kx, ky in *; lia).
    assert (Hny : prec < ndigits y) by (unfold ky in *; lia).
    assert (Hnxy : ndigits x < ndigits y) by (unfold kx, ky in *; lia).
    (* x <= 10 ^ ndigits x <= 10 ^ (ndigits y - 1) <= y *)
    assert (Hxu : x <= 10 ^ ndigits x).
    { destruct (Z.eq_dec x 0) as [->|Hx0].
      - pose proof (pow10_gt0 (ndigits 0) ltac:(pose proof (ndigits_pos 0); lia)). lia.
      - pose proof (ndigits_spec x Hx0). lia. }
    assert (Hyl : 10 ^ (ndigits y - 1) <= y).
    { pose proof (ndigits_spec y Hy). lia. }
    assert (H1 : round_div x (10 ^ kx) <= 10 ^ (ndigits x - kx)).
    { rewrite <- (round_div_exact (10 ^ (ndigits x - kx)) (10 ^ kx)) by assumption.
      apply round_div_mono; [assumption|].
      rewrite <- pow10_add by (unfold kx; lia).
      replace (ndigits x - kx + kx) with (ndigits x) by lia. assumption. }
    assert (H2 : 10 ^ (ndigits y - 1 - ky) <= round_div y (10 ^ ky)).
    { rewrite <- (round_div_exact (10 ^ (ndigits y - 1 - ky)) (10 ^ ky)) at 1 by assumption.
      apply round_div_mono; [assumption|].
      rewrite <- pow10_add by (unfold ky; lia).
      replace (ndigits y - 1 - ky + ky) with (ndigits y - 1) by lia. assumption. }
    assert (H3 : 10 ^ kx * 10 ^ (ndigits x - kx) = 10 ^ ndigits x).
    { rewrite <- pow10_add by (unfold kx; lia). f_equal. lia. }
    assert (H4 : 10 ^ ky * 10 ^ (ndigits y - 1 - ky) = 10 ^ (ndigits y - 1)).
    { rewrite <- pow10_add by (unfold ky; lia). f_equal. lia. }
    pose proof (pow10_le (ndigits x) (ndigits y - 1) ltac:(lia)) as H5.
    nia.
Qed.

Lemma round_sig_mono x y : x <= y -> round_sig x <= round_sig y.
Proof.
  intros Hxy.
  destruct (Z_le_gt_dec 0 x) as [Hx|Hx].
  - apply round_sig_mono_nonneg. lia.
  - destruct (Z_le_gt_dec 0 y) as [Hy|Hy].
    + pose proof (round_sig_nonneg y Hy).
      pose proof (round_sig_nonneg (- x) ltac:(lia)) as H1.
      rewrite round_sig_opp in H1. lia.
    + pose proof (round_sig_mono_nonneg (- y) (- x) ltac:(lia)) as H1.
      rewrite !round_sig_opp in H1. lia.
Qed.

Lemma round_sig_0 : round_sig 0 = 0.
Proof. reflexivity. Qed.

(** The carry of [dec_fix]: a rounded coefficient of [prec + 1] digits
    is [10 ^ prec], up to sign. *)
Lemma round_div_carry c :
  prec < ndigits c ->
  Z.abs (round_div c (10 ^ (ndigits c - prec))) <= 10 ^ prec.
Proof.
  pose proof prec_eq as Hprec.
  intros Hn. set (k := ndigits c - prec).
  assert (Hk : 0 < k) by (unfold k; lia).
  pose proof (pow10_gt0 k ltac:(lia)) as Hpk.
  assert (Hc : c <> 0). { intros ->. rewrite ndigits_0 in Hn. unfold prec in Hn. lia. }
  pose proof (ndigits_spec c Hc) as [_ Hhi].
  assert (E : 10 ^ ndigits c = 10 ^ prec * 10 ^ k).
  { rewrite <- pow10_add by (unfold prec; lia). f_equal. unfold k. lia. }
  assert (Hup : round_div (Z.abs c) (10 ^ k) <= 10 ^ prec).
  { rewrite <- (round_div_exact (10 ^ prec) (10 ^ k)) by assumption.
    apply round_div_mono; [assumption|]. lia. }
  pose proof (round_div_sign (Z.abs c) (10 ^ k) Hpk ltac:(lia)) as Hlo.
  destruct (Z_le_gt_dec 0 c) as [H|H].
  - rewrite Z.abs_eq in Hup, Hlo by lia. lia.
  - rewrite Z.abs_neq in Hup, Hlo by lia. rewrite round_div_opp in Hup, Hlo. lia.
Qed.

Lemma dec_fix_at_scale d m :
  m <= dexp d -> at_scale (dec_fix d) m = round_sig (at_scale d m).
Proof.
  pose proof prec_eq as Hprec.
  intros Hm. unfold at_scale, dec_fix.
  set (c := coef d). set (j := dexp d - m).
  assert (Hj : 0 <= j) by (unfold j; lia).
  destruct (Z.leb_spec (ndigits c) prec) as [Hle|Hgt].
  - fold c j. now rewrite round_sig_small.
  - assert (Hc : c <> 0). { intros E. rewrite E, ndigits_0 in Hgt. unfold prec in Hgt. lia. }
    set (k := ndigits c - prec).
    assert (Hk : 0 < k) by (unfold k; lia).
    pose proof (pow10_gt0 k ltac:(lia)) as Hpk.
    pose proof (pow10_gt0 j Hj) as Hpj.
    assert (Hrs : round_sig (c * 10 ^ j) = 10 ^ (k + j) * round_div c (10 ^ k)).
    { unfold round_sig. rewrite ndigits_mul_pow by assumption.
      destruct (Z.leb_spec (ndigits c + j) prec); [lia|].
      replace (ndigits c + j - prec) with (k + j) by (unfold k; lia).
      rewrite (pow10_add k j) by lia.
      rewrite (Z.mul_comm (10 ^ k) (10 ^ j)) at 2.
      rewrite (Z.mul_comm (10 ^ j) (10 ^ k)).
      now rewrite round_div_scale. }
    rewrite Hrs.
    pose proof (round_div_carry c Hgt) as Hcar. fold k in Hcar.
    set (c' := round_div c (10 ^ k)) in *.
    destruct (Z.ltb_spec prec (ndigits c')) as [Hcarry|Hno]; cbn [coef dexp].
    + assert (Habs : Z.abs c' = 10 ^ prec).
      { pose proof (ndigits_spec c' ltac:(intros E; rewrite E, ndigits_0 in Hcarry; unfold prec in Hcarry; lia)) as [Hlo _].
        pose proof (pow10_le prec (ndigits c' - 1) ltac:(unfold prec in *; lia)). lia. }
      assert (Hq : Z.quot c' 10 * 10 = c').
      { assert (Hc' : c' = 10 ^ prec \/ c' = - 10 ^ prec) by lia.
        destruct Hc' as [-> | ->]; reflexivity. }
      replace (dexp d + k + 1 - m) with (k + j + 1) by (unfold j; lia).
      rewrite pow10_succ by lia. rewrite <- Hq at 2. lia.
    + replace (dexp d + k - m) with (k + j) by (unfold j; lia). lia.
Qed.

(** *** The order of the values *)

Lemma at_scale_shift d m m' :
  m' <= m -> m <= dexp d -> at_scale d m' = at_scale d m * 10 ^ (m - m').
Proof.
  intros H1 H2. unfold at_scale.
  replace (dexp d - m') with (dexp d - m + (m - m')) by lia.
  rewrite pow10_add by lia. lia.
Qed.

Lemma dle_at a b m :
  m <= dexp a -> m <= dexp b ->
  (dle a b <-> at_scale a m <= at_scale b m).
Proof.
  intros Ha Hb. unfold dle. set (m0 := Z.min (dexp a) (dexp b)).
  rewrite (at_scale_shift a m0 m), (at_scale_shift b m0 m) by (unfold m0; lia).
  pose proof (pow10_gt0 (m0 - m) ltac:(unfold m0; lia)). split; nia.
Qed.

Lemma dlt_at a b m :
  m <= dexp a -> m <= dexp b ->
  (dlt a b <-> at_scale a m < at_scale b m).
Proof.
  intros Ha Hb. unfold dlt. set (m0 := Z.min (dexp a) (dexp b)).
  rewrite (at_scale_shift a m0 m), (at_scale_shift b m0 m) by (unfold m0; lia).
  pose proof (pow10_gt0 (m0 - m) ltac:(unfold m0; lia)). split; nia.
Qed.

Lemma dlt_dle a b : dlt a b -> dle a b.
Proof. unfold dlt, dle. lia. Qed.

Lemma dle_refl a : dle a a.
Proof. unfold dle. lia. Qed.

Lemma dle_trans a b c : dle a b -> dle b c -> dle a c.
Proof.
  set (m := Z.min (dexp a) (Z.min (dexp b) (dexp c))).
  rewrite (dle_at a b m), (dle_at b c m), (dle_at a c m) by (unfold m; lia). lia.
Qed.

Lemma dle_same_exp a b : dexp a = dexp b -> (dle a b <-> coef a <= coef b).
Proof.
  intros E. rewrite (dle_at a b (dexp a)) by lia. unfold at_scale.
  rewrite <- E, Z.sub_diag. simpl. lia.
Qed.

Lemma dexp_fix_ge d : dexp d <= dexp (dec_fix d).
Proof.
  unfold dec_fix. pose proof prec_eq.
  destruct (Z.leb_spec (ndigits (coef d)) prec); [lia|].
  destruct (prec <? _); cbn [dexp]; lia.
Qed.

Lemma dle_fix a b : dle a b -> dle (dec_fix a) (dec_fix b).
Proof.
  intros H. set (m := Z.min (dexp a) (dexp b)).
  pose proof (dexp_fix_ge a). pose proof (dexp_fix_ge b).
  apply dle_at with (m := m); [unfold m; lia..|].
  rewrite !dec_fix_at_scale by (unfold m; lia).
  apply round_sig_mono. apply (proj1 (dle_at a b m ltac:(unfold m; lia) ltac:(unfold m; lia))); assumption.
Qed.

Lemma dec_mul_comm a b : dec_mul a b = dec_mul b a.
Proof. unfold dec_mul. now rewrite Z.mul_comm, Z.add_comm. Qed.

Lemma at_scale_prod a b ma mb :
  ma <= dexp a -> mb <= dexp b ->
  at_scale (mkDec (coef a * coef b) (dexp a + dexp b)) (ma + mb)
  = at_scale a ma * at_scale b mb.
Proof.
  intros Ha Hb. unfold at_scale. cbn [coef dexp].
  replace (dexp a + dexp b - (ma + mb)) with (dexp a - ma + (dexp b - mb)) by lia.
  rewrite pow10_add by lia. lia.
Qed.

(** The value of a product, before and after rounding to the precision. *)
Lemma dec_mul_at_scale a b ma mb :
  ma <= dexp a -> mb <= dexp b ->
  at_scale (dec_mul a b) (ma + mb) = round_sig (at_scale a ma * at_scale b mb).
Proof.
  intros Ha Hb. unfold dec_mul.
  rewrite dec_fix_at_scale by (cbn [dexp]; lia).
  now rewrite at_scale_prod.
Qed.

Lemma dexp_mul_ge a b : dexp a + dexp b <= dexp (dec_mul a b).
Proof. unfold dec_mul. apply (dexp_fix_ge (mkDec _ _)). Qed.

Lemma dle_mul_l c a b :
  0 <= coef c -> dle a b -> dle (dec_mul c a) (dec_mul c b).
Proof.
  intros Hc H. set (m := Z.min (dexp a) (dexp b)).
  pose proof (dexp_mul_ge c a). pose proof (dexp_mul_ge c b).
  apply dle_at with (m := dexp c + m); [unfold m; lia..|].
  rewrite !dec_mul_at_scale by (unfold m; lia).
  apply round_sig_mono.
  pose proof (proj1 (dle_at a b m ltac:(unfold m; lia) ltac:(unfold m; lia)) H) as H'.
  unfold at_scale at 1 3. rewrite Z.sub_diag. simpl. nia.
Qed.

Lemma dle_mul_r c a b :
  0 <= coef c -> dle a b -> dle (dec_mul a c) (dec_mul b c).
Proof. intros. rewrite !(dec_mul_comm _ c). now apply dle_mul_l. Qed.

Lemma dexp_sub_ge a b : Z.min (dexp a) (dexp b) <= dexp (dec_sub a b).
Proof. unfold dec_sub. apply (dexp_fix_ge (mkDec _ _)). Qed.

Lemma dec_sub_at_scale a b m :
  m <= dexp a -> m <= dexp b ->
  at_scale (dec_sub a b) m = round_sig (at_scale a m - at_scale b m).
Proof.
  intros Ha Hb. unfold dec_sub. set (m0 := Z.min (dexp a) (dexp b)).
  rewrite dec_fix_at_scale by (cbn [dexp]; unfold m0; lia).
  f_equal. unfold at_scale at 1. cbn [coef dexp].
  rewrite (at_scale_shift a m0 m), (at_scale_shift b m0 m) by (unfold m0; lia). lia.
Qed.

Lemma dle_sub_l a b c : dle a b -> dle (dec_sub a c) (dec_sub b c).
Proof.
  intros H. set (m := Z.min (dexp a) (Z.min (dexp b) (dexp c))).
  pose proof (dexp_sub_ge a c). pose proof (dexp_sub_ge b c).
  apply dle_at with (m := m); [unfold m; lia..|].
  rewrite !dec_sub_at_scale by (unfold m; lia).
  apply round_sig_mono.
  pose proof (proj1 (dle_at a b m ltac:(unfold m; lia) ltac:(unfold m; lia)) H) as H'. lia.
Qed.

Lemma dle_sub_r a b c : dle a b -> dle (dec_sub c b) (dec_sub c a).
Proof.
  intros H. set (m := Z.min (dexp a) (Z.min (dexp b) (dexp c))).
  pose proof (dexp_sub_ge c a). pose proof (dexp_sub_ge c b).
  apply dle_at with (m := m); [unfold m; lia..|].
  rewrite !dec_sub_at_scale by (unfold m; lia).
  apply round_sig_mono.
  pose proof (proj1 (dle_at a b m ltac:(unfold m; lia) ltac:(unfold m; lia)) H) as H'. lia.
Qed.

(** *** Rescaling and quantize *)

Lemma rescale_at d e m :
  m <= dexp d -> m <= e ->
  coef (rescale d e) = round_div (at_scale d m) (10 ^ (e - m)).
Proof.
  intros Hd He. unfold rescale, at_scale.
  destruct (Z.leb_spec e (dexp d)) as [Hle|Hgt]; cbn [coef].
  - replace (dexp d - m) with (dexp d - e + (e - m)) by lia.
    rewrite pow10_add, Z.mul_assoc by lia.
    now rewrite round_div_exact by (apply pow10_gt0; lia).
  - replace (e - m) with (e - dexp d + (dexp d - m)) by lia.
    rewrite pow10_add by lia.
    now rewrite round_div_scale by (apply pow10_gt0; lia).
Qed.

Lemma dexp_rescale d e : dexp (rescale d e) = e.
Proof. unfold rescale. now destruct (e <=? dexp d). Qed.

Lemma rescale_mono a b e : dle a b -> coef (rescale a e) <= coef (rescale b e).
Proof.
  intros H. set (m := Z.min e (Z.min (dexp a) (dexp b))).
  rewrite (rescale_at a e m), (rescale_at b e m) by (unfold m; lia).
  apply round_div_mono; [apply pow10_gt0; unfold m; lia|].
  apply (proj1 (dle_at a b m ltac:(unfold m; lia) ltac:(unfold m; lia))); assumption.
Qed.

Lemma quantize_Ok d q r : quantize d q = Ok r -> r = rescale d (dexp q).
Proof.
  unfold quantize. destruct (Z.eqb_spec (coef d) 0) as [E|NE].
  - intros [= <-]. unfold rescale. rewrite E.
    destruct (dexp q <=? dexp d); [reflexivity|].
    f_equal.
  - destruct (prec <? adjusted d - dexp q + 1); [discriminate|].
    destruct (prec <? ndigits _); [discriminate|]. now intros [= <-].
Qed.

Lemma quantize_dexp d q r : quantize d q = Ok r -> dexp r = dexp q.
Proof. intros H. apply quantize_Ok in H. subst. apply dexp_rescale. Qed.

Lemma quantize_mono a b q ra rb :
  dle a b -> quantize a q = Ok ra -> quantize b q = Ok rb -> coef ra <= coef rb.
Proof.
  intros H Ha Hb. apply quantize_Ok in Ha, Hb. subst. now apply rescale_mono.
Qed.

(** *** Magnitudes *)

Lemma mag_le_at d k m :
  m <= dexp d -> m <= k ->
  (mag_le d k <-> Z.abs (at_scale d m) <= 10 ^ (k - m)).
Proof.
  intros Hd Hk. unfold mag_le.
  rewrite (dle_at d (mkDec 1 k) m), (dle_at (mkDec (-1) k) d m) by (cbn [dexp]; lia).
  unfold at_scale at 2 3. cbn [coef dexp]. lia.
Qed.

Lemma round_sig_abs_le x j :
  0 <= j -> Z.abs x <= 10 ^ j -> Z.abs (round_sig x) <= 10 ^ j.
Proof.
  intros Hj Hx.
  pose proof (round_sig_mono x (10 ^ j) ltac:(lia)) as H1.
  pose proof (round_sig_mono (- 10 ^ j) x ltac:(lia)) as H2.
  rewrite round_sig_opp in H2. rewrite round_sig_pow10 in H1, H2 by assumption. lia.
Qed.

Lemma mag_fix d k : mag_le d k -> mag_le (dec_fix d) k.
Proof.
  intros H. set (m := Z.min (dexp d) k).
  pose proof (dexp_fix_ge d).
  apply mag_le_at with (m := m); [unfold m; lia..|].
  rewrite dec_fix_at_scale by (unfold m; lia).
  apply round_sig_abs_le; [unfold m; lia|].
  apply mag_le_at; [unfold m; lia..|assumption].
Qed.

Lemma mag_mono d k k' : k <= k' -> mag_le d k -> mag_le d k'.
Proof.
  intros Hk H. set (m := Z.min (dexp d) k).
  apply mag_le_at with (m := m); [unfold m; lia..|].
  pose proof (proj1 (mag_le_at d k m ltac:(unfold m; lia) ltac:(unfold m; lia)) H).
  pose proof (pow10_le (k - m) (k' - m) ltac:(unfold m; lia)). lia.
Qed.

Lemma mag_mul a b ka kb :
  mag_le a ka -> mag_le b kb -> mag_le (dec_mul a b) (ka + kb).
Proof.
  intros Ha Hb.
  set (ma := Z.min (dexp a) ka). set (mb := Z.min (dexp b) kb).
  pose proof (dexp_mul_ge a b).
  apply mag_le_at with (m := ma + mb); [unfold ma, mb; lia..|].
  rewrite dec_mul_at_scale by (unfold ma, mb; lia).
  pose proof (proj1 (mag_le_at a ka ma ltac:(unfold ma; lia) ltac:(unfold ma; lia)) Ha) as Ha'.
  pose proof (proj1 (mag_le_at b kb mb ltac:(unfold mb; lia) ltac:(unfold mb; lia)) Hb) as Hb'.
  apply round_sig_abs_le; [unfold ma, mb; lia|].
  replace (ka + kb - (ma + mb)) with (ka - ma + (kb - mb)) by lia.
  rewrite pow10_add by (unfold ma, mb; lia). rewrite Z.abs_mul.
  apply Z.mul_le_mono_nonneg; lia.
Qed.

Lemma mag_sub a b k :
  mag_le a k -> mag_le b k -> mag_le (dec_sub a b) (k + 1).
Proof.
  intros Ha Hb.
  set (m := Z.min (Z.min (dexp a) (dexp b)) k).
  pose proof (dexp_sub_ge a b).
  apply mag_le_at with (m := m); [unfold m; lia..|].
  rewrite dec_sub_at_scale by (unfold m; lia).
  pose proof (proj1 (mag_le_at a k m ltac:(unfold m; lia) ltac:(unfold m; lia)) Ha) as Ha'.
  pose proof (proj1 (mag_le_at b k m ltac:(unfold m; lia) ltac:(unfold m; lia)) Hb) as Hb'.
  apply round_sig_abs_le; [unfold m; lia|].
  replace (k + 1 - m) with (k - m + 1) by lia.
  rewrite pow10_succ by (unfold m; lia). lia.
Qed.

Lemma mag_of_int n k : 0 <= k -> Z.abs n <= 10 ^ k -> mag_le (of_int n) k.
Proof.
  intros Hk Hn. apply mag_le_at with (m := 0); [cbn; lia..|].
  unfold at_scale, of_int. cbn [coef dexp]. rewrite !Z.sub_0_r. simpl (10 ^ 0). lia.
Qed.

Lemma mag_adjusted d k : mag_le d k -> coef d <> 0 -> adjusted d <= k.
Proof.
  intros H Hc. unfold adjusted.
  pose proof (ndigits_spec (coef d) Hc) as [Hlo _].
  pose proof (ndigits_pos (coef d)) as Hp.
  set (m := Z.min (dexp d) k).
  pose proof (proj1 (mag_le_at d k m ltac:(unfold m; lia) ltac:(unfold m; lia)) H) as H'.
  unfold at_scale in H'. rewrite Z.abs_mul in H'.
  rewrite (Z.abs_eq (10 ^ _)) in H' by (apply Z.lt_le_incl, pow10_gt0; unfold m; lia).
  destruct (Z_lt_le_dec k (dexp d + ndigits (coef d) - 1)) as [Hgt|]; [exfalso|lia].
  (* 10^(k-m) < 10^(nd-1) * 10^(dexp-m) <= |c| * 10^(dexp-m) *)
  pose proof (pow10_lt (k - m) (ndigits (coef d) - 1 + (dexp d - m)) ltac:(unfold m; lia)) as Hlt.
  rewrite pow10_add in Hlt by (unfold m; lia).
  pose proof (pow10_gt0 (dexp d - m) ltac:(unfold m; lia)). nia.
Qed.

Lemma quantize_succeeds d q k :
  mag_le d k -> dexp q <= k -> k - dexp q + 1 <= prec ->
  exists r, quantize d q = Ok r.
Proof.
  intros H Hq Hk. pose proof prec_eq as Hprec. unfold quantize.
  destruct (Z.eqb_spec (coef d) 0) as [|Hc]; [eauto|].
  pose proof (mag_adjusted d k H Hc) as Hadj.
  destruct (Z.ltb_spec prec (adjusted d - dexp q + 1)) as [|_]; [lia|].
  destruct (Z.ltb_spec prec (ndigits (coef (rescale d (dexp q))))) as [Hbad|]; [exfalso|eauto].
  set (e := dexp q) in *. set (m := Z.min (dexp d) e).
  rewrite (rescale_at d e m) in Hbad by (unfold m; lia).
  pose proof (proj1 (mag_le_at d k m ltac:(unfold m; lia) ltac:(unfold m; lia)) H) as H'.
  pose proof (pow10_gt0 (e - m) ltac:(unfold m; lia)) as Hp.
  assert (E : 10 ^ (k - m) = 10 ^ (k - e) * 10 ^ (e - m)).
  { rewrite <- pow10_add by (unfold m; lia). f_equal. lia. }
  pose proof (round_div_mono (at_scale d m) (10 ^ (k - m)) (10 ^ (e - m)) Hp ltac:(lia)) as H1.
  pose proof (round_div_mono (- 10 ^ (k - m)) (at_scale d m) (10 ^ (e - m)) Hp ltac:(lia)) as H2.
  rewrite round_div_opp in H2. rewrite E, round_div_exact in H1, H2 by assumption.
  set (x := round_div (at_scale d m) (10 ^ (e - m))) in *.
  destruct (Z.eq_dec x 0) as [E0|NE0]; [rewrite E0, ndigits_0 in Hbad; lia|].
  pose proof (ndigits_spec x NE0) as [Hlo _].
  pose proof (pow10_lt (k - e) (ndigits x - 1) ltac:(lia)). lia.
Qed.

(** *** Division by a hundred *)

Lemma strip_zeros_spec fuel c e ideal :
  e <= snd (strip_zeros fuel c e ideal) /\
  fst (strip_zeros fuel c e ideal) * 10 ^ (snd (strip_zeros fuel c e ideal) - e) = c.
Proof.
  revert c e. induction fuel as [|f IH]; intros c e; cbn [strip_zeros].
  - cbn [fst snd]. rewrite Z.sub_diag. simpl. lia.
  - destruct ((e <? ideal) && (c mod 10 =? 0)) eqn:Hb.
    + apply andb_true_iff in Hb as [_ Hmod]. apply Z.eqb_eq in Hmod.
      destruct (IH (c / 10) (e + 1)) as [H1 H2].
      set (r := strip_zeros f (c / 10) (e + 1) ideal) in *.
      split; [lia|].
      replace (snd r - e) with (snd r - (e + 1) + 1) by lia.
      rewrite pow10_succ by lia.
      pose proof (Z.div_mod c 10 ltac:(lia)). nia.
    + cbn [fst snd]. rewrite Z.sub_diag. simpl. lia.
Qed.

Lemma mag_zero e k : mag_le (mkDec 0 e) k.
Proof.
  apply mag_le_at with (m := Z.min e k); [cbn [dexp]; lia..|].
  unfold at_scale. cbn [coef]. simpl.
  pose proof (pow10_gt0 (k - Z.min e k) ltac:(lia)). lia.
Qed.

(** Dividing by [Decimal("100")] never raises and takes two from the
    magnitude, whatever the number of digits of the dividend. *)
Lemma dec_div_100_mag a k :
  mag_le a k ->
  exists r, dec_div a (mkDec 100 0) = Ok r /\ mag_le r (k - 2).
Proof.
  intros Hmag. pose proof prec_eq as Hprec. unfold dec_div. cbn [coef dexp].
  change (100 =? 0) with false. cbv iota.
  destruct (Z.eqb_spec (coef a) 0) as [Hz|Hc].
  { eexists. split; [reflexivity|]. apply mag_fix, mag_zero. }
  change (ndigits 100) with 3. change (Z.abs 100) with 100.
  change (Z.sgn 100) with 1.
  pose proof (mag_adjusted a k Hmag Hc) as Hadj. unfold adjusted in Hadj.
  pose proof (ndigits_pos (coef a)) as HL.
  set (L := ndigits (coef a)) in *.
  set (shift := 3 - L + prec + 1).
  set (e0 := dexp a - 0 - shift).
  set (B := 10 ^ (k - 2 - e0)).
  assert (HB0 : 0 <= k - 2 - e0) by (unfold e0, shift; lia).
  assert (HBpos : 0 < B) by (apply pow10_gt0; assumption).
  match goal with |- exists r, Ok (dec_fix (mkDec (_ * fst ?x) _)) = _ /\ _ =>
    set (ce := x) end.
  assert (Hce : e0 <= snd ce /\ 0 <= fst ce * 10 ^ (snd ce - e0) <= B).
  { destruct (Z.leb_spec 0 shift) as [Hs|Hs].
    - (* the dividend is shifted up *)
      pose proof (proj1 (mag_le_at a k e0 ltac:(unfold e0; lia) ltac:(lia)) Hmag) as Ha.
      unfold at_scale in Ha. rewrite Z.abs_mul in Ha.
      replace (dexp a - e0) with shift in Ha by (unfold e0; lia).
      rewrite (Z.abs_eq (10 ^ shift)) in Ha by (apply Z.lt_le_incl, pow10_gt0; lia).
      assert (E : 10 ^ (k - e0) = 100 * B).
      { unfold B. replace (k - e0) with (2 + (k - 2 - e0)) by lia.
        rewrite pow10_add by lia. reflexivity. }
      rewrite E in Ha.
      set (n := Z.abs (coef a) * 10 ^ shift) in *.
      assert (Hn : 0 <= n).
      { unfold n. pose proof (pow10_gt0 shift Hs). nia. }
      pose proof (Z.div_mod n 100 ltac:(lia)) as Hdm.
      pose proof (Z.mod_pos_bound n 100 ltac:(lia)) as Hr.
      pose proof (Z.div_pos n 100 Hn ltac:(lia)) as Hq.
      unfold ce. destruct (Z.leb_spec 0 shift) as [_|]; [|lia]. fold n.
      destruct (Z.eqb_spec (n mod 100) 0) as [Hr0|Hr0].
      + destruct (strip_zeros_spec (Z.to_nat (dexp a - 0 - e0)) (n / 100) e0 (dexp a - 0))
          as [H1 H2].
        split; [exact H1|]. rewrite H2. lia.
      + cbn [fst snd]. rewrite Z.sub_diag. simpl (10 ^ 0).
        destruct (n / 100 mod 5 =? 0); lia.
    - (* the divisor is shifted up *)
      assert (Hek : dexp a <= k) by lia.
      pose proof (proj1 (mag_le_at a k (dexp a) ltac:(lia) Hek) Hmag) as Ha.
      unfold at_scale in Ha. rewrite Z.sub_diag in Ha. simpl (10 ^ 0) in Ha.
      rewrite Z.mul_1_r in Ha.
      set (D := 100 * 10 ^ (- shift)) in *.
      assert (HD : 0 < D).
      { unfold D. pose proof (pow10_gt0 (- shift) ltac:(lia)). lia. }
      assert (E : 10 ^ (k - dexp a) = B * D).
      { unfold B, D. change 100 with (10 ^ 2).
        rewrite <- !pow10_add by lia. f_equal. unfold e0. lia. }
      rewrite E in Ha.
      set (n := Z.abs (coef a)) in *.
      pose proof (Z.div_mod n D ltac:(lia)) as Hdm.
      pose proof (Z.mod_pos_bound n D HD) as Hr.
      pose proof (Z.div_pos n D ltac:(unfold n; lia) HD) as Hq.
      assert (Hfuel : Z.to_nat (dexp a - 0 - e0) = O) by (unfold e0; lia).
      unfold ce. destruct (Z.leb_spec 0 shift) as [|_]; [lia|]. fold n D.
      rewrite Hfuel. cbn [strip_zeros].
      destruct (Z.eqb_spec (n mod D) 0) as [Hr0|Hr0].
      + cbn [fst snd]. rewrite Z.sub_diag. simpl (10 ^ 0). nia.
      + cbn [fst snd]. rewrite Z.sub_diag. simpl (10 ^ 0).
        destruct (n / D mod 5 =? 0); nia. }
  destruct Hce as [He [HQ0 HQ]].
  eexists. split; [reflexivity|].
  apply mag_fix. apply mag_le_at with (m := e0); [cbn [dexp]; lia..|].
  unfold at_scale. cbn [coef dexp]. fold B.
  rewrite Z.mul_1_r, <- Z.mul_assoc, Z.abs_mul.
  pose proof (Z.sgn_spec (coef a)) as Hs.
  destruct Hs as [[_ ->]|[[_ ->]|[_ ->]]]; simpl (Z.abs _); lia.
Qed.

(** ** The calculation engine *)


Lemma ndigits_fix_le d : ndigits (coef (dec_fix d)) <= prec.
Proof.
  pose proof prec_eq as Hprec. unfold dec_fix.
  destruct (Z.leb_spec (ndigits (coef d)) prec) as [Hle|Hgt]; [assumption|].
  pose proof (round_div_carry (coef d) Hgt) as Hcar.
  set (c := round_div _ _) in *.
  destruct (Z.ltb_spec prec (ndigits c)) as [Hc|Hc]; cbn [coef]; [|assumption].
  assert (Hnz : c <> 0) by (intros E; rewrite E, ndigits_0 in Hc; lia).
  pose proof (ndigits_spec c Hnz) as [Hlo _].
  pose proof (pow10_le prec (ndigits c - 1) ltac:(lia)).
  assert (Habs : Z.abs c = 10 ^ prec) by lia.
  assert (Hc' : c = 10 ^ prec \/ c = - 10 ^ prec) by lia.
  destruct Hc' as [-> | ->]; rewrite Hprec; vm_compute; discriminate.
Qed.

Lemma to_int_exp0 c : to_int (mkDec c 0) = c.
Proof. unfold to_int. cbn. lia. Qed.

(** The wastage in closed form: the product rounded to the precision,
    then to an integer. *)
Lemma round_waste_closed n w :
  _round_waste_to_nearest_integer_half_even n = Ok w ->
  w = round_div (round_sig (n * 22)) 1000.
Proof.
  unfold _round_waste_to_nearest_integer_half_even.
  destruct (quantize _ d_1) as [q|] eqn:Hq; [|discriminate].
  cbn. intros [= <-]. apply quantize_Ok in Hq. subst q.
  change (dexp d_1) with 0.
  pose proof (dexp_mul_ge (of_int n) d_0_022) as He. cbn [of_int d_0_022 dexp] in He.
  pose proof (rescale_at (dec_mul (of_int n) d_0_022) 0 (0 + -3) ltac:(cbn [of_int d_0_022 dexp]; lia) ltac:(lia)) as Hr.
  rewrite dec_mul_at_scale in Hr by (cbn; lia).
  unfold at_scale in Hr. cbn [of_int d_0_022 coef dexp] in Hr.
  change (10 ^ (0 - 0)) with 1 in Hr. change (10 ^ (-3 - -3)) with 1 in Hr.
  change (10 ^ (0 - (0 + -3))) with 1000 in Hr.
  rewrite !Z.mul_1_r in Hr. rewrite <- Hr.
  unfold to_int. rewrite dexp_rescale. cbn. lia.
Qed.

Lemma round_waste_bounds n w :
  1 <= n ->
  _round_waste_to_nearest_integer_half_even n = Ok w ->
  0 <= w < n.
Proof.
  intros Hn Hw. apply round_waste_closed in Hw. subst w. split.
  - apply round_div_sign; [lia|]. apply round_sig_nonneg. lia.
  - pose proof prec_eq as Hprec.
    destruct (Z_lt_le_dec n 100) as [Hsmall|Hbig].
    + (* no rounding to the precision below a hundred *)
      assert (Hrs : round_sig (n * 22) = n * 22).
      { rewrite <- (Z.mul_1_r (n * 22)). change 1 with (10 ^ 0) at 1.
        apply round_sig_small; [|lia].
        apply ndigits_lt_pow; [lia| |lia]. rewrite Z.abs_eq by lia.
        change (10 ^ prec) with (10 ^ 28). lia. }
      rewrite Hrs, round_div_nonneg by lia.
      pose proof (rnd_half_even_bounds (n * 22) 1000 ltac:(lia)) as Hb.
      destruct (Z.eq_dec n 1) as [->|]; [vm_compute; reflexivity|].
      assert (n * 22 / 1000 < n - 1).
      { apply Z.div_lt_upper_bound; lia. }
      lia.
    + (* n has k >= 3 digits: waste <= 22 * 10^(k-3) < 10^(k-1) <= n *)
      set (k := ndigits n).
      pose proof (ndigits_spec n ltac:(lia)) as [Hlo Hhi]. fold k in Hlo, Hhi.
      rewrite Z.abs_eq in Hlo, Hhi by lia.
      assert (Hk : 3 <= k).
      { apply (ndigits_ge_pow n 2); [lia|]. rewrite Z.abs_eq by lia. simpl. lia. }
      assert (Hup : round_sig (n * 22) <= 22 * 10 ^ k).
      { rewrite <- (round_sig_small 22 k) by (first [lia | vm_compute; discriminate]).
        apply round_sig_mono. lia. }
      assert (E : 22 * 10 ^ k = 22 * 10 ^ (k - 3) * 1000).
      { replace k with (k - 3 + 3) at 1 by lia. rewrite pow10_add by lia.
        change (10 ^ 3) with 1000. lia. }
      pose proof (round_div_mono _ _ 1000 ltac:(lia) Hup) as Hm.
      rewrite E, round_div_exact in Hm by lia.
      assert (E2 : 10 ^ (k - 1) = 100 * 10 ^ (k - 3)).
      { replace (k - 1) with (2 + (k - 3)) by lia. rewrite pow10_add by lia. reflexivity. }
      pose proof (pow10_gt0 (k - 3) ltac:(lia)). lia.
Qed.

Lemma round_waste_exact n :
  0 < n -> 22 * n < 10 ^ 28 ->
  _round_waste_to_nearest_integer_half_even n = Ok (round_div (22 * n) 1000).
Proof.
  intros Hn Hb. pose proof prec_eq as Hprec.
  unfold _round_waste_to_nearest_integer_half_even.
  assert (Hnd : ndigits (n * 22) <= prec).
  { apply ndigits_lt_pow; [lia| |lia]. rewrite Z.abs_eq by lia.
    change (10 ^ prec) with (10 ^ 28). lia. }
  assert (Hmul : dec_mul (of_int n) d_0_022 = mkDec (n * 22) (-3)).
  { unfold dec_mul, dec_fix. cbn [of_int d_0_022 coef dexp].
    destruct (Z.leb_spec (ndigits (n * 22)) prec); [reflexivity|lia]. }
  rewrite Hmul. unfold quantize. cbn [coef dexp d_1].
  destruct (Z.eqb_spec (n * 22) 0); [lia|].
  unfold adjusted. cbn [coef dexp].
  destruct (Z.ltb_spec prec (-3 + ndigits (n * 22) - 1 - 0 + 1)); [lia|].
  unfold rescale. cbn [coef dexp]. change (0 <=? -3) with false. cbv iota.
  change (10 ^ (0 - -3)) with 1000. cbn [coef].
  set (w := round_div (n * 22) 1000).
  assert (Hw : 0 <= w <= 10 ^ 25).
  { split; [apply round_div_sign; lia|].
    unfold w. change (10 ^ 25) with (round_div (10 ^ 25 * 1000) 1000).
    apply round_div_mono; lia. }
  assert (Hwd : ndigits w <= prec).
  { destruct (Z.eq_dec w 0) as [->|]; [rewrite ndigits_0; lia|].
    apply ndigits_lt_pow; [lia| |assumption]. rewrite Z.abs_eq by lia.
    change (10 ^ prec) with (10 ^ 28). lia. }
  destruct (Z.ltb_spec prec (ndigits w)); [lia|].
  change (Ok (to_int (mkDec w 0)) = Ok (round_div (22 * n) 1000)).
  rewrite to_int_exp0. unfold w. now rewrite (Z.mul_comm 22 n).
Qed.

(** Inversion of the exception-passing bind. *)
Lemma bind_Ok {A B} (m : result A) (f : A -> result B) b :
  mbind f m = Ok b -> exists a, m = Ok a /\ f a = Ok b.
Proof. destruct m as [a|e]; [exists a; split; [reflexivity|assumption]|discriminate]. Qed.

Lemma bind_Raise {A B} (m : result A) (f : A -> result B) e :
  mbind f m = Raise e -> m = Raise e \/ exists a, m = Ok a /\ f a = Raise e.
Proof.
  destruct m as [a|e0]; [right; exists a; split; [reflexivity|assumption]|].
  intros [= <-]. now left.
Qed.

Lemma bind_of_Ok {A B} (m : result A) (f : A -> result B) a :
  m = Ok a -> mbind f m = f a.
Proof. now intros ->. Qed.


(** What a returned result is made of. *)
Lemma calculate_Ok i r :
  calculate i = Ok r ->
  let n := CalculationInput.total_nuts i in
  let p := CalculationInput.price_each_rupees i in
  ~ invalid_input i /\
  exists w rate,
    _round_waste_to_nearest_integer_half_even n = Ok w /\
    dec_div (CalculationInput.labor_percent i) d_100 = Ok rate /\
    let gross := dec_mul (of_int (n - w)) p in
    let tax := dec_mul gross d_0_01 in
    let labor := dec_mul (of_int n) rate in
    let final := dec_sub (dec_sub gross tax) labor in
    _quantize_money gross = Ok (CalculationResult.gross_amount r) /\
    _quantize_money tax = Ok (CalculationResult.tax_amount r) /\
    _quantize_money labor = Ok (CalculationResult.labor_charges r) /\
    _quantize_money final = Ok (CalculationResult.final_amount r) /\
    _quantize_money p = Ok (CalculationResult.price_each_rupees r) /\
    CalculationResult.waste_nuts r = w /\
    CalculationResult.remaining_nuts r = n - w /\
    CalculationResult.total_nuts r = n /\
    CalculationResult.invoice_no r = CalculationInput.invoice_no i /\
    CalculationResult.client_no r = CalculationInput.client_no i /\
    CalculationResult.client_name r = CalculationInput.client_name i /\
    CalculationResult.date r = CalculationInput.date i /\
    CalculationResult.labor_percent r = CalculationInput.labor_percent i.
Proof.
  unfold calculate, invalid_input. intros H. cbv zeta.
  destruct (Z.leb_spec (CalculationInput.total_nuts i) 0) as [|Hn]; [discriminate|].
  destruct (Z.leb_spec (coef (CalculationInput.price_each_rupees i)) 0) as [|Hp];
    [discriminate|].
  destruct (String.eqb_spec (CalculationInput.invoice_no i) EmptyString) as [|Hinv];
    [discriminate|].
  destruct (Z.ltb_spec (CalculationInput.client_no i) 0) as [|Hc]; [discriminate|].
  split; [intros [?|[?|[?|?]]]; solve [lia | contradiction]|].
  apply bind_Ok in H as (w & Hw & H). cbv beta zeta in H.
  apply bind_Ok in H as (rate & Hrate & H). cbv beta zeta in H.
  apply bind_Ok in H as (g & Hg & H). cbv beta in H.
  apply bind_Ok in H as (t & Ht & H). cbv beta in H.
  apply bind_Ok in H as (l & Hl & H). cbv beta in H.
  apply bind_Ok in H as (f & Hf & H). cbv beta in H.
  apply bind_Ok in H as (pq & Hpq & H). cbv beta in H.
  injection H as <-. exists w, rate.
  cbn [CalculationResult.gross_amount CalculationResult.tax_amount
       CalculationResult.labor_charges CalculationResult.final_amount
       CalculationResult.price_each_rupees CalculationResult.waste_nuts
       CalculationResult.remaining_nuts CalculationResult.total_nuts
       CalculationResult.invoice_no CalculationResult.client_no
       CalculationResult.client_name CalculationResult.date
       CalculationResult.labor_percent].
  repeat split; assumption.
Qed.

(** The other way round: the pieces give the result. *)
Lemma calculate_from_parts i w rate g t l f pq :
  ~ invalid_input i ->
  let n := CalculationInput.total_nuts i in
  let p := CalculationInput.price_each_rupees i in
  _round_waste_to_nearest_integer_half_even n = Ok w ->
  dec_div (CalculationInput.labor_percent i) d_100 = Ok rate ->
  let gross := dec_mul (of_int (n - w)) p in
  let tax := dec_mul gross d_0_01 in
  let labor := dec_mul (of_int n) rate in
  let final := dec_sub (dec_sub gross tax) labor in
  _quantize_money gross = Ok g ->
  _quantize_money tax = Ok t ->
  _quantize_money labor = Ok l ->
  _quantize_money final = Ok f ->
  _quantize_money p = Ok pq ->
  calculate i =
  Ok (CalculationResult.mk
        (CalculationInput.invoice_no i) (CalculationInput.client_no i)
        (CalculationInput.client_name i) (CalculationInput.date i)
        n pq (CalculationInput.labor_percent i) w (n - w) g t l f).
Proof.
  intros Hv n p Hw Hrate gross tax labor final Hg Ht Hl Hf Hpq.
  unfold invalid_input in Hv. unfold calculate. cbv zeta. fold n p.
  destruct (Z.leb_spec n 0); [tauto|].
  destruct (Z.leb_spec (coef p) 0); [tauto|].
  destruct (String.eqb_spec (CalculationInput.invoice_no i) EmptyString); [tauto|].
  destruct (Z.ltb_spec (CalculationInput.client_no i) 0); [tauto|].
  rewrite (bind_of_Ok _ _ _ Hw). cbv beta.
  rewrite (bind_of_Ok _ _ _ Hrate). cbv beta.
  rewrite (bind_of_Ok _ _ _ Hg). cbv beta.
  rewrite (bind_of_Ok _ _ _ Ht). cbv beta.
  rewrite (bind_of_Ok _ _ _ Hl). cbv beta.
  rewrite (bind_of_Ok _ _ _ Hf). cbv beta.
  rewrite (bind_of_Ok _ _ _ Hpq). reflexivity.
Qed.

Lemma quantize_raise d q e : quantize d q = Raise e -> e = InvalidOperation.
Proof.
  unfold quantize. destruct (coef d =? 0); [discriminate|].
  destruct (prec <? _); [now intros [= <-]|].
  destruct (prec <? _); [now intros [= <-]|discriminate].
Qed.

Lemma round_waste_raise n e :
  _round_waste_to_nearest_integer_half_even n = Raise e -> e = InvalidOperation.
Proof.
  unfold _round_waste_to_nearest_integer_half_even. intros H.
  apply bind_Raise in H as [H|(a & _ & H)]; [|discriminate].
  exact (quantize_raise _ _ _ H).
Qed.

Lemma quantize_money_raise d e : _quantize_money d = Raise e -> e = InvalidOperation.
Proof. apply quantize_raise. Qed.

Lemma dec_div_100_Ok d : exists rate, dec_div d d_100 = Ok rate.
Proof.
  unfold dec_div. cbn [coef d_100]. change (100 =? 0) with false. cbv iota.
  destruct (coef d =? 0); eauto.
Qed.

(** Past the four checks the only exception is the one of [quantize]. *)
Lemma calculate_Raise i e :
  calculate i = Raise e ->
  (invalid_input i /\ exists msg, e = ValueError msg)
  \/ (~ invalid_input i /\ e = InvalidOperation).
Proof.
  unfold calculate, invalid_input. intros H. cbv zeta in H.
  destruct (Z.leb_spec (CalculationInput.total_nuts i) 0) as [|Hn].
  { left. split; [tauto|]. injection H as <-. eauto. }
  destruct (Z.leb_spec (coef (CalculationInput.price_each_rupees i)) 0) as [|Hp].
  { left. split; [tauto|]. injection H as <-. eauto. }
  destruct (String.eqb_spec (CalculationInput.invoice_no i) EmptyString) as [|Hinv].
  { left. split; [tauto|]. injection H as <-. eauto. }
  destruct (Z.ltb_spec (CalculationInput.client_no i) 0) as [|Hc].
  { left. split; [tauto|]. injection H as <-. eauto. }
  right. split; [intros [?|[?|[?|?]]]; solve [lia | contradiction]|].
  apply bind_Raise in H as [H|(w & _ & H)]; [exact (round_waste_raise _ _ H)|].
  cbv beta in H.
  apply bind_Raise in H as [H|(rate & _ & H)].
  { destruct (dec_div_100_Ok (CalculationInput.labor_percent i)) as [x Hx].
    rewrite Hx in H. discriminate. }
  cbv beta in H.
  apply bind_Raise in H as [H|(g & _ & H)]; [exact (quantize_money_raise _ _ H)|].
  cbv beta in H.
  apply bind_Raise in H as [H|(t & _ & H)]; [exact (quantize_money_raise _ _ H)|].
  cbv beta in H.
  apply bind_Raise in H as [H|(l & _ & H)]; [exact (quantize_money_raise _ _ H)|].
  cbv beta in H.
  apply bind_Raise in H as [H|(f & _ & H)]; [exact (quantize_money_raise _ _ H)|].
  cbv beta in H.
  apply bind_Raise in H as [H|(pq & _ & H)]; [exact (quantize_money_raise _ _ H)|].
  discriminate.
Qed.

Lemma calculate_invalid i :
  invalid_input i -> exists msg, calculate i = Raise (ValueError msg).
Proof.
  unfold invalid_input, calculate. intros H.
  destruct (Z.leb_spec (CalculationInput.total_nuts i) 0); [eauto|].
  destruct (Z.leb_spec (coef (CalculationInput.price_each_rupees i)) 0); [eauto|].
  destruct (String.eqb_spec (CalculationInput.invoice_no i) EmptyString); [eauto|].
  destruct (Z.ltb_spec (CalculationInput.client_no i) 0); [eauto|].
  exfalso. destruct H as [?|[?|[?|?]]]; solve [lia | contradiction].
Qed.

Lemma nearest_half_even_round_div c d :
  0 < d -> nearest_half_even (round_div c d) c d.
Proof. intros Hd. apply round_div_spec, Hd. Qed.

Lemma nearest_half_even_unique w w' num den :
  0 < den -> nearest_half_even w num den -> nearest_half_even w' num den -> w = w'.
Proof.
  intros Hd [H1 H2] [H3 H4].
  rewrite (rnd_half_even_unique num den w Hd H1 H2).
  now rewrite (rnd_half_even_unique num den w' Hd H3 H4).
Qed.

(** The tax is the gross amount two places down, with no rounding, so
    gross less tax is ninety-nine times it at that scale. *)
Lemma gross_less_tax_at g m :
  ndigits (coef g) <= prec -> m <= dexp g ->
  at_scale (dec_sub g (dec_mul g d_0_01)) (m + -2) = round_sig (99 * at_scale g m).
Proof.
  intros Hn Hm.
  pose proof (dexp_mul_ge g d_0_01) as He. cbn [d_0_01 dexp] in He.
  rewrite dec_sub_at_scale by lia.
  rewrite (dec_mul_at_scale g d_0_01 m (-2)) by (cbn [d_0_01 dexp]; lia).
  change (at_scale d_0_01 (-2)) with 1. rewrite Z.mul_1_r.
  unfold at_scale at 2. rewrite round_sig_small by lia. fold (at_scale g m).
  rewrite (at_scale_shift g m (m + -2)) by lia.
  replace (m - (m + -2)) with 2 by lia. f_equal. change (10 ^ 2) with 100. lia.
Qed.

Lemma dle_gross_less_tax g1 g2 :
  ndigits (coef g1) <= prec -> ndigits (coef g2) <= prec ->
  dle g1 g2 ->
  dle (dec_sub g1 (dec_mul g1 d_0_01)) (dec_sub g2 (dec_mul g2 d_0_01)).
Proof.
  intros H1 H2 H. set (m := Z.min (dexp g1) (dexp g2)).
  pose proof (dexp_mul_ge g1 d_0_01) as He1. pose proof (dexp_mul_ge g2 d_0_01) as He2.
  cbn [d_0_01 dexp] in He1, He2.
  pose proof (dexp_sub_ge g1 (dec_mul g1 d_0_01)).
  pose proof (dexp_sub_ge g2 (dec_mul g2 d_0_01)).
  apply dle_at with (m := m + -2); [unfold m; lia..|].
  rewrite !gross_less_tax_at by (assumption || unfold m; lia).
  apply round_sig_mono.
  pose proof (proj1 (dle_at g1 g2 m ltac:(unfold m; lia) ltac:(unfold m; lia)) H). lia.
Qed.

Lemma ndigits_mul_le a b : ndigits (coef (dec_mul a b)) <= prec.
Proof. apply ndigits_fix_le. Qed.

Lemma dle_zero_pos p : 0 <= coef p -> dle (mkDec 0 0) p.
Proof.
  intros Hp. apply dle_at with (m := Z.min 0 (dexp p)); [cbn [dexp]; lia..|].
  unfold at_scale. cbn [coef]. pose proof (pow10_gt0 (dexp p - Z.min 0 (dexp p)) ltac:(lia)).
  nia.
Qed.

Lemma quantize_money_dexp d q : _quantize_money d = Ok q -> dexp q = -2.
Proof. intros H. apply quantize_dexp in H. exact H. Qed.

Lemma quantize_money_mono a b qa qb :
  dle a b -> _quantize_money a = Ok qa -> _quantize_money b = Ok qb ->
  coef qa <= coef qb.
Proof. unfold _quantize_money. apply quantize_mono. Qed.

(** ** The claims on the calculation engine *)

(** C1 (as amended).  For every positive total [n] with [22 * n] below
    [10 ^ 28], that is while the product [n * 0.022] fits the 28 digits of
    the decimal context, the wastage is [n * 0.022] rounded to the nearest
    integer with ties to even.  The ties the code meets behave so (250 gives
    raw 5.5 and wastage 6, 750 gives raw 16.5 and wastage 16), and the
    rounding step sends 2.5 to 2 and 3.5 to 4. *)
Theorem C1_wastage_half_even :
  (forall n, 0 < n -> 22 * n < 10 ^ 28 ->
     exists w, _round_waste_to_nearest_integer_half_even n = Ok w
               /\ nearest_half_even w (22 * n) 1000)
  /\ _round_waste_to_nearest_integer_half_even 250 = Ok 6
  /\ _round_waste_to_nearest_integer_half_even 750 = Ok 16
  /\ quantize (mkDec 25 (-1)) d_1 = Ok (mkDec 2 0)
  /\ quantize (mkDec 35 (-1)) d_1 = Ok (mkDec 4 0).
Proof.
  split; [|repeat split; vm_compute; reflexivity].
  intros n Hn Hb. exists (round_div (22 * n) 1000). split.
  - now apply round_waste_exact.
  - apply nearest_half_even_round_div. lia.
Qed.

Lemma C1_wastage_half_even_witness :
  0 < 5670 /\ 22 * 5670 < 10 ^ 28 /\
  exists w, _round_waste_to_nearest_integer_half_even 5670 = Ok w
            /\ nearest_half_even w (22 * 5670) 1000.
Proof.
  split; [lia|]. split; [vm_compute; reflexivity|].
  apply (proj1 C1_wastage_half_even 5670); [lia|vm_compute; reflexivity].
Defined.

(** C1 as stated fails for a total of 28 digits: the product
    [22000000000000000000000001.496] has 29 digits, the context rounds it
    to [...01.50], and the tie then goes up to [...02] where the nearest
    integer is [...01]. *)
Lemma C1_counterexample :
  0 < 10 ^ 27 + 68
  /\ _round_waste_to_nearest_integer_half_even (10 ^ 27 + 68)
     = Ok (22 * 10 ^ 24 + 2)
  /\ ~ nearest_half_even (22 * 10 ^ 24 + 2) (22 * (10 ^ 27 + 68)) 1000
  /\ nearest_half_even (22 * 10 ^ 24 + 1) (22 * (10 ^ 27 + 68)) 1000.
Proof.
  split; [vm_compute; reflexivity|]. split; [vm_compute; reflexivity|].
  unfold nearest_half_even. split.
  - intros [H _]. vm_compute in H. apply H. reflexivity.
  - split; [vm_compute; discriminate|]. intros H. vm_compute in H. discriminate.
Qed.

(** C2.  The example of the specification evaluates to the stated
    figures, and for every input the labor charge of a returned result is
    the 2-place quantization of [Decimal(total_nuts) * (labor_percent / 100)]:
    it is computed from the total count, the remaining count does not enter.
    At the default rate of 11 it is exactly [0.11 * total_nuts]. *)
Theorem C2_sample_and_labor_on_total :
  calculate sample_input
  = Ok (CalculationResult.mk "001" 1 "Client 01" (mkDate 2025 8 10) 5670
          (mkDec 2200 (-2)) d_11 125 5545
          (mkDec 12199000 (-2)) (mkDec 121990 (-2)) (mkDec 62370 (-2))
          (mkDec 12014640 (-2)))
  /\ (forall i r, calculate i = Ok r ->
        exists rate,
          dec_div (CalculationInput.labor_percent i) d_100 = Ok rate
          /\ _quantize_money (dec_mul (of_int (CalculationInput.total_nuts i)) rate)
             = Ok (CalculationResult.labor_charges r))
  /\ (forall i r, calculate i = Ok r ->
        CalculationInput.labor_percent i = d_11 ->
        11 * CalculationInput.total_nuts i < 10 ^ 28 ->
        CalculationResult.labor_charges r
        = mkDec (11 * CalculationInput.total_nuts i) (-2)).
Proof.
  split; [vm_compute; reflexivity|]. split.
  - intros i r H. destruct (calculate_Ok i r H) as [_ (w & rate & _ & Hr & Hq)].
    cbv zeta in Hq. exists rate. split; [exact Hr|]. tauto.
  - intros i r H Hl Hb.
    destruct (calculate_Ok i r H) as [Hv (w & rate & _ & Hr & Hq)].
    cbv zeta in Hq. destruct Hq as (_ & _ & Hlab & _).
    rewrite Hl in Hr. vm_compute in Hr. injection Hr as <-.
    set (n := CalculationInput.total_nuts i) in *.
    assert (Hn : 0 < n) by (unfold invalid_input in Hv; fold n in Hv; lia).
    pose proof prec_eq as Hprec.
    assert (Hnd : ndigits (n * 11) <= prec).
    { apply ndigits_lt_pow; [lia| |lia]. rewrite Z.abs_eq by lia.
      rewrite Hprec. lia. }
    assert (Hmul : dec_mul (of_int n) (mkDec 11 (-2)) = mkDec (n * 11) (-2)).
    { unfold dec_mul, dec_fix. cbn [of_int coef dexp].
      destruct (Z.leb_spec (ndigits (n * 11)) prec); [reflexivity|lia]. }
    rewrite Hmul in Hlab. apply quantize_Ok in Hlab. rewrite Hlab.
    unfold rescale. cbn. f_equal. lia.
Qed.

Lemma C2_sample_and_labor_on_total_witness :
  CalculationInput.labor_percent sample_input = d_11
  /\ 11 * CalculationInput.total_nuts sample_input < 10 ^ 28
  /\ (forall r, calculate sample_input = Ok r ->
        CalculationResult.labor_charges r = mkDec 62370 (-2)).
Proof.
  split; [reflexivity|]. split; [vm_compute; reflexivity|].
  intros r H.
  exact (proj2 (proj2 C2_sample_and_labor_on_total) sample_input r H eq_refl eq_refl).
Defined.

Lemma mag_pos_le p k : 0 < coef p -> dle p (mkDec 1 k) -> mag_le p k.
Proof.
  intros Hp H. split; [exact H|].
  apply dle_at with (m := Z.min k (dexp p)); [cbn [dexp]; lia..|].
  unfold at_scale. cbn [coef dexp].
  pose proof (pow10_gt0 (k - Z.min k (dexp p)) ltac:(lia)).
  pose proof (pow10_gt0 (dexp p - Z.min k (dexp p)) ltac:(lia)). nia.
Qed.

Lemma mag_d_0_022 : mag_le d_0_022 (-1).
Proof. apply mag_le_at with (m := -3); [cbn; lia..|]. vm_compute. discriminate. Qed.

Lemma mag_d_0_01 : mag_le d_0_01 (-2).
Proof. apply mag_le_at with (m := -2); [cbn; lia..|]. vm_compute. discriminate. Qed.

(** Within these bounds every [quantize] of [calculate] succeeds. *)
Lemma calculate_total i :
  ~ invalid_input i ->
  CalculationInput.total_nuts i <= 10 ^ 12 ->
  dle (CalculationInput.price_each_rupees i) (mkDec 1 10) ->
  mag_le (CalculationInput.labor_percent i) 12 ->
  exists r, calculate i = Ok r.
Proof.
  intros Hv Hn Hp Hl. pose proof prec_eq as Hprec.
  set (n := CalculationInput.total_nuts i) in *.
  set (p := CalculationInput.price_each_rupees i) in *.
  assert (Hn0 : 0 < n) by (unfold invalid_input in Hv; fold n in Hv; lia).
  assert (Hp0 : 0 < coef p) by (unfold invalid_input in Hv; fold p in Hv; lia).
  assert (Hmn : mag_le (of_int n) 12) by (apply mag_of_int; lia).
  (* wastage *)
  pose proof (mag_mul _ _ _ _ Hmn mag_d_0_022) as Hraw.
  destruct (quantize_succeeds _ d_1 _ Hraw ltac:(cbn; lia) ltac:(cbn; lia)) as [wq Hwq].
  assert (Hw : _round_waste_to_nearest_integer_half_even n = Ok (to_int wq)).
  { unfold _round_waste_to_nearest_integer_half_even. now rewrite Hwq. }
  pose proof (round_waste_bounds n _ ltac:(lia) Hw) as Hwb.
  set (w := to_int wq) in *.
  (* the amounts *)
  assert (Hmr : mag_le (of_int (n - w)) 12) by (apply mag_of_int; lia).
  pose proof (mag_pos_le p 10 Hp0 Hp) as Hmp.
  pose proof (mag_mul _ _ _ _ Hmr Hmp) as Hg. simpl (12 + 10) in Hg.
  pose proof (mag_mul _ _ _ _ Hg mag_d_0_01) as Ht. simpl (22 + -2) in Ht.
  destruct (dec_div_100_mag _ _ Hl) as (rate & Hrate & Hmrate). simpl (12 - 2) in Hmrate.
  pose proof (mag_mul _ _ _ _ Hmn Hmrate) as Hlab. simpl (12 + 10) in Hlab.
  pose proof (mag_sub _ _ 22 Hg (mag_mono _ 20 22 ltac:(lia) Ht)) as Hgt.
  simpl (22 + 1) in Hgt.
  pose proof (mag_sub _ _ 23 Hgt (mag_mono _ 22 23 ltac:(lia) Hlab)) as Hf.
  simpl (23 + 1) in Hf.
  destruct (quantize_succeeds _ d_0_01 _ Hg ltac:(cbn; lia) ltac:(cbn; lia)) as [gq Hgq].
  destruct (quantize_succeeds _ d_0_01 _ Ht ltac:(cbn; lia) ltac:(cbn; lia)) as [tq Htq].
  destruct (quantize_succeeds _ d_0_01 _ Hlab ltac:(cbn; lia) ltac:(cbn; lia)) as [lq Hlq].
  destruct (quantize_succeeds _ d_0_01 _ Hf ltac:(cbn; lia) ltac:(cbn; lia)) as [fq Hfq].
  destruct (quantize_succeeds _ d_0_01 _ Hmp ltac:(cbn; lia) ltac:(cbn; lia)) as [pq Hpq].
  eexists. apply (calculate_from_parts i w rate gq tq lq fq pq); assumption.
Qed.

(** C3 (as amended).  [calculate] raises [ValueError] exactly when the
    total is not positive, the price is not positive, the invoice id is
    empty or the party id is negative.  For an input that passes the four
    checks and stays within the 28-digit decimal context (total at most
    [10 ^ 12], price at most [10 ^ 10], labor percent at most [10 ^ 12] in
    magnitude) it returns a full result, with remaining = total - wastage
    and the wastage the half-even rounding of [total * 0.022].  Whenever it
    returns, the checks passed and remaining = total - wastage; there is
    never a partial result.  Past the checks, as long as total, price and
    labor percent are at most [10 ^ 4000] in magnitude (so that no product
    comes near the exponent limit of the context, where the arithmetic
    raises decimal.Overflow), the only exception left is the
    InvalidOperation of [quantize]. *)
Theorem C3_validation_and_result :
  (forall i, (exists msg, calculate i = Raise (ValueError msg)) <-> invalid_input i)
  /\ (forall i,
        ~ invalid_input i ->
        CalculationInput.total_nuts i <= 10 ^ 12 ->
        dle (CalculationInput.price_each_rupees i) (mkDec 1 10) ->
        mag_le (CalculationInput.labor_percent i) 12 ->
        exists r, calculate i = Ok r
          /\ CalculationResult.remaining_nuts r
             = CalculationInput.total_nuts i - CalculationResult.waste_nuts r
          /\ nearest_half_even (CalculationResult.waste_nuts r)
               (22 * CalculationInput.total_nuts i) 1000)
  /\ (forall i r, calculate i = Ok r ->
        ~ invalid_input i
        /\ CalculationResult.remaining_nuts r
           = CalculationInput.total_nuts i - CalculationResult.waste_nuts r)
  /\ (forall i e,
        calculate i = Raise e -> ~ invalid_input i ->
        CalculationInput.total_nuts i <= 10 ^ 4000 ->
        dle (CalculationInput.price_each_rupees i) (mkDec 1 4000) ->
        mag_le (CalculationInput.labor_percent i) 4000 ->
        e = InvalidOperation).
Proof.
  repeat split.
  - intros [msg H]. destruct (calculate_Raise i _ H) as [[Hi _]|[_ He]];
      [exact Hi|discriminate].
  - apply calculate_invalid.
  - intros i Hv Hn Hp Hl.
    destruct (calculate_total i Hv Hn Hp Hl) as [r Hr]. exists r. split; [exact Hr|].
    destruct (calculate_Ok i r Hr) as [_ (w & rate & Hw & _ & Hq)]. cbv zeta in Hq.
    destruct Hq as (_ & _ & _ & _ & _ & Ew & Er & _). rewrite Er, Ew.
    split; [reflexivity|].
    assert (Hn0 : 0 < CalculationInput.total_nuts i) by (unfold invalid_input in Hv; lia).
    rewrite round_waste_exact in Hw by lia. injection Hw as <-.
    apply nearest_half_even_round_div. lia.
  - destruct (calculate_Ok i r H) as [Hv _]. exact Hv.
  - destruct (calculate_Ok i r H) as [_ (w & rate & _ & _ & Hq)]. cbv zeta in Hq.
    destruct Hq as (_ & _ & _ & _ & _ & Ew & Er & _). now rewrite Er, Ew.
  - intros i e H Hv _ _ _. destruct (calculate_Raise i _ H) as [[Hi _]|[_ He]];
      [contradiction|exact He].
Qed.

Lemma C3_validation_and_result_witness :
  ~ invalid_input sample_input
  /\ CalculationInput.total_nuts sample_input <= 10 ^ 12
  /\ dle (CalculationInput.price_each_rupees sample_input) (mkDec 1 10)
  /\ mag_le (CalculationInput.labor_percent sample_input) 12
  /\ exists r, calculate sample_input = Ok r
       /\ CalculationResult.remaining_nuts r
          = CalculationInput.total_nuts sample_input - CalculationResult.waste_nuts r
       /\ nearest_half_even (CalculationResult.waste_nuts r)
            (22 * CalculationInput.total_nuts sample_input) 1000.
Proof.
  assert (Hv : ~ invalid_input sample_input).
  { unfold invalid_input. cbn. intros [?|[?|[?|?]]]; solve [lia | discriminate]. }
  assert (Hn : CalculationInput.total_nuts sample_input <= 10 ^ 12)
    by (vm_compute; discriminate).
  assert (Hp : dle (CalculationInput.price_each_rupees sample_input) (mkDec 1 10))
    by (vm_compute; discriminate).
  assert (Hl : mag_le (CalculationInput.labor_percent sample_input) 12)
    by (split; vm_compute; discriminate).
  split; [exact Hv|]. split; [exact Hn|]. split; [exact Hp|]. split; [exact Hl|].
  exact (proj1 (proj2 C3_validation_and_result) sample_input Hv Hn Hp Hl).
Defined.

(** C3 as stated fails: one unit at the price [1E+27] passes the four
    checks, and [quantize] raises InvalidOperation on the gross amount. *)
Lemma C3_counterexample :
  let i := CalculationInput.mk "001" 1 "Client 01" 1 (mkDec 1 27)
             (mkDate 2025 8 10) d_11 in
  ~ invalid_input i /\ calculate i = Raise InvalidOperation.
Proof.
  cbv zeta. split; [|vm_compute; reflexivity].
  unfold invalid_input. cbn. intros [?|[?|[?|?]]]; solve [lia | discriminate].
Qed.

(** C6 (as amended).  With everything but the unit price fixed, a
    greater price never gives a smaller gross, tax or final amount; after
    the 2-place quantization the amounts may be equal. *)
Theorem C6_price_monotone (i : CalculationInput.t) (p1 p2 : decimal)
    (r1 r2 : CalculationResult.t) :
  dlt p1 p2 ->
  calculate (with_price i p1) = Ok r1 ->
  calculate (with_price i p2) = Ok r2 ->
  dle (CalculationResult.gross_amount r1) (CalculationResult.gross_amount r2)
  /\ dle (CalculationResult.tax_amount r1) (CalculationResult.tax_amount r2)
  /\ dle (CalculationResult.final_amount r1) (CalculationResult.final_amount r2).
Proof.
  intros Hlt H1 H2. apply dlt_dle in Hlt.
  destruct (calculate_Ok _ _ H1) as [Hv1 (w1 & rate1 & Hw1 & Hr1 & Hq1)].
  destruct (calculate_Ok _ _ H2) as [Hv2 (w2 & rate2 & Hw2 & Hr2 & Hq2)].
  cbv zeta in Hq1, Hq2. cbn [with_price CalculationInput.total_nuts
    CalculationInput.price_each_rupees CalculationInput.labor_percent] in *.
  rewrite Hw1 in Hw2. injection Hw2 as <-. rewrite Hr1 in Hr2. injection Hr2 as <-.
  destruct Hq1 as (Hg1 & Ht1 & _ & Hf1 & _). destruct Hq2 as (Hg2 & Ht2 & _ & Hf2 & _).
  set (n := CalculationInput.total_nuts i) in *.
  assert (Hn : 1 <= n) by (unfold invalid_input in Hv1; cbn in Hv1; fold n in Hv1; lia).
  pose proof (round_waste_bounds n w1 Hn Hw1) as Hwb.
  assert (Hg : dle (dec_mul (of_int (n - w1)) p1) (dec_mul (of_int (n - w1)) p2)).
  { apply dle_mul_l; [cbn; lia|assumption]. }
  pose proof (quantize_money_dexp _ _ Hg1). pose proof (quantize_money_dexp _ _ Hg2).
  pose proof (quantize_money_dexp _ _ Ht1). pose proof (quantize_money_dexp _ _ Ht2).
  pose proof (quantize_money_dexp _ _ Hf1). pose proof (quantize_money_dexp _ _ Hf2).
  repeat split; (apply dle_same_exp; [congruence|]).
  - eapply quantize_money_mono; [exact Hg|exact Hg1|exact Hg2].
  - eapply quantize_money_mono; [|exact Ht1|exact Ht2].
    apply dle_mul_r; [cbn; lia|exact Hg].
  - eapply quantize_money_mono; [|exact Hf1|exact Hf2].
    apply dle_sub_l. apply dle_gross_less_tax; [apply ndigits_mul_le..|exact Hg].
Qed.

Lemma C6_price_monotone_witness :
  dlt (mkDec 2200 (-2)) (mkDec 2201 (-2))
  /\ exists r1 r2,
       calculate (with_price sample_input (mkDec 2200 (-2))) = Ok r1
       /\ calculate (with_price sample_input (mkDec 2201 (-2))) = Ok r2
       /\ dle (CalculationResult.gross_amount r1) (CalculationResult.gross_amount r2)
       /\ dle (CalculationResult.tax_amount r1) (CalculationResult.tax_amount r2)
       /\ dle (CalculationResult.final_amount r1) (CalculationResult.final_amount r2).
Proof.
  assert (Hlt : dlt (mkDec 2200 (-2)) (mkDec 2201 (-2))) by (vm_compute; reflexivity).
  split; [exact Hlt|].
  destruct (calculate (with_price sample_input (mkDec 2200 (-2)))) as [r1|] eqn:E1;
    [|vm_compute in E1; discriminate].
  destruct (calculate (with_price sample_input (mkDec 2201 (-2)))) as [r2|] eqn:E2;
    [|vm_compute in E2; discriminate].
  exists r1, r2. split; [reflexivity|]. split; [reflexivity|].
  exact (C6_price_monotone sample_input _ _ r1 r2 Hlt E1 E2).
Defined.

(** C6 as stated fails.  Ten units at 22.00 and at 22.01: the tax is 2.20
    both times.  One unit at 1.001 and at 1.002: gross 1.00, tax 0.01 and
    the positive final amount 0.88 both times. *)
Lemma C6_counterexample :
  let i := CalculationInput.mk "001" 1 "Client 01" 10 (mkDec 2200 (-2))
             (mkDate 2025 8 10) d_11 in
  let j := CalculationInput.mk "001" 1 "Client 01" 1 (mkDec 1001 (-3))
             (mkDate 2025 8 10) d_11 in
  dlt (mkDec 2200 (-2)) (mkDec 2201 (-2))
  /\ (exists r1 r2,
        calculate (with_price i (mkDec 2200 (-2))) = Ok r1
        /\ calculate (with_price i (mkDec 2201 (-2))) = Ok r2
        /\ CalculationResult.tax_amount r1 = mkDec 220 (-2)
        /\ CalculationResult.tax_amount r2 = mkDec 220 (-2))
  /\ dlt (mkDec 1001 (-3)) (mkDec 1002 (-3))
  /\ (exists r1 r2,
        calculate (with_price j (mkDec 1001 (-3))) = Ok r1
        /\ calculate (with_price j (mkDec 1002 (-3))) = Ok r2
        /\ CalculationResult.gross_amount r1 = CalculationResult.gross_amount r2
        /\ CalculationResult.final_amount r1 = mkDec 88 (-2)
        /\ CalculationResult.final_amount r2 = mkDec 88 (-2)).
Proof.
  cbv zeta. split; [vm_compute; reflexivity|]. split.
  { eexists _, _. split; [vm_compute; reflexivity|]. split; [vm_compute; reflexivity|].
    split; reflexivity. }
  split; [vm_compute; reflexivity|].
  eexists _, _. split; [vm_compute; reflexivity|]. split; [vm_compute; reflexivity|].
  repeat split; reflexivity.
Qed.

(** C9 (as amended).  Whenever [calculate] returns, the wastage is at
    least zero and strictly below the total, so at least one unit remains,
    and the gross amount is not negative; it is strictly positive when the
    unit price is at least 0.01.  (A smaller price can quantize to a gross
    amount of 0.00.) *)
Theorem C9_wastage_below_total (i : CalculationInput.t) (r : CalculationResult.t) :
  calculate i = Ok r ->
  0 <= CalculationResult.waste_nuts r < CalculationInput.total_nuts i
  /\ 1 <= CalculationResult.remaining_nuts r
  /\ dexp (CalculationResult.gross_amount r) = -2
  /\ 0 <= coef (CalculationResult.gross_amount r)
  /\ (dle (mkDec 1 (-2)) (CalculationInput.price_each_rupees i) ->
      0 < coef (CalculationResult.gross_amount r)).
Proof.
  intros H. destruct (calculate_Ok _ _ H) as [Hv (w & rate & Hw & _ & Hq)].
  cbv zeta in Hq. destruct Hq as (Hg & _ & _ & _ & _ & Ew & Er & _).
  set (n := CalculationInput.total_nuts i) in *.
  set (p := CalculationInput.price_each_rupees i) in *.
  assert (Hn : 1 <= n) by (unfold invalid_input in Hv; fold n in Hv; lia).
  assert (Hp : 0 < coef p) by (unfold invalid_input in Hv; fold p in Hv; lia).
  pose proof (round_waste_bounds n w Hn Hw) as Hwb.
  rewrite Ew, Er. split; [exact Hwb|]. split; [lia|].
  split; [exact (quantize_money_dexp _ _ Hg)|].
  apply quantize_Ok in Hg. rewrite Hg. change (dexp d_0_01) with (-2). split.
  - assert (E0 : coef (rescale (dec_mul (of_int (n - w)) (mkDec 0 0)) (-2)) = 0).
    { unfold dec_mul. cbn [coef dexp of_int]. rewrite Z.mul_0_r. reflexivity. }
    rewrite <- E0 at 1.
    apply rescale_mono. apply dle_mul_l; [cbn; lia|]. apply dle_zero_pos. lia.
  - intros Hp1.
    assert (E : coef (rescale (dec_mul (of_int 1) (mkDec 1 (-2))) (-2)) = 1)
      by (vm_compute; reflexivity).
    assert (0 < coef (rescale (dec_mul (of_int 1) (mkDec 1 (-2))) (-2))) by (rewrite E; lia).
    eapply Z.lt_le_trans; [eassumption|]. apply rescale_mono.
    apply dle_trans with (dec_mul (of_int (n - w)) (mkDec 1 (-2))).
    + apply dle_mul_r; [cbn; lia|]. apply dle_same_exp; [reflexivity|]. cbn. lia.
    + apply dle_mul_l; [cbn; lia|exact Hp1].
Qed.

Lemma C9_wastage_below_total_witness :
  exists r, calculate sample_input = Ok r
    /\ dle (mkDec 1 (-2)) (CalculationInput.price_each_rupees sample_input)
    /\ 0 <= CalculationResult.waste_nuts r < CalculationInput.total_nuts sample_input
    /\ 1 <= CalculationResult.remaining_nuts r
    /\ 0 < coef (CalculationResult.gross_amount r).
Proof.
  destruct (calculate sample_input) as [r|] eqn:E; [|vm_compute in E; discriminate].
  exists r. split; [reflexivity|].
  assert (Hp : dle (mkDec 1 (-2)) (CalculationInput.price_each_rupees sample_input))
    by (vm_compute; discriminate).
  split; [exact Hp|].
  destruct (C9_wastage_below_total sample_input r E) as (H1 & H2 & _ & _ & H5).
  split; [exact H1|]. split; [exact H2|]. exact (H5 Hp).
Defined.

(** C9 as stated fails on the gross amount: one unit at the price 0.001
    is a valid input and its gross amount is 0.00. *)
Lemma C9_counterexample :
  let i := CalculationInput.mk "001" 1 "Client 01" 1 (mkDec 1 (-3))
             (mkDate 2025 8 10) d_11 in
  ~ invalid_input i
  /\ exists r, calculate i = Ok r
       /\ CalculationResult.remaining_nuts r = 1
       /\ CalculationResult.gross_amount r = mkDec 0 (-2).
Proof.
  cbv zeta. split.
  - unfold invalid_input. cbn. intros [?|[?|[?|?]]]; solve [lia | discriminate].
  - eexists. split; [vm_compute; reflexivity|]. split; reflexivity.
Qed.

(** ** The ledger: deduplication *)


Lemma dedup_from_length seen rows :
  (length (dedup_from seen rows) <= length rows)%nat.
Proof.
  revert seen. induction rows as [|r rest IH]; intros seen; simpl; [lia|].
  destruct (decide _); simpl.
  - specialize (IH seen). lia.
  - specialize (IH ({[dedup_key r]} ∪ seen)). lia.
Qed.

Lemma dedup_loop_from rows seen acc n :
  dedup_loop rows seen acc n
  = (acc ++ dedup_from seen rows,
     (n + (length rows - length (dedup_from seen rows)))%nat).
Proof.
  revert seen acc n. induction rows as [|r rest IH]; intros seen acc n; simpl.
  - rewrite app_nil_r. f_equal. lia.
  - destruct (decide (dedup_key r ∈ seen)).
    + rewrite IH. f_equal.
      pose proof (dedup_from_length seen rest). lia.
    + rewrite IH. rewrite <- app_assoc. simpl. reflexivity.
Qed.

Lemma dedup_from_sublist seen rows : sublist (dedup_from seen rows) rows.
Proof.
  revert seen. induction rows as [|r rest IH]; intros seen; simpl.
  - constructor.
  - destruct (decide _); [apply sublist_cons|apply sublist_skip]; apply IH.
Qed.

Lemma dedup_from_fresh seen rows r :
  r ∈ dedup_from seen rows -> dedup_key r ∉ seen.
Proof.
  revert seen. induction rows as [|x rest IH]; intros seen; simpl.
  - intros H. inversion H.
  - destruct (decide _) as [Hin|Hnin].
    + apply IH.
    + intros [->|H]%elem_of_cons; [exact Hnin|].
      apply IH in H. intros Hin. apply H, elem_of_union_r, Hin.
Qed.

Lemma dedup_from_NoDup seen rows : NoDup (dedup_key <$> dedup_from seen rows).
Proof.
  revert seen. induction rows as [|x rest IH]; intros seen; simpl.
  - constructor.
  - destruct (decide _) as [Hin|Hnin]; [apply IH|].
    rewrite fmap_cons. constructor; [|apply IH].
    intros (y & Hk & Hy)%list_elem_of_fmap.
    apply dedup_from_fresh in Hy. apply Hy. rewrite <- Hk.
    apply elem_of_union_l, elem_of_singleton. reflexivity.
Qed.

(** The kept rows of a ledger cut in two. *)
Lemma dedup_from_app seen l1 l2 :
  dedup_from seen (l1 ++ l2)
  = dedup_from seen l1
    ++ dedup_from (list_to_set (dedup_key <$> l1) ∪ seen) l2.
Proof.
  revert seen. induction l1 as [|x l1 IH]; intros seen.
  - cbn [app dedup_from]. f_equal. apply set_eq. intros k.
    rewrite elem_of_union, elem_of_list_to_set, fmap_nil, elem_of_nil. tauto.
  - cbn [app dedup_from]. destruct (decide _) as [Hin|Hnin].
    + rewrite IH. do 2 f_equal. apply set_eq. intros k.
      rewrite !elem_of_union, !elem_of_list_to_set, fmap_cons, elem_of_cons.
      split; [tauto|]. intros [[->|H]|H]; auto.
    + cbn [app]. rewrite IH. do 3 f_equal. apply set_eq. intros k.
      rewrite !elem_of_union, !elem_of_list_to_set, fmap_cons, elem_of_cons,
        elem_of_singleton. tauto.
Qed.

(** A first occurrence is kept, at its place. *)
Lemma dedup_from_first seen l1 r l2 :
  dedup_key r ∉ seen -> dedup_key r ∉ dedup_key <$> l1 ->
  exists k1 k2,
    dedup_from seen (l1 ++ r :: l2) = k1 ++ r :: k2
    /\ sublist k1 l1 /\ sublist k2 l2.
Proof.
  intros Hs Hl. rewrite dedup_from_app. simpl.
  destruct (decide _) as [Hin|_].
  - exfalso. apply elem_of_union in Hin as [Hin|Hin]; [|contradiction].
    apply elem_of_list_to_set in Hin. contradiction.
  - eexists _, _. split; [reflexivity|]. split; apply dedup_from_sublist.
Qed.

(** A later record with a key already met changes nothing. *)
Lemma dedup_from_later seen l1 r l2 :
  dedup_key r ∈ seen \/ dedup_key r ∈ dedup_key <$> l1 ->
  dedup_from seen (l1 ++ r :: l2) = dedup_from seen (l1 ++ l2).
Proof.
  intros H. rewrite !dedup_from_app. simpl.
  destruct (decide _) as [_|Hnin]; [reflexivity|].
  exfalso. apply Hnin. destruct H; [now apply elem_of_union_r|].
  apply elem_of_union_l, elem_of_list_to_set. assumption.
Qed.

Lemma dedup_key_setdefault r :
  dedup_key (setdefault "party_name" EmptyString r) = dedup_key r.
Proof.
  unfold setdefault. destruct (r !! "party_name"); [reflexivity|].
  unfold dedup_key, get_or. now rewrite !lookup_insert_ne by discriminate.
Qed.

Lemma deduplicate_history_rows h :
  hrows (fst (deduplicate_history h)) = dedup_from ∅ (dedup_input h)
  /\ snd (deduplicate_history h)
     = (length (dedup_input h) - length (dedup_from ∅ (dedup_input h)))%nat.
Proof.
  unfold deduplicate_history, dedup_input.
  destruct (hrows h) as [|r rest] eqn:E.
  - simpl. rewrite E. now destruct (bool_decide _).
  - rewrite <- E.
    set (rows := if bool_decide _ then hrows h else _).
    rewrite (dedup_loop_from rows ∅ [] O). simpl. split; reflexivity.
Qed.

(** C4.  [deduplicate_history] keeps, in ledger order, exactly the first
    record of every key (client name stripped and lower-cased, voucher id
    stripped, final amount stripped, all as text): the kept rows are a
    subsequence of the rows, no two of them share a key, a record no earlier
    record shares the key of is kept at its place, a record with a key met
    earlier leaves the result as if it were absent, and the number returned
    is the number of dropped rows.  Amounts equal as numbers but not as text
    are different keys. *)
Theorem C4_dedup_keeps_first_occurrences :
  (forall h : history,
     let rows := dedup_input h in
     let kept := hrows (fst (deduplicate_history h)) in
     kept = dedup_from ∅ rows
     /\ sublist kept rows
     /\ NoDup (dedup_key <$> kept)
     /\ snd (deduplicate_history h) = (length rows - length kept)%nat
     /\ dedup_key <$> rows = dedup_key <$> hrows h)
  /\ (forall l1 r l2,
        dedup_key r ∉ dedup_key <$> l1 ->
        exists k1 k2,
          dedup_from ∅ (l1 ++ r :: l2) = k1 ++ r :: k2
          /\ sublist k1 l1 /\ sublist k2 l2)
  /\ (forall l1 r l2,
        dedup_key r ∈ dedup_key <$> l1 ->
        dedup_from ∅ (l1 ++ r :: l2) = dedup_from ∅ (l1 ++ l2))
  /\ deduplicate_history (mkHistory ["party_name"%string] [row_100_0; row_100_00])
     = (mkHistory ["party_name"%string] [row_100_0; row_100_00], O)
  /\ deduplicate_history (mkHistory ["party_name"%string] [row_a1; row_a2; row_b])
     = (mkHistory ["party_name"%string] [row_a1; row_b], 1%nat).
Proof.
  split; [|split; [|split; [|split]]].
  - intros h rows kept.
    destruct (deduplicate_history_rows h) as [Hk Hn]. fold rows kept in Hk, Hn.
    split; [exact Hk|]. rewrite Hk at 1 2. rewrite Hn, Hk.
    split; [apply dedup_from_sublist|]. split; [apply dedup_from_NoDup|].
    split; [reflexivity|].
    unfold rows, dedup_input. destruct (bool_decide _); [reflexivity|].
    rewrite <- list_fmap_compose. apply list_fmap_ext.
    intros i r _. apply dedup_key_setdefault.
  - intros l1 r l2 H. apply dedup_from_first; [apply not_elem_of_empty|exact H].
  - intros l1 r l2 H. apply dedup_from_later. now right.
  - vm_compute. reflexivity.
  - vm_compute. reflexivity.
Qed.

Lemma C4_dedup_keeps_first_occurrences_witness :
  (dedup_key row_a1 ∉ (dedup_key <$> ([] : list row)))
  /\ (exists k1 k2,
        dedup_from ∅ ([] ++ row_a1 :: [row_a2; row_b]) = k1 ++ row_a1 :: k2
        /\ sublist k1 [] /\ sublist k2 [row_a2; row_b]).
Proof.
  assert (H : dedup_key row_a1 ∉ (dedup_key <$> ([] : list row))).
  { intros Hin. inversion Hin. }
  split; [exact H|].
  exact (proj1 (proj2 C4_dedup_keeps_first_occurrences) [] row_a1 [row_a2; row_b] H).
Defined.

(** ** The range report: selection *)


Lemma filter_vouchers_rows lo hi rows :
  snd <$> filter_vouchers lo hi rows = filter (fun r => in_window lo hi r) rows.
Proof.
  induction rows as [|r rest IH]; [reflexivity|].
  cbn [filter_vouchers]. rewrite filter_cons.
  destruct (decide (in_window lo hi r)) as [Hin|Hnin]; unfold in_window in *.
  - destruct (int_of_str (strip (get_or r "v_no" "V.No." EmptyString))) as [v|];
      [|contradiction].
    destruct ((lo <=? v) && (v <=? hi)); [|contradiction].
    rewrite fmap_cons, IH. reflexivity.
  - destruct (int_of_str (strip (get_or r "v_no" "V.No." EmptyString))) as [v|];
      [|exact IH].
    destruct ((lo <=? v) && (v <=? hi)); [|exact IH].
    exfalso. apply Hnin. exact I.
Qed.

Lemma filter_vouchers_ids lo hi rows v r :
  (v, r) ∈ filter_vouchers lo hi rows ->
  int_of_str (strip (get_or r "v_no" "V.No." EmptyString)) = Some v
  /\ lo <= v <= hi.
Proof.
  induction rows as [|x rest IH]; cbn [filter_vouchers].
  - intros H. inversion H.
  - destruct (int_of_str (strip (get_or x _ _ _))) as [w|] eqn:E; [|exact IH].
    destruct ((lo <=? w) && (w <=? hi)) eqn:Ew; [|exact IH].
    intros [Heq|H]%elem_of_cons; [|exact (IH H)].
    injection Heq as -> ->. split; [exact E|].
    apply andb_true_iff in Ew as [H1 H2]. lia.
Qed.

Lemma insert_by_key_perm x l : Permutation (insert_by_key x l) (x :: l).
Proof.
  induction l as [|y l IH]; cbn [insert_by_key]; [reflexivity|].
  destruct (fst x <=? fst y); [reflexivity|].
  rewrite IH. apply perm_swap.
Qed.

Lemma sort_by_key_perm l : Permutation (sort_by_key l) l.
Proof.
  induction l as [|x l IH]; cbn [sort_by_key]; [reflexivity|].
  rewrite insert_by_key_perm. now constructor.
Qed.

Lemma insert_by_key_sorted x l :
  StronglySorted key_le l -> StronglySorted key_le (insert_by_key x l).
Proof.
  induction l as [|y l IH]; cbn [insert_by_key]; intros Hs.
  - repeat constructor.
  - apply StronglySorted_inv in Hs as [Hs Hall].
    destruct (Z.leb_spec (fst x) (fst y)) as [Hle|Hgt].
    + constructor; [constructor; assumption|].
      constructor; [exact Hle|].
      eapply Forall_impl; [exact Hall|]. intros z Hz. unfold key_le in *. lia.
    + constructor; [apply IH, Hs|].
      rewrite insert_by_key_perm. constructor; [unfold key_le; lia|exact Hall].
Qed.

Lemma sort_by_key_sorted l : StronglySorted key_le (sort_by_key l).
Proof.
  induction l as [|x l IH]; cbn [sort_by_key]; [constructor|].
  now apply insert_by_key_sorted.
Qed.

(** Stability: the rows of one voucher id keep their order. *)
Lemma insert_by_key_stable v x l :
  filter (fun y => fst y = v) (insert_by_key x l)
  = filter (fun y => fst y = v) (x :: l).
Proof.
  induction l as [|y l IH]; cbn [insert_by_key]; [reflexivity|].
  destruct (Z.leb_spec (fst x) (fst y)) as [Hle|Hgt]; [reflexivity|].
  rewrite filter_cons, IH, !filter_cons.
  destruct (decide (fst y = v)), (decide (fst x = v)); try reflexivity. lia.
Qed.

Lemma sort_by_key_stable v l :
  filter (fun y => fst y = v) (sort_by_key l) = filter (fun y => fst y = v) l.
Proof.
  induction l as [|x l IH]; cbn [sort_by_key]; [reflexivity|].
  rewrite insert_by_key_stable, !filter_cons, IH. reflexivity.
Qed.

Lemma filter_by_id (l : list (Z * row)) v :
  (forall w r, (w, r) ∈ l ->
     int_of_str (strip (get_or r "v_no" "V.No." EmptyString)) = Some w) ->
  snd <$> filter (fun y => fst y = v) l
  = filter (fun r => int_of_str (strip (get_or r "v_no" "V.No." EmptyString)) = Some v)
      (snd <$> l).
Proof.
  induction l as [|[w r] l IH]; intros Hid; [reflexivity|].
  rewrite fmap_cons, !filter_cons. cbn [fst snd].
  pose proof (Hid w r ltac:(left)) as Hw.
  assert (IH' := IH (fun w' r' H => Hid w' r' ltac:(right; exact H))).
  destruct (decide (w = v)) as [->|Hne].
  - rewrite decide_True by exact Hw. rewrite fmap_cons. cbn [snd]. now rewrite IH'.
  - rewrite decide_False by congruence. exact IH'.
Qed.

Lemma build_entries_length l entries :
  build_entries l = Ok entries -> length entries = length l.
Proof.
  revert entries. induction l as [|[v r] l IH]; intros entries; cbn [build_entries].
  - now intros [= <-].
  - intros H. apply bind_Ok in H as (t & _ & H). cbv beta zeta in H.
    apply bind_Ok in H as (es & E & H). injection H as <-.
    cbn [length]. now rewrite (IH _ E).
Qed.

Lemma build_entries_labels l entries :
  build_entries l = Ok entries ->
  fst <$> entries
  = (fun x => strip (get_or (snd x) "client_name" "Name" EmptyString)
              +:+ " (" +:+ str_of_int (fst x) +:+ ")") <$> l.
Proof.
  revert entries. induction l as [|[v r] l IH]; intros entries; cbn [build_entries].
  - now intros [= <-].
  - intros H. apply bind_Ok in H as (t & _ & H). cbv beta zeta in H.
    apply bind_Ok in H as (es & E & H). injection H as <-.
    rewrite !fmap_cons. cbn [fst snd]. now rewrite (IH _ E).
Qed.

Lemma build_entries_raise l v r e :
  (v, r) ∈ l -> amount_text r = Raise e -> exists e', build_entries l = Raise e'.
Proof.
  induction l as [|[v0 r0] l IH]; [intros H; inversion H|].
  intros [[= <- <-]|Hin]%elem_of_cons Hr; cbn [build_entries].
  - rewrite Hr. cbn [mbind result_bind]. eauto.
  - destruct (amount_text r0) as [t|e0]; cbn [mbind result_bind]; [|eauto].
    destruct (IH Hin Hr) as [e' ->]. cbn [mbind result_bind]. eauto.
Qed.

(** A field that [int] reads is not empty. *)
Lemma int_of_str_nonempty s a : int_of_str s = Some a -> s <> EmptyString.
Proof. intros H ->. vm_compute in H. discriminate. Qed.

(** What the request answers once the two fields are read. *)
Lemma voucher_range_read sa sb a b h :
  int_of_str sa = Some a -> int_of_str sb = Some b ->
  voucher_range (Some sa) (Some sb) h
  = match select_vouchers a b (read_history_rows h) with
    | [] => (h, mkResponse None (Some no_vouchers))
    | x :: l =>
        match build_entries (x :: l) with
        | Raise e => (h, mkResponse (Some (str_of_error e)) None)
        | Ok entries =>
            (fst (deduplicate_history h),
             mkResponse None (Some (join nl (render_lines entries))))
        end
    end.
Proof.
  intros Ha Hb. unfold voucher_range.
  destruct sa as [|c1 s1]; [now apply int_of_str_nonempty in Ha|].
  destruct sb as [|c2 s2]; [now apply int_of_str_nonempty in Hb|].
  rewrite Ha, Hb. cbv zeta.
  destruct (select_vouchers a b (read_history_rows h)); reflexivity.
Qed.

(** C5.  A range request (from line 274 on, once [get_clients()] has
    returned) whose two fields read as the integers [a] and [b], in
    either order, works on exactly the rows of the ledger whose
    voucher id reads as an integer of the inclusive window (a row whose id
    does not read as an integer is passed over), each once and with that
    integer, sorted by voucher id, rows of one id in ledger order.  When
    nothing is selected the response is the text [No vouchers found in
    this range] and the ledger is left as it is; otherwise, when the
    amounts of the selected rows can be rendered, the response is the
    table with one line for each selected row, in that order, labelled
    with the client name and the voucher id.  Ids 5, 3, 9, 1 and the
    window 2 to 6 give the lines of 3 then 5. *)
Theorem C5_range_selection :
  (forall (sa sb : string) (a b : Z) (h : history),
     int_of_str sa = Some a -> int_of_str sb = Some b ->
     let lo := Z.min a b in
     let hi := Z.max a b in
     let rows := read_history_rows h in
     let selected := select_vouchers a b rows in
     Permutation (snd <$> selected) (filter (fun r => in_window lo hi r) rows)
     /\ (forall v r, (v, r) ∈ selected ->
           int_of_str (strip (get_or r "v_no" "V.No." EmptyString)) = Some v
           /\ lo <= v <= hi)
     /\ StronglySorted (fun x y => fst x <= fst y) selected
     /\ (forall v,
           snd <$> filter (fun y => fst y = v) selected
           = filter (fun r => int_of_str (strip (get_or r "v_no" "V.No." EmptyString))
                              = Some v)
               (filter (fun r => in_window lo hi r) rows))
     /\ (selected = [] ->
         voucher_range (Some sa) (Some sb) h
         = (h, mkResponse None (Some "No vouchers found in this range"%string)))
     /\ (forall entries,
           selected <> [] -> build_entries selected = Ok entries ->
           voucher_range (Some sa) (Some sb) h
           = (fst (deduplicate_history h),
              mkResponse None (Some (join nl (render_lines entries))))
           /\ length (render_lines entries) = length selected
           /\ fst <$> entries
              = (fun x => strip (get_or (snd x) "client_name" "Name" EmptyString)
                          +:+ " (" +:+ str_of_int (fst x) +:+ ")") <$> selected))
  /\ fst <$> select_vouchers 2 6
               (voucher_row <$> ["5"; "3"; "9"; "1"; "x7"]%string) = [3; 5]
  /\ voucher_range (Some "2"%string) (Some "6"%string)
       (mkHistory standard_header
          [ {[ "v_no" := "5"; "client_name" := "Asha"; "final_amount" := "10.50" ]};
            {[ "v_no" := "3"; "client_name" := "Banu"; "final_amount" := "20.00" ]};
            {[ "v_no" := "9"; "client_name" := "Chitra"; "final_amount" := "30.00" ]};
            {[ "v_no" := "1"; "client_name" := "Devi"; "final_amount" := "40.00" ]};
            {[ "v_no" := "x7"; "client_name" := "Eswar"; "final_amount" := "50.00" ]}
          ]%string)
     = (mkHistory standard_header
          [ {[ "v_no" := "5"; "client_name" := "Asha"; "final_amount" := "10.50" ]};
            {[ "v_no" := "3"; "client_name" := "Banu"; "final_amount" := "20.00" ]};
            {[ "v_no" := "9"; "client_name" := "Chitra"; "final_amount" := "30.00" ]};
            {[ "v_no" := "1"; "client_name" := "Devi"; "final_amount" := "40.00" ]};
            {[ "v_no" := "x7"; "client_name" := "Eswar"; "final_amount" := "50.00" ]}
          ]%string,
        mkResponse None
          (Some ("1. Banu (3)  =     20" +:+ nl +:+ "2. Asha (5)  =  10.50")%string)).
Proof.
  split; [|split].
  - intros sa sb a b h Ha Hb lo hi rows selected.
    assert (E : selected = sort_by_key (filter_vouchers lo hi rows)).
    { unfold selected, select_vouchers, lo, hi.
      destruct (Z.ltb_spec b a); [rewrite Z.min_r, Z.max_l by lia|
                                  rewrite Z.min_l, Z.max_r by lia]; reflexivity. }
    pose proof (voucher_range_read sa sb a b h Ha Hb) as Hvr.
    fold rows in Hvr. fold selected in Hvr.
    split; [|split; [|split; [|split; [|split]]]].
    + rewrite E, sort_by_key_perm. now rewrite filter_vouchers_rows.
    + intros v r H. apply (filter_vouchers_ids lo hi rows).
      rewrite E in H. now rewrite <- (sort_by_key_perm (filter_vouchers lo hi rows)).
    + rewrite E. apply sort_by_key_sorted.
    + intros v. rewrite E, sort_by_key_stable, <- filter_vouchers_rows.
      apply filter_by_id. intros w r H.
      exact (proj1 (filter_vouchers_ids lo hi rows w r H)).
    + intros Hsel. rewrite Hvr, Hsel. reflexivity.
    + intros entries Hne Hb'. rewrite Hvr.
      destruct selected as [|x l] eqn:Es; [contradiction|].
      rewrite Hb'. split; [reflexivity|]. split.
      * unfold render_lines. rewrite length_imap. exact (build_entries_length _ _ Hb').
      * exact (build_entries_labels _ _ Hb').
  - vm_compute. reflexivity.
  - vm_compute. reflexivity.
Qed.

Lemma C5_range_selection_witness :
  int_of_str "6" = Some 6 /\ int_of_str "2" = Some 2
  /\ voucher_range (Some "6"%string) (Some "2"%string)
       (mkHistory [] (voucher_row <$> ["50"; "1"]%string))
     = (mkHistory [] (voucher_row <$> ["50"; "1"]%string),
        mkResponse None (Some "No vouchers found in this range"%string)).
Proof.
  assert (Ha : int_of_str "6" = Some 6) by (vm_compute; reflexivity).
  assert (Hb : int_of_str "2" = Some 2) by (vm_compute; reflexivity).
  assert (Hs : select_vouchers 6 2
       (read_history_rows (mkHistory [] (voucher_row <$> ["50"; "1"]%string))) = [])
    by (vm_compute; reflexivity).
  split; [exact Ha|]. split; [exact Hb|].
  exact (proj1 (proj2 (proj2 (proj2 (proj2
           (proj1 C5_range_selection "6"%string "2"%string 6 2 _ Ha Hb))))) Hs).
Defined.

(** ** Saving slips and range reports *)

Lemma is_file_false fs p : is_file fs p = false <-> files fs !! p = None.
Proof.
  unfold is_file. rewrite bool_decide_eq_false, <- eq_None_not_Some. reflexivity.
Qed.

Lemma is_file_true fs p : is_file fs p = true <-> is_Some (files fs !! p).
Proof. unfold is_file. apply bool_decide_eq_true. Qed.

Lemma is_dir_true fs p : is_dir fs p = true <-> p = [] \/ p ∈ dirs fs.
Proof.
  unfold is_dir. rewrite orb_true_iff, !bool_decide_eq_true. reflexivity.
Qed.

Lemma grows_refl extra fs : grows extra fs fs.
Proof. repeat split; auto. Qed.

Lemma grows_trans extra a b c : grows extra a b -> grows extra b c -> grows extra a c.
Proof.
  intros (D1 & F1 & G1) (D2 & F2 & G2). repeat split.
  - etrans; eassumption.
  - auto.
  - intros q Hq. destruct (G2 q Hq) as [H|H]; auto.
Qed.

Lemma grows_exists extra fs fs' p :
  grows extra fs fs' -> path_exists fs p = true -> path_exists fs' p = true.
Proof.
  intros (D & F & _). unfold path_exists. rewrite !orb_true_iff, !is_dir_true, !is_file_true.
  intros [[->|H]|[c H]]; [auto|left; right; apply D, H|right; exists c; apply F, H].
Qed.

Lemma write_text_Ok fs p c fs' :
  write_text fs p c = Ok fs' ->
  is_dir fs p = false /\ fs' = mkFs (dirs fs) (<[p := c]> (files fs)).
Proof.
  unfold write_text. destruct (is_dir fs p); [discriminate|].
  destruct (is_file fs (parent p)); [discriminate|].
  destruct (negb _); [discriminate|]. now intros [= <-].
Qed.

Lemma write_text_grows extra fs p c fs' :
  write_text fs p c = Ok fs' -> files fs !! p = None ->
  p ∈ extra ++ [CLIENTS_JSON; CLIENTS_CSV; PARTIES_CSV; HISTORY_CSV] ->
  grows extra fs fs'.
Proof.
  intros H Hnone Hp. apply write_text_Ok in H as [_ ->]. repeat split; cbn [dirs files].
  - reflexivity.
  - intros q c' Hq. rewrite lookup_insert_ne; [exact Hq|]. intros ->. congruence.
  - intros q Hq. destruct (decide (p = q)) as [<-|Hne]; [now right|].
    rewrite lookup_insert_ne in Hq by exact Hne. now left.
Qed.

Lemma path_exists_false fs p :
  path_exists fs p = false -> is_dir fs p = false /\ files fs !! p = None.
Proof.
  unfold path_exists. rewrite orb_false_iff, is_file_false. tauto.
Qed.

Lemma create_if_missing_Ok extra fs p c fs' :
  create_if_missing fs p c = Ok fs' ->
  p ∈ extra ++ [CLIENTS_JSON; CLIENTS_CSV; PARTIES_CSV; HISTORY_CSV] ->
  grows extra fs fs' /\ path_exists fs' p = true.
Proof.
  unfold create_if_missing. intros H Hp.
  destruct (path_exists fs p) eqn:E.
  - injection H as <-. split; [apply grows_refl|exact E].
  - apply path_exists_false in E as [_ Hnone]. split.
    + eapply write_text_grows; eassumption.
    + apply write_text_Ok in H as [_ ->]. unfold path_exists.
      apply orb_true_iff. right. apply is_file_true. cbn [files].
      rewrite lookup_insert_eq. eauto.
Qed.

Lemma mkdir_Ok fs p fs' :
  mkdir fs p = Ok fs' ->
  files fs !! p = None /\ fs' = mkFs ({[p]} ∪ dirs fs) (files fs).
Proof.
  unfold mkdir. destruct (is_file fs p) eqn:E; [discriminate|].
  apply is_file_false in E. now intros [= <-].
Qed.

Lemma mkdir_grows extra fs p fs' : mkdir fs p = Ok fs' -> grows extra fs fs'.
Proof.
  intros H. apply mkdir_Ok in H as [_ ->]. repeat split; cbn [dirs files]; auto.
  apply union_subseteq_r.
Qed.

(** [ensure_files_exist] overwrites nothing and leaves the store
    initialised. *)
Lemma ensure_files_exist_Ok fs fs1 :
  ensure_files_exist fs = Ok fs1 -> grows [] fs fs1 /\ initialised fs1.
Proof.
  unfold ensure_files_exist. intros H.
  destruct (mkdir fs SLIPS_DIR) as [fa|] eqn:Ea; [|discriminate].
  cbn [mbind result_bind] in H.
  destruct (mkdir fa RANGE_DIR) as [fb|] eqn:Eb; [|discriminate].
  cbn [mbind result_bind] in H.
  destruct (if negb (path_exists fb CLIENTS_JSON) && negb (path_exists fb CLIENTS_CSV)
            then write_text fb CLIENTS_JSON default_clients_json else Ok fb)
    as [fc|] eqn:Ec; [|discriminate].
  cbn [mbind result_bind] in H.
  destruct (create_if_missing fc CLIENTS_CSV _) as [fd|] eqn:Ed; [|discriminate].
  cbn [mbind result_bind] in H.
  destruct (create_if_missing fd PARTIES_CSV _) as [fe|] eqn:Ee; [|discriminate].
  cbn [mbind result_bind] in H.
  assert (Gc : grows [] fb fc).
  { destruct (negb (path_exists fb CLIENTS_JSON)) eqn:Ej; cbn [andb] in Ec.
    - destruct (negb (path_exists fb CLIENTS_CSV)).
      + apply negb_true_iff, path_exists_false in Ej as [_ Hn].
        eapply write_text_grows; [exact Ec|exact Hn|]. cbn. left.
      + injection Ec as <-. apply grows_refl.
    - injection Ec as <-. apply grows_refl. }
  destruct (create_if_missing_Ok [] _ _ _ _ Ed ltac:(cbn; right; left)) as [Gd Xd].
  destruct (create_if_missing_Ok [] _ _ _ _ Ee ltac:(cbn; do 2 right; left)) as [Ge Xe].
  destruct (create_if_missing_Ok [] _ _ _ _ H ltac:(cbn; do 3 right; left)) as [Gf Xf].
  pose proof (mkdir_grows [] _ _ _ Ea) as Ga.
  pose proof (mkdir_grows [] _ _ _ Eb) as Gb.
  assert (Gb1 : grows [] fb fs1) by (repeat (eapply grows_trans; [eassumption|]); apply grows_refl).
  assert (G : grows [] fs fs1) by (repeat (eapply grows_trans; [eassumption|]); apply grows_refl).
  split; [exact G|].
  apply mkdir_Ok in Ea as [Hs ->]. apply mkdir_Ok in Eb as [Hr ->]. cbn [files dirs] in *.
  destruct Gb1 as (D & _ & _). destruct G as (_ & _ & N). cbn [dirs] in D.
  unfold initialised. repeat split.
  - apply D. apply elem_of_union_r, elem_of_union_l, elem_of_singleton. reflexivity.
  - apply D. apply elem_of_union_l, elem_of_singleton. reflexivity.
  - apply eq_None_not_Some. intros Hq. destruct (N _ Hq) as [[c Hc]|Hin]; [congruence|].
    cbn in Hin. repeat (apply elem_of_cons in Hin as [Hin|Hin]; [discriminate|]).
    inversion Hin.
  - apply eq_None_not_Some. intros Hq. destruct (N _ Hq) as [[c Hc]|Hin]; [congruence|].
    cbn in Hin. repeat (apply elem_of_cons in Hin as [Hin|Hin]; [discriminate|]).
    inversion Hin.
  - eapply grows_exists; [|exact Xd]. eapply grows_trans; eassumption.
  - eapply grows_exists; [|exact Xe]. exact Gf.
  - exact Xf.
Qed.

Lemma initialised_stable fs : initialised fs -> ensure_files_exist fs = Ok fs.
Proof.
  intros (Ds & Dr & Fs & Fr & Xc & Xp & Xh). unfold ensure_files_exist.
  assert (Ea : mkdir fs SLIPS_DIR = Ok fs).
  { unfold mkdir. rewrite (proj2 (is_file_false fs SLIPS_DIR) Fs).
    destruct fs as [d f]. cbn [dirs files] in *. do 2 f_equal.
    apply set_eq. intros q. rewrite elem_of_union, elem_of_singleton.
    split; [intros [->|H]; assumption|auto]. }
  assert (Eb : mkdir fs RANGE_DIR = Ok fs).
  { unfold mkdir. rewrite (proj2 (is_file_false fs RANGE_DIR) Fr).
    destruct fs as [d f]. cbn [dirs files] in *. do 2 f_equal.
    apply set_eq. intros q. rewrite elem_of_union, elem_of_singleton.
    split; [intros [->|H]; assumption|auto]. }
  rewrite Ea. cbn [mbind result_bind]. rewrite Eb. cbn [mbind result_bind].
  rewrite Xc. rewrite andb_false_r. cbn [mbind result_bind].
  unfold create_if_missing. rewrite Xc. cbn [mbind result_bind].
  rewrite Xp. cbn [mbind result_bind]. now rewrite Xh.
Qed.

Lemma initialised_write fs p c fs' :
  initialised fs -> write_text fs p c = Ok fs' -> initialised fs'.
Proof.
  intros (Ds & Dr & Fs & Fr & Xc & Xp & Xh) H.
  apply write_text_Ok in H as [Hd ->].
  assert (Hps : p <> SLIPS_DIR).
  { intros ->. unfold is_dir in Hd. apply orb_false_iff in Hd as [_ Hd].
    apply bool_decide_eq_false in Hd. contradiction. }
  assert (Hpr : p <> RANGE_DIR).
  { intros ->. unfold is_dir in Hd. apply orb_false_iff in Hd as [_ Hd].
    apply bool_decide_eq_false in Hd. contradiction. }
  assert (Hx : forall q, path_exists fs q = true ->
                 path_exists (mkFs (dirs fs) (<[p := c]> (files fs))) q = true).
  { intros q. unfold path_exists, is_dir. cbn [dirs].
    rewrite !orb_true_iff, !is_file_true. cbn [files].
    intros [H|[c' H]]; [now left|right].
    destruct (decide (p = q)) as [->|Hne];
      [rewrite lookup_insert_eq|rewrite lookup_insert_ne by exact Hne]; eauto. }
  unfold initialised. cbn [dirs files]. rewrite !lookup_insert_ne by assumption.
  repeat split; auto.
Qed.

(** The two saves are [save_if_new] at their path. *)
Lemma save_slip_text_if_new_eq fs res content :
  save_slip_text_if_new fs res content
  = save_if_new fs (path_join SLIPS_DIR (slip_filename res)) content.
Proof. reflexivity. Qed.

Lemma save_range_report_if_new_eq fs utcnow party a b text d :
  save_range_report_if_new fs utcnow party a b text d
  = save_if_new fs (_range_report_path party a b d)
      (range_report_header utcnow party a b +:+ text).
Proof. reflexivity. Qed.

(** A save never overwrites: a file that is there keeps its content, and
    the save reports that nothing was created. *)
Lemma save_if_new_existing fs p c0 c fs' p' created :
  files fs !! p = Some c0 ->
  save_if_new fs p c = Ok (fs', (p', created)) ->
  p' = p /\ created = false /\ files fs' !! p = Some c0.
Proof.
  unfold save_if_new. intros H0 H.
  destruct (ensure_files_exist fs) as [fs1|] eqn:E; [|discriminate].
  cbn [mbind result_bind] in H.
  destruct (ensure_files_exist_Ok _ _ E) as [(_ & F & _) _].
  pose proof (F _ _ H0) as H1.
  assert (X : path_exists fs1 p = true).
  { unfold path_exists. apply orb_true_iff. right. apply is_file_true. eauto. }
  rewrite X in H. injection H as <- <- <-. auto.
Qed.

(** A save that creates writes one file, the given content at the path,
    into the initialised store. *)
Lemma save_if_new_created fs p c fs' p' :
  save_if_new fs p c = Ok (fs', (p', true)) ->
  exists fs1,
    ensure_files_exist fs = Ok fs1
    /\ path_exists fs1 p = false
    /\ p' = p
    /\ fs' = mkFs (dirs fs1) (<[p := c]> (files fs1))
    /\ initialised fs'.
Proof.
  unfold save_if_new. intros H.
  destruct (ensure_files_exist fs) as [fs1|] eqn:E; [|discriminate].
  cbn [mbind result_bind] in H. exists fs1.
  destruct (path_exists fs1 p) eqn:X; [discriminate|].
  destruct (write_text fs1 p c) as [fs2|] eqn:W; [|discriminate].
  cbn [mbind result_bind] in H. injection H as <- <-.
  destruct (ensure_files_exist_Ok _ _ E) as [_ I].
  pose proof (initialised_write _ _ _ _ I W) as I2.
  apply write_text_Ok in W as [_ ->]. auto.
Qed.

(** Saving twice: the second save finds the file, changes nothing and
    reports that nothing was created. *)
Lemma save_if_new_twice fs p c fs' c' :
  save_if_new fs p c = Ok (fs', (p, true)) ->
  save_if_new fs' p c' = Ok (fs', (p, false)) /\ files fs' !! p = Some c.
Proof.
  intros H. destruct (save_if_new_created _ _ _ _ _ H) as (fs1 & _ & _ & _ & -> & I).
  unfold save_if_new. rewrite (initialised_stable _ I). cbn [mbind result_bind].
  assert (L : files (mkFs (dirs fs1) (<[p := c]> (files fs1))) !! p = Some c).
  { cbn [files]. apply lookup_insert_eq. }
  assert (X : path_exists (mkFs (dirs fs1) (<[p := c]> (files fs1))) p = true).
  { unfold path_exists. apply orb_true_iff. right. apply is_file_true. eauto. }
  rewrite X. auto.
Qed.

(** With a plain file name (one path component) a save into the slips or
    the reports directory succeeds whenever nothing is at the path. *)
Lemma save_if_new_plain_name fs fs1 dir name c :
  dir = SLIPS_DIR \/ dir = RANGE_DIR ->
  components name = [name] ->
  ensure_files_exist fs = Ok fs1 ->
  path_exists fs1 (path_join dir name) = false ->
  save_if_new fs (path_join dir name) c
  = Ok (mkFs (dirs fs1) (<[path_join dir name := c]> (files fs1)),
        (path_join dir name, true)).
Proof.
  intros Hdir Hname E X. unfold save_if_new. rewrite E. cbn [mbind result_bind].
  rewrite X. destruct (ensure_files_exist_Ok _ _ E) as [_ I].
  destruct I as (Ds & Dr & Fs & Fr & _).
  unfold write_text. apply path_exists_false in X as [Xd _]. rewrite Xd.
  assert (Hp : parent (path_join dir name) = dir).
  { unfold path_join, parent. rewrite Hname.
    destruct Hdir as [-> | ->]; reflexivity. }
  rewrite Hp.
  assert (Hf : is_file fs1 dir = false).
  { apply is_file_false. destruct Hdir as [-> | ->]; assumption. }
  assert (Hd : is_dir fs1 dir = true).
  { apply is_dir_true. right. destruct Hdir as [-> | ->]; assumption. }
  rewrite Hf, Hd. reflexivity.
Qed.

(** C8, where the code fails.  The name of a range report is made of
    sanitized parts, the name of a slip is not: for the party
    [M/s Traders] the slip name is [VNo001_20250810_M/sTraders.txt], its
    path has a directory that does not exist, and the first save on a fresh
    data directory raises FileNotFoundError instead of creating the slip.
    The range report of the same party is saved. *)
Theorem C8_slip_name_with_slash :
  exists r,
    calculate slash_party_sale = Ok r
    /\ slip_filename r = "VNo001_20250810_M/sTraders.txt"%string
    /\ path_join SLIPS_DIR (slip_filename r)
       = ["slips"; "VNo001_20250810_M"; "sTraders.txt"]%string
    /\ save_slip_text_if_new (mkFs ∅ ∅) r "slip" = Raise FileNotFoundError
    /\ exists fs',
         save_range_report_if_new (mkFs ∅ ∅) "2025-08-10T10:00:00" "M/s Traders"
           1 5 "report" (mkDate 2025 8 10)
         = Ok (fs', (["range_reports"; "20250810_V1-5_M_s_Traders.txt"]%string, true)).
Proof.
  eexists. split; [vm_compute; reflexivity|].
  split; [vm_compute; reflexivity|]. split; [vm_compute; reflexivity|].
  split; [vm_compute; reflexivity|].
  eexists. vm_compute. reflexivity.
Qed.

(** C7, where the code fails.  A sale of 100 units at 0.01 has the final
    amount -10.03; its ledger row holds the text [-10.03]; the range report
    splits it into rupees -10 and paise -3 and prints [10.-3], which is not
    the grouped integer part followed by a point and two digits. *)
Theorem C7_negative_amount_text :
  exists r,
    calculate negative_sale = Ok r
    /\ CalculationResult.final_amount r = mkDec (-1003) (-2)
    /\ history_row r "2025-08-10T10:00:00" EmptyString !! "final_amount"
       = Some "-10.03"%string
    /\ amount_text (history_row r "2025-08-10T10:00:00" EmptyString)
       = Ok "10.-3"%string
    /\ snd (voucher_range (Some "12"%string) (Some "12"%string)
              (append_history (mkHistory standard_header []) r
                 "2025-08-10T10:00:00" EmptyString))
       = mkResponse None (Some "1. Ravi (12)  =  10.-3"%string).
Proof.
  eexists. split; [vm_compute; reflexivity|].
  repeat split; vm_compute; reflexivity.
Qed.

Lemma format_indian_number_opp n :
  _format_indian_number (- n) = _format_indian_number n.
Proof. unfold _format_indian_number. now rewrite Z.abs_opp. Qed.

(** C10, where the code fails.  The integer part is printed from the
    absolute value, so a negative whole amount reads like the positive one;
    but the paise keep their sign: -10.03 is printed [10.-3], with a minus
    sign, and 10.03 is printed [10.03]. *)
Theorem C10_negative_amount_keeps_minus :
  amount_text {[ "final_amount" := "-10.03" ]}%string = Ok "10.-3"%string
  /\ amount_text {[ "final_amount" := "10.03" ]}%string = Ok "10.03"%string
  /\ amount_text {[ "final_amount" := "-2.75" ]}%string = Ok "2.-75"%string
  /\ amount_text {[ "final_amount" := "-10.00" ]}%string = Ok "10"%string
  /\ amount_text {[ "final_amount" := "10.00" ]}%string = Ok "10"%string
  /\ (forall n, _format_indian_number (- n) = _format_indian_number n).
Proof.
  repeat split; try (vm_compute; reflexivity). apply format_indian_number_opp.
Qed.

(** ** More on the calculation engine *)

Lemma round_sig_id x : Z.abs x < 10 ^ 28 -> round_sig x = x.
Proof.
  intros H. unfold round_sig. pose proof prec_eq as Hp.
  destruct (Z.eq_dec x 0) as [->|Hx]; [now rewrite ndigits_0, Hp|].
  pose proof (ndigits_lt_pow x 28 ltac:(lia) H Hx).
  destruct (Z.leb_spec (ndigits x) prec); [reflexivity|lia].
Qed.

(** What a successful 2-place quantization returns, read at a scale [m]
    below the exponent of the value. *)
Lemma quantize_money_value d q m :
  _quantize_money d = Ok q -> m <= dexp d -> m <= -2 ->
  q = mkDec (round_div (at_scale d m) (10 ^ (-2 - m))) (-2).
Proof.
  unfold _quantize_money. intros H Hm Hm2. apply quantize_Ok in H. subst q.
  change (dexp d_0_01) with (-2).
  pose proof (rescale_at d (-2) m Hm Hm2) as Hc.
  pose proof (dexp_rescale d (-2)) as He.
  destruct (rescale d (-2)) as [c e]. cbn in Hc, He. now subst.
Qed.

Lemma quantize_money_digits d q :
  _quantize_money d = Ok q -> coef q = 0 \/ ndigits (coef q) <= prec.
Proof.
  unfold _quantize_money, quantize.
  destruct (coef d =? 0); [intros [= <-]; now left|].
  destruct (prec <? _); [discriminate|].
  destruct (Z.ltb_spec prec (ndigits (coef (rescale d (dexp d_0_01)))));
    [discriminate|].
  intros [= <-]. now right.
Qed.

Lemma quantize_money_fixpoint q :
  dexp q = -2 -> coef q = 0 \/ ndigits (coef q) <= prec -> _quantize_money q = Ok q.
Proof.
  destruct q as [c e]. cbn [coef dexp]. intros -> H.
  unfold _quantize_money, quantize. cbn [coef dexp d_0_01].
  destruct (Z.eqb_spec c 0) as [->|Hc]; [reflexivity|].
  destruct H as [H|H]; [contradiction|].
  unfold adjusted. cbn [coef dexp].
  destruct (Z.ltb_spec prec (-2 + ndigits c - 1 - -2 + 1)); [lia|].
  unfold rescale. cbn [coef dexp]. change (-2 <=? -2) with true. cbv iota.
  change (10 ^ (-2 - -2)) with 1. rewrite Z.mul_1_r. cbn [coef].
  destruct (Z.ltb_spec prec (ndigits c)); [lia|reflexivity].
Qed.

(** Quantization idempotence: a value that [_quantize_money] returned is
    returned unchanged when it is quantized again. *)
Theorem quantize_money_idempotent d q :
  _quantize_money d = Ok q -> _quantize_money q = Ok q.
Proof.
  intros H. apply quantize_money_fixpoint.
  - exact (quantize_money_dexp _ _ H).
  - exact (quantize_money_digits _ _ H).
Qed.

Lemma quantize_money_idempotent_witness :
  _quantize_money (mkDec 12345 (-3)) = Ok (mkDec 1234 (-2))
  /\ _quantize_money (mkDec 1234 (-2)) = Ok (mkDec 1234 (-2)).
Proof.
  assert (H : _quantize_money (mkDec 12345 (-3)) = Ok (mkDec 1234 (-2)))
    by (vm_compute; reflexivity).
  split; [exact H|]. exact (quantize_money_idempotent _ _ H).
Defined.

(** [_quantize_money] is rounding to the nearest hundredth, a tie going
    to the even hundredth: whenever it returns, the result has exponent -2
    and its coefficient is the value, read in units of [10 ^ m] for any
    [m] not above -2 and the exponent of the value, divided by
    [10 ^ (-2 - m)] and rounded half-even; a value with at most two
    decimals is returned exactly.  It returns for every value of
    magnitude at most [10 ^ 25]. *)
Theorem quantize_money_nearest_hundredth d :
  (forall q m, _quantize_money d = Ok q -> m <= dexp d -> m <= -2 ->
     dexp q = -2
     /\ nearest_half_even (coef q) (at_scale d m) (10 ^ (-2 - m)))
  /\ (forall q, _quantize_money d = Ok q -> -2 <= dexp d ->
        coef q = at_scale d (-2))
  /\ (mag_le d 25 -> exists q, _quantize_money d = Ok q).
Proof.
  split; [|split].
  - intros q m H Hm Hm2. rewrite (quantize_money_value d q m H Hm Hm2).
    cbn [coef dexp]. split; [reflexivity|].
    apply nearest_half_even_round_div. apply pow10_gt0. lia.
  - intros q H Hd. rewrite (quantize_money_value d q (-2) H Hd ltac:(lia)).
    cbn [coef]. change (10 ^ (-2 - -2)) with 1. apply round_div_1.
  - intros H. unfold _quantize_money.
    apply (quantize_succeeds d d_0_01 25 H); pose proof prec_eq; cbn; lia.
Qed.

Lemma quantize_money_nearest_hundredth_witness :
  _quantize_money (mkDec 12345 (-3)) = Ok (mkDec 1234 (-2))
  /\ nearest_half_even 1234 12345 10.
Proof.
  assert (H : _quantize_money (mkDec 12345 (-3)) = Ok (mkDec 1234 (-2)))
    by (vm_compute; reflexivity).
  split; [exact H|].
  exact (proj2 (proj1 (quantize_money_nearest_hundredth (mkDec 12345 (-3)))
                  (mkDec 1234 (-2)) (-3) H ltac:(vm_compute; discriminate)
                  ltac:(vm_compute; discriminate))).
Defined.

(** ** The calculation in whole paise *)

Lemma at_scale_of_int n : at_scale (of_int n) 0 = n.
Proof. unfold at_scale, of_int. cbn. lia. Qed.

Lemma dec_div_11_100 : dec_div d_11 d_100 = Ok (mkDec 11 (-2)).
Proof. vm_compute. reflexivity. Qed.

(** The amounts before quantization, for a price of at most two decimals
    and the default labor rate, read in units of [10 ^ -4]. *)
Lemma amounts_at_scale n w p :
  0 <= w < n -> n <= 10 ^ 12 -> 0 < coef p -> -2 <= dexp p ->
  at_scale p (-2) <= 10 ^ 12 ->
  let G := (n - w) * at_scale p (-2) in
  let gross := dec_mul (of_int (n - w)) p in
  let tax := dec_mul gross d_0_01 in
  let labor := dec_mul (of_int n) (mkDec 11 (-2)) in
  let final := dec_sub (dec_sub gross tax) labor in
  -2 <= dexp gross /\ at_scale gross (-2) = G
  /\ -4 <= dexp tax /\ at_scale tax (-4) = G
  /\ -2 <= dexp labor /\ at_scale labor (-2) = 11 * n
  /\ -4 <= dexp final /\ at_scale final (-4) = 99 * G - 1100 * n.
Proof.
  intros Hw Hn Hc Hd HP G gross tax labor final.
  assert (HP0 : 0 < at_scale p (-2)).
  { unfold at_scale. apply Z.mul_pos_pos; [assumption|apply pow10_gt0; lia]. }
  assert (HG : 0 <= G <= 10 ^ 24).
  { unfold G. change (10 ^ 24) with (10 ^ 12 * 10 ^ 12). split; [nia|].
    apply Z.mul_le_mono_nonneg; lia. }
  assert (Eg : at_scale gross (-2) = G).
  { unfold gross. change (-2) with (0 + -2) at 1.
    rewrite dec_mul_at_scale by (cbn; lia). rewrite at_scale_of_int.
    apply round_sig_id. fold G. lia. }
  assert (Dg : -2 <= dexp gross).
  { unfold gross. pose proof (dexp_mul_ge (of_int (n - w)) p). cbn in *. lia. }
  assert (Et : at_scale tax (-4) = G).
  { unfold tax. change (-4) with (-2 + -2).
    rewrite dec_mul_at_scale by (cbn; lia). rewrite Eg.
    change (at_scale d_0_01 (-2)) with 1. rewrite Z.mul_1_r.
    apply round_sig_id. lia. }
  assert (Dt : -4 <= dexp tax).
  { unfold tax. pose proof (dexp_mul_ge gross d_0_01). cbn in *. lia. }
  assert (El : at_scale labor (-2) = 11 * n).
  { unfold labor. change (-2) with (0 + -2) at 2.
    rewrite dec_mul_at_scale by (cbn; lia). rewrite at_scale_of_int.
    change (at_scale (mkDec 11 (-2)) (-2)) with 11.
    rewrite round_sig_id by lia. lia. }
  assert (Dl : -2 <= dexp labor).
  { unfold labor. pose proof (dexp_mul_ge (of_int n) (mkDec 11 (-2))). cbn in *. lia. }
  assert (Dgt : -4 <= dexp (dec_sub gross tax)).
  { pose proof (dexp_sub_ge gross tax). lia. }
  assert (Egt : at_scale (dec_sub gross tax) (-4) = 99 * G).
  { rewrite dec_sub_at_scale by lia. rewrite Et.
    rewrite (at_scale_shift gross (-2) (-4)) by lia. rewrite Eg.
    change (10 ^ (-2 - -4)) with 100. rewrite round_sig_id by lia. lia. }
  assert (Df : -4 <= dexp final).
  { unfold final. pose proof (dexp_sub_ge (dec_sub gross tax) labor). lia. }
  assert (Ef : at_scale final (-4) = 99 * G - 1100 * n).
  { unfold final. rewrite dec_sub_at_scale by lia. rewrite Egt.
    rewrite (at_scale_shift labor (-2) (-4)) by lia. rewrite El.
    change (10 ^ (-2 - -4)) with 100. rewrite round_sig_id by lia. lia. }
  repeat split; assumption.
Qed.

(** The result of [calculate] for a price of at most two decimals and the
    default labor rate, in integer arithmetic on paise. *)
Lemma calculate_paise i :
  let n := CalculationInput.total_nuts i in
  let p := CalculationInput.price_each_rupees i in
  let P := at_scale p (-2) in
  let w := round_div (22 * n) 1000 in
  let G := (n - w) * P in
  ~ invalid_input i -> n <= 10 ^ 12 -> -2 <= dexp p -> P <= 10 ^ 12 ->
  CalculationInput.labor_percent i = d_11 ->
  calculate i =
  Ok (CalculationResult.mk
        (CalculationInput.invoice_no i) (CalculationInput.client_no i)
        (CalculationInput.client_name i) (CalculationInput.date i)
        n (mkDec P (-2)) d_11 w (n - w)
        (mkDec G (-2)) (mkDec (round_div G 100) (-2)) (mkDec (11 * n) (-2))
        (mkDec (round_div (99 * G - 1100 * n) 100) (-2))).
Proof.
  intros n p P w G Hv Hn Hd HP Hl.
  assert (Hn0 : 0 < n) by (unfold invalid_input in Hv; fold n in Hv; lia).
  assert (Hc : 0 < coef p) by (unfold invalid_input in Hv; fold p in Hv; lia).
  assert (Hw : _round_waste_to_nearest_integer_half_even n = Ok w).
  { apply round_waste_exact; lia. }
  pose proof (round_waste_bounds n w ltac:(lia) Hw) as Hwb.
  destruct (amounts_at_scale n w p Hwb Hn Hc Hd HP)
    as (Dg & Eg & Dt & Et & Dl & El & Df & Ef).
  fold P in Eg, Et, Ef. fold G in Eg, Et, Ef.
  assert (Hpl : dle p (mkDec 1 10)).
  { apply (dle_at p (mkDec 1 10) (-2)); [lia|cbn; lia|]. exact HP. }
  assert (Hml : mag_le (CalculationInput.labor_percent i) 12).
  { rewrite Hl. split; vm_compute; discriminate. }
  destruct (calculate_total i Hv Hn Hpl Hml) as [r Hr].
  destruct (calculate_Ok i r Hr) as [_ (w' & rate & Hw' & Hrate & Hq)].
  fold n in Hw'. rewrite Hw in Hw'. injection Hw' as <-.
  rewrite Hl, dec_div_11_100 in Hrate. injection Hrate as <-.
  cbv zeta in Hq. fold n p in Hq.
  destruct Hq as (Hg & Ht & Hlab & Hf & Hp & E1 & E2 & E3 & E4 & E5 & E6 & E7 & E8).
  rewrite Hr. f_equal.
  apply (quantize_money_value _ _ (-2)) in Hg; [|lia..]. rewrite Eg in Hg.
  apply (quantize_money_value _ _ (-4)) in Ht; [|lia..]. rewrite Et in Ht.
  apply (quantize_money_value _ _ (-2)) in Hlab; [|lia..]. rewrite El in Hlab.
  apply (quantize_money_value _ _ (-4)) in Hf; [|lia..]. rewrite Ef in Hf.
  apply (quantize_money_value _ _ (-2)) in Hp; [|lia..]. fold P in Hp.
  change (10 ^ (-2 - -2)) with 1 in Hg, Hlab, Hp.
  change (10 ^ (-2 - -4)) with 100 in Ht, Hf.
  rewrite round_div_1 in Hg, Hlab, Hp.
  destruct r; cbn in *. rewrite Hg, Ht, Hlab, Hf, Hp, E1, E2, E3, E4, E5, E6, E7, E8, Hl.
  reflexivity.
Qed.

(** [calculate] in integer arithmetic.  For an input that passes the four
    checks, with at most [10 ^ 12] units, a price of at most two decimals
    and at most [10 ^ 10] rupees, and the default labor rate of 11, every
    figure of the result is exact integer arithmetic on paise: with [P] the
    price in paise, [w] the half-even rounding of [22 * n / 1000] and
    [G = (n - w) * P], the gross amount is [G] paise, the tax is [G / 100]
    rounded half-even, the labor charge is [11 * n] paise and the final
    amount is [(99 * G - 1100 * n) / 100] rounded half-even; the price is
    echoed on two decimals. *)
Theorem calculate_in_paise (i : CalculationInput.t) :
  let n := CalculationInput.total_nuts i in
  let p := CalculationInput.price_each_rupees i in
  let P := at_scale p (-2) in
  let w := round_div (22 * n) 1000 in
  let G := (n - w) * P in
  ~ invalid_input i -> n <= 10 ^ 12 -> -2 <= dexp p -> P <= 10 ^ 12 ->
  CalculationInput.labor_percent i = d_11 ->
  calculate i =
  Ok (CalculationResult.mk
        (CalculationInput.invoice_no i) (CalculationInput.client_no i)
        (CalculationInput.client_name i) (CalculationInput.date i)
        n (mkDec P (-2)) d_11 w (n - w)
        (mkDec G (-2)) (mkDec (round_div G 100) (-2)) (mkDec (11 * n) (-2))
        (mkDec (round_div (99 * G - 1100 * n) 100) (-2))).
Proof. exact (calculate_paise i). Qed.

Lemma calculate_in_paise_witness :
  ~ invalid_input sample_input
  /\ calculate sample_input =
     Ok (CalculationResult.mk "001" 1 "Client 01" (mkDate 2025 8 10) 5670
           (mkDec 2200 (-2)) d_11 125 5545
           (mkDec 12199000 (-2)) (mkDec 121990 (-2)) (mkDec 62370 (-2))
           (mkDec 12014640 (-2))).
Proof.
  assert (Hv : ~ invalid_input sample_input).
  { unfold invalid_input. cbn. intros [?|[?|[?|?]]]; solve [lia | discriminate]. }
  split; [exact Hv|].
  exact (calculate_in_paise sample_input Hv ltac:(vm_compute; discriminate)
           ltac:(vm_compute; discriminate) ltac:(vm_compute; discriminate)
           eq_refl).
Defined.

(** The figures of a slip add up, to one paisa.  Under the conditions of
    [calculate_in_paise] the four amounts are whole paise, and the final
    amount differs from gross - tax - labor by at most one paisa; they are
    equal unless the gross amount ends in exactly 50 paise, where the tax
    and the final amount are both ties of the half-even rounding. *)
Theorem final_is_gross_less_tax_less_labor (i : CalculationInput.t)
    (r : CalculationResult.t) :
  calculate i = Ok r ->
  CalculationInput.total_nuts i <= 10 ^ 12 ->
  -2 <= dexp (CalculationInput.price_each_rupees i) ->
  at_scale (CalculationInput.price_each_rupees i) (-2) <= 10 ^ 12 ->
  CalculationInput.labor_percent i = d_11 ->
  let g := coef (CalculationResult.gross_amount r) in
  let t := coef (CalculationResult.tax_amount r) in
  let l := coef (CalculationResult.labor_charges r) in
  let f := coef (CalculationResult.final_amount r) in
  dexp (CalculationResult.gross_amount r) = -2
  /\ dexp (CalculationResult.tax_amount r) = -2
  /\ dexp (CalculationResult.labor_charges r) = -2
  /\ dexp (CalculationResult.final_amount r) = -2
  /\ Z.abs (f - (g - t - l)) <= 1
  /\ (g mod 100 <> 50 -> f = g - t - l).
Proof.
  intros Hr Hn Hd HP Hl.
  destruct (calculate_Ok i r Hr) as [Hv _].
  rewrite (calculate_paise i Hv Hn Hd HP Hl) in Hr. injection Hr as <-.
  cbn [CalculationResult.gross_amount CalculationResult.tax_amount
       CalculationResult.labor_charges CalculationResult.final_amount coef dexp].
  set (n := CalculationInput.total_nuts i).
  set (G := (n - round_div (22 * n) 1000)
            * at_scale (CalculationInput.price_each_rupees i) (-2)).
  repeat (split; [reflexivity|]).
  destruct (round_div_spec G 100 ltac:(lia)) as [Ht Ht'].
  destruct (round_div_spec (99 * G - 1100 * n) 100 ltac:(lia)) as [Hf Hf'].
  set (t := round_div G 100) in *.
  set (f := round_div (99 * G - 1100 * n) 100) in *.
  split; [lia|].
  intros Hmod.
  assert (2 * Z.abs (t * 100 - G) <> 100).
  { intros E. apply Hmod. pose proof (Z.div_mod G 100 ltac:(lia)).
    pose proof (Z.mod_pos_bound G 100 ltac:(lia)). lia. }
  lia.
Qed.

Lemma final_is_gross_less_tax_less_labor_witness :
  let i := CalculationInput.mk "7" 0 "Ravi" 1 (mkDec 50 (-2)) (mkDate 2025 8 10) d_11 in
  exists r,
    calculate i = Ok r
    /\ CalculationResult.gross_amount r = mkDec 50 (-2)
    /\ CalculationResult.tax_amount r = mkDec 0 (-2)
    /\ CalculationResult.labor_charges r = mkDec 11 (-2)
    /\ CalculationResult.final_amount r = mkDec 38 (-2)
    /\ Z.abs (coef (CalculationResult.final_amount r)
              - (coef (CalculationResult.gross_amount r)
                 - coef (CalculationResult.tax_amount r)
                 - coef (CalculationResult.labor_charges r))) <= 1.
Proof.
  intros i.
  destruct (calculate i) as [r|] eqn:E; [|vm_compute in E; discriminate].
  exists r. split; [reflexivity|].
  pose proof (final_is_gross_less_tax_less_labor i r E
                ltac:(vm_compute; discriminate) ltac:(vm_compute; discriminate)
                ltac:(vm_compute; discriminate) eq_refl) as (_ & _ & _ & _ & H & _).
  split; [|split; [|split; [|split; [|exact H]]]];
    vm_compute in E; injection E as <-; reflexivity.
Defined.

(** ** More on the ledger *)

Lemma dedup_from_fixed seen l :
  NoDup (dedup_key <$> l) -> (forall r, r ∈ l -> dedup_key r ∉ seen) ->
  dedup_from seen l = l.
Proof.
  revert seen. induction l as [|x l IH]; intros seen Hnd Hs; [reflexivity|].
  rewrite fmap_cons in Hnd. apply NoDup_cons in Hnd as [Hx Hnd].
  cbn [dedup_from]. destruct (decide _) as [Hin|_].
  - exfalso. apply (Hs x); [left|exact Hin].
  - f_equal. apply IH; [exact Hnd|]. intros r Hr Hin.
    apply elem_of_union in Hin as [Hin|Hin].
    + apply elem_of_singleton in Hin. apply Hx. rewrite <- Hin.
      apply list_elem_of_fmap. now exists r.
    + apply (Hs r); [now right|exact Hin].
Qed.

Lemma dedup_from_idem l : dedup_from ∅ (dedup_from ∅ l) = dedup_from ∅ l.
Proof.
  apply dedup_from_fixed; [apply dedup_from_NoDup|].
  intros r _. apply not_elem_of_empty.
Qed.

(** Deduplicating a deduplicated ledger changes nothing: the second run
    removes no row and leaves header and rows as the first run wrote them. *)
Theorem deduplicate_history_idempotent (h : history) :
  deduplicate_history (fst (deduplicate_history h))
  = (fst (deduplicate_history h), O).
Proof.
  unfold deduplicate_history at 2 3.
  destruct (hrows h) as [|r0 rest] eqn:E.
  - cbn [fst]. unfold deduplicate_history. now rewrite E.
  - rewrite <- E. clear E r0 rest.
    set (rows := if bool_decide _ then hrows h else _).
    set (header := if bool_decide _ then hheader h else _).
    rewrite (dedup_loop_from rows ∅ [] O). cbn [app fst].
    assert (Hh : bool_decide ("party_name"%string ∈ header) = true).
    { apply bool_decide_eq_true. subst header.
      destruct (bool_decide ("party_name"%string ∈ hheader h)) eqn:Eh.
      - now apply bool_decide_eq_true in Eh.
      - apply elem_of_app. right. now left. }
    unfold deduplicate_history. cbn [hrows hheader].
    destruct (dedup_from ∅ rows) as [|k ks] eqn:Ek; [reflexivity|].
    rewrite Hh. rewrite (dedup_loop_from (k :: ks) ∅ [] O).
    rewrite <- Ek, dedup_from_idem. cbn [app]. f_equal. lia.
Qed.

Lemma get_or_present (r : row) k1 k2 v :
  r !! k1 = Some v -> r !! k2 = None -> get_or r k1 k2 EmptyString = v.
Proof. unfold get_or. intros -> ->. now destruct v. Qed.

Lemma history_row_lookup res t p :
  history_row res t p !! "client_name"%string = Some (CalculationResult.client_name res)
  /\ history_row res t p !! "Name"%string = None
  /\ history_row res t p !! "v_no"%string = Some (CalculationResult.invoice_no res)
  /\ history_row res t p !! "V.No."%string = None
  /\ history_row res t p !! "final_amount"%string
     = Some (fmt_2f (CalculationResult.final_amount res))
  /\ history_row res t p !! "Amount"%string = None.
Proof.
  unfold history_row. cbn [list_to_map foldr fst snd].
  repeat split;
    repeat (rewrite lookup_insert_ne by discriminate);
    first [apply lookup_insert_eq | apply lookup_empty].
Qed.

(** The key of a row written by [append_history]: the name, the voucher
    id and the amount text of the result; the creation time and the party
    do not enter. *)
Lemma history_row_key res t p :
  dedup_key (history_row res t p)
  = (lower (strip (CalculationResult.client_name res)),
     strip (CalculationResult.invoice_no res),
     strip (fmt_2f (CalculationResult.final_amount res))).
Proof.
  destruct (history_row_lookup res t p) as (H1 & H2 & H3 & H4 & H5 & H6).
  unfold dedup_key.
  now rewrite (get_or_present _ _ _ _ H1 H2), (get_or_present _ _ _ _ H3 H4),
    (get_or_present _ _ _ _ H5 H6).
Qed.

Lemma dedup_input_app h r :
  "party_name"%string ∈ hheader h ->
  dedup_input (mkHistory (hheader h) (hrows h ++ [r])) = dedup_input h ++ [r].
Proof.
  intros H. unfold dedup_input. cbn [hheader hrows].
  now rewrite (bool_decide_eq_true_2 _ H).
Qed.

(** Under the standard header the written line reads back as
    [history_row]. *)
Lemma dict_row_standard res t p :
  dict_row standard_header (history_values res t p) = history_row res t p.
Proof.
  unfold dict_row, history_values, standard_header, history_row.
  cbn [length drop foldr zip zip_with].
  symmetry. apply list_to_map_proper; [|symmetry; apply reverse_Permutation].
  cbn [fmap list_fmap fst]. apply (bool_decide_unpack _). vm_compute. reflexivity.
Qed.

Lemma append_history_standard h res t p :
  hheader h = standard_header ->
  append_history h res t p
  = mkHistory standard_header (hrows h ++ [history_row res t p]).
Proof.
  intros Hh. unfold append_history, _ensure_history_has_party_column.
  rewrite Hh. rewrite bool_decide_eq_true_2 by (vm_compute; repeat constructor).
  cbv zeta. rewrite Hh, dict_row_standard. reflexivity.
Qed.

(** Saving one result twice leaves one row.  On a ledger with the
    standard header, appending the same calculation result a second time
    (at another time, for another party) and deduplicating gives the rows
    that deduplicating after the first append gives, and counts one more
    removed row. *)
Theorem second_append_is_removed (h : history) (res : CalculationResult.t)
    (t1 p1 t2 p2 : string) :
  hheader h = standard_header ->
  writable res ->
  let h1 := append_history h res t1 p1 in
  let h2 := append_history h1 res t2 p2 in
  hrows (fst (deduplicate_history h2)) = hrows (fst (deduplicate_history h1))
  /\ snd (deduplicate_history h2) = S (snd (deduplicate_history h1)).
Proof.
  intros Hh _ h1 h2.
  assert (Hp : "party_name"%string ∈ standard_header) by (vm_compute; repeat constructor).
  assert (E1' : h1 = mkHistory standard_header (hrows h ++ [history_row res t1 p1]))
    by exact (append_history_standard h res t1 p1 Hh).
  assert (E2' : h2 = mkHistory standard_header (hrows h1 ++ [history_row res t2 p2])).
  { apply append_history_standard. now rewrite E1'. }
  destruct (deduplicate_history_rows h1) as [R1 N1].
  destruct (deduplicate_history_rows h2) as [R2 N2].
  rewrite R1, R2, N1, N2.
  assert (E2 : dedup_input h2 = dedup_input h1 ++ [history_row res t2 p2]).
  { rewrite E2'. replace standard_header with (hheader h1) by now rewrite E1'.
    apply dedup_input_app. now rewrite E1'. }
  assert (E1 : dedup_input h1 = dedup_input h ++ [history_row res t1 p1]).
  { rewrite E1', <- Hh. apply dedup_input_app. now rewrite Hh. }
  assert (E : dedup_from ∅ (dedup_input h2) = dedup_from ∅ (dedup_input h1)).
  { rewrite E2. rewrite <- (app_nil_r (dedup_input h1)) at 2.
    apply dedup_from_later. right. rewrite E1, fmap_app, elem_of_app. right.
    apply list_elem_of_fmap. exists (history_row res t1 p1).
    split; [now rewrite !history_row_key|now left]. }
  rewrite E. split; [reflexivity|].
  rewrite E2, length_app. cbn [length].
  pose proof (dedup_from_length ∅ (dedup_input h1)). lia.
Qed.

Lemma second_append_is_removed_witness :
  exists r,
    calculate sample_input = Ok r
    /\ let h1 := append_history (mkHistory standard_header []) r "t1" "A" in
       let h2 := append_history h1 r "t2" "B" in
       hrows (fst (deduplicate_history h2)) = hrows (fst (deduplicate_history h1))
       /\ snd (deduplicate_history h2) = S (snd (deduplicate_history h1)).
Proof.
  destruct (calculate sample_input) as [r|] eqn:E; [|vm_compute in E; discriminate].
  exists r. split; [reflexivity|].
  assert (Hw : writable r).
  { assert (Er : Ok r = calculate sample_input) by (now rewrite E).
    vm_compute in Er. injection Er as ->.
    unfold writable. cbn. repeat split; vm_compute; reflexivity. }
  exact (second_append_is_removed (mkHistory standard_header []) r "t1" "A" "t2" "B"
           eq_refl Hw).
Defined.

(** ** Texts *)

Lemma app_cons c s t : String c s +:+ t = String c (s +:+ t).
Proof. reflexivity. Qed.

Lemma app_empty_l s : EmptyString +:+ s = s.
Proof. reflexivity. Qed.

Lemma all_chars_app p s t : all_chars p (s +:+ t) = all_chars p s && all_chars p t.
Proof.
  induction s as [|c s IH]; [reflexivity|].
  rewrite app_cons. cbn [all_chars]. now rewrite IH, andb_assoc.
Qed.

Lemma all_chars_impl (p q : ascii -> bool) s :
  (forall c, p c = true -> q c = true) -> all_chars p s = true -> all_chars q s = true.
Proof.
  intros H. induction s as [|c s IH]; [reflexivity|]. cbn [all_chars].
  rewrite !andb_true_iff. intros [Hc Hs]. auto.
Qed.

Lemma app_empty_r s : s +:+ EmptyString = s.
Proof. induction s as [|c s IH]; [reflexivity|]. rewrite !app_cons. cbn [String.length]. now rewrite IH. Qed.

Lemma app_assoc' s t u : (s +:+ t) +:+ u = s +:+ (t +:+ u).
Proof. induction s as [|c s IH]; [reflexivity|]. rewrite !app_cons. cbn [String.length]. now rewrite IH. Qed.

Lemma length_app' s t : String.length (s +:+ t) = (String.length s + String.length t)%nat.
Proof. induction s as [|c s IH]; [reflexivity|]. rewrite !app_cons. cbn [String.length]. now rewrite IH. Qed.

(** *** [str(n)] *)

Lemma pretty_N_go_app x s : pretty_N_go x s = pretty_N_go x EmptyString +:+ s.
Proof.
  revert s. induction (N.lt_wf_0 x) as [x _ IH]. intros s.
  destruct (N.eq_dec x 0%N) as [->|Hx]; [now rewrite !pretty_N_go_0|].
  rewrite !(pretty_N_go_step x) by lia.
  rewrite (IH (x `div` 10)%N) by (apply N.div_lt; lia).
  rewrite (IH (x `div` 10)%N ltac:(apply N.div_lt; lia) (String _ EmptyString)).
  now rewrite app_assoc'.
Qed.

Lemma pretty_N_go_snoc x :
  (0 < x)%N ->
  pretty_N_go x EmptyString
  = pretty_N_go (x `div` 10)%N EmptyString
    +:+ String (pretty_N_char (x `mod` 10)%N) EmptyString.
Proof. intros H. rewrite pretty_N_go_step by exact H. apply pretty_N_go_app. Qed.

Lemma pretty_N_char_digit x :
  (x < 10)%N ->
  isdigit (pretty_N_char x) = true /\ digit_value (pretty_N_char x) = Z.of_N x.
Proof.
  intros H.
  assert (x = 0 \/ x = 1 \/ x = 2 \/ x = 3 \/ x = 4 \/ x = 5 \/ x = 6 \/ x = 7
          \/ x = 8 \/ x = 9)%N as Hx by lia.
  repeat (destruct Hx as [->|Hx]; [split; reflexivity|]). subst. split; reflexivity.
Qed.

Lemma digits_value_app acc s t :
  digits_value acc (s +:+ t) = digits_value (digits_value acc s) t.
Proof.
  revert acc. induction s as [|c s IH]; intros acc; [reflexivity|]. rewrite app_cons. cbn [digits_value]. apply IH.
Qed.

(** The text of a positive number: digits only, not empty, the number as
    its value, no zero in front. *)
Lemma pretty_N_go_digits x :
  all_chars isdigit (pretty_N_go x EmptyString) = true
  /\ digits_value 0 (pretty_N_go x EmptyString) = Z.of_N x
  /\ ((0 < x)%N -> exists c s, pretty_N_go x EmptyString = String c s /\ c <> "0"%char).
Proof.
  induction (N.lt_wf_0 x) as [x _ IH].
  destruct (N.eq_dec x 0%N) as [->|Hx].
  { rewrite pretty_N_go_0. repeat split. intros H. lia. }
  rewrite pretty_N_go_snoc by lia.
  destruct (IH (x `div` 10)%N ltac:(apply N.div_lt; lia)) as (A & V & F).
  destruct (pretty_N_char_digit (x `mod` 10)%N ltac:(apply N.mod_lt; lia)) as [D W].
  split; [|split].
  - rewrite all_chars_app, A. cbn [all_chars andb]. now rewrite D.
  - rewrite digits_value_app, V. cbn [digits_value]. rewrite W.
    rewrite (N.div_mod x 10) at 3 by lia. lia.
  - intros _. destruct (N.eq_dec (x `div` 10)%N 0%N) as [E0|E0].
    + rewrite E0, pretty_N_go_0, app_empty_l. eexists _, _. split; [reflexivity|].
      assert (Hm : (x `mod` 10 = x)%N).
      { rewrite (N.div_mod x 10) at 2 by lia. rewrite E0. lia. }
      rewrite Hm.
      assert (Hlt : (x < 10)%N) by (rewrite <- Hm; apply N.mod_lt; lia).
      assert (x = 1 \/ x = 2 \/ x = 3 \/ x = 4 \/ x = 5 \/ x = 6 \/ x = 7
              \/ x = 8 \/ x = 9)%N as Hc by lia.
      repeat (destruct Hc as [->|Hc]; [discriminate|]). subst. discriminate.
    + assert (Hpos : (0 < x `div` 10)%N) by (apply N.neq_0_lt_0; exact E0).
      destruct (F Hpos) as (c & s & -> & Hc). rewrite app_cons. eauto.
Qed.

Lemma pretty_N_eq x : (0 < x)%N -> pretty x = pretty_N_go x EmptyString.
Proof.
  intros H. unfold pretty, pretty_N. destruct (decide (x = 0%N)); [lia|reflexivity].
Qed.

Lemma pretty_Z_nonneg z :
  0 <= z ->
  all_chars isdigit (pretty z) = true
  /\ digits_value 0 (pretty z) = z
  /\ pretty z <> EmptyString.
Proof.
  intros H. destruct z as [|q|q]; [repeat split; discriminate| |lia].
  change (pretty (Z.pos q)) with (pretty (N.pos q)).
  rewrite pretty_N_eq by lia.
  destruct (pretty_N_go_digits (N.pos q)) as (A & V & F).
  split; [exact A|]. split; [exact V|].
  assert (Hpos : (0 < N.pos q)%N) by lia.
  destruct (F Hpos) as (c & s & -> & _). discriminate.
Qed.

Lemma pretty_Z_neg z : z < 0 -> pretty z = "-" +:+ pretty (- z).
Proof. intros H. destruct z as [|q|q]; [lia|lia|reflexivity]. Qed.

Lemma pretty_nat_Z (n : nat) : pretty n = pretty (Z.of_nat n).
Proof.
  destruct n as [|n]; reflexivity.
Qed.

(** *** [int(s)] after [str(n)] *)

Lemma lstrip_chars_head p c s : p c = false -> lstrip_chars p (String c s) = String c s.
Proof. intros H. cbn [lstrip_chars]. now rewrite H. Qed.

Lemma rstrip_chars_none p s :
  all_chars (fun c => negb (p c)) s = true -> rstrip_chars p s = s.
Proof.
  induction s as [|c s IH]; [reflexivity|]. cbn [all_chars rstrip_chars].
  rewrite andb_true_iff, negb_true_iff. intros [Hc Hs]. now rewrite (IH Hs), Hc.
Qed.

Lemma strip_chars_none p s :
  all_chars (fun c => negb (p c)) s = true -> strip_chars p s = s.
Proof.
  intros H. unfold strip_chars. rewrite (rstrip_chars_none p s H).
  destruct s as [|c s]; [reflexivity|]. cbn [all_chars] in H.
  apply andb_true_iff in H as [Hc _]. apply negb_true_iff in Hc.
  now apply lstrip_chars_head.
Qed.

Lemma isdigit_not_space c : isdigit c = true -> negb (isspace c) = true.
Proof.
  unfold isdigit, isspace. rewrite andb_true_iff, !Z.leb_le. intros [H1 H2].
  apply negb_true_iff, orb_false_iff. split; apply andb_false_iff.
  - right. apply Z.leb_gt. lia.
  - right. apply Z.leb_gt. lia.
Qed.

Lemma parse_digits_digits b acc s :
  all_chars isdigit s = true ->
  parse_digits b acc s
  = if is_empty s then (if b then None else Some acc) else Some (digits_value acc s).
Proof.
  revert b acc. induction s as [|c s IH]; intros b acc H; [reflexivity|].
  cbn [all_chars] in H. apply andb_true_iff in H as [Hc Hs].
  cbn [parse_digits is_empty digits_value]. rewrite Hc, (IH false _ Hs).
  now destruct s.
Qed.

Lemma isdigit_not_space_c c : isdigit c = true -> negb (isspace_c c) = true.
Proof.
  unfold isdigit, isspace_c. rewrite andb_true_iff, !Z.leb_le. intros [H1 H2].
  apply negb_true_iff, orb_false_iff. split.
  - apply andb_false_iff. right. apply Z.leb_gt. lia.
  - apply Z.eqb_neq. lia.
Qed.

Lemma count_digits_all s :
  all_chars isdigit s = true -> count_digits s = Z.of_nat (String.length s).
Proof.
  induction s as [|c s IH]; [reflexivity|]. cbn [all_chars count_digits String.length].
  intros [Hc Hs]%andb_true_iff. rewrite Hc, (IH Hs). lia.
Qed.

(** A number below [10 ^ k] is written on at most [k] digits. *)
Lemma length_pretty_N_go_le (k : nat) (x : N) :
  (x < 10 ^ N.of_nat k)%N ->
  (String.length (pretty_N_go x EmptyString) <= k)%nat.
Proof.
  revert x. induction k as [|k IH]; intros x Hx.
  - assert (x = 0%N) by (change (10 ^ N.of_nat 0)%N with 1%N in Hx; lia). subst x.
    rewrite pretty_N_go_0. cbn. lia.
  - destruct (N.eq_dec x 0%N) as [->|Hne].
    { rewrite pretty_N_go_0. cbn. lia. }
    rewrite pretty_N_go_snoc by lia. rewrite length_app'. cbn [String.length].
    assert (Hd : (x `div` 10 < 10 ^ N.of_nat k)%N).
    { apply N.Div0.div_lt_upper_bound.
      rewrite Nat2N.inj_succ, N.pow_succ_r' in Hx. exact Hx. }
    specialize (IH _ Hd). lia.
Qed.

Lemma length_pretty_Z_le (k : nat) (z : Z) :
  (1 <= k)%nat -> 0 <= z < 10 ^ Z.of_nat k ->
  (String.length (pretty z) <= k)%nat.
Proof.
  intros Hk Hz. destruct z as [|q|q]; [cbn; lia| |lia].
  change (pretty (Z.pos q)) with (pretty (N.pos q)).
  rewrite pretty_N_eq by lia. apply length_pretty_N_go_le.
  apply N2Z.inj_lt. rewrite N2Z.inj_pow, nat_N_Z. cbn [Z.of_N]. lia.
Qed.

(** The text of a number of at most 4300 digits is read back. *)
Lemma int_digits_pretty z :
  0 <= z < 10 ^ max_str_digits -> int_digits (pretty z) = Some z.
Proof.
  intros Hz. destruct (pretty_Z_nonneg z (proj1 Hz)) as (A & V & N).
  unfold int_digits. rewrite (count_digits_all _ A).
  pose proof (length_pretty_Z_le 4300 z ltac:(lia) Hz) as HL.
  destruct (Z.ltb_spec max_str_digits (Z.of_nat (String.length (pretty z)))) as [Hlt|_].
  { unfold max_str_digits in Hlt. lia. }
  rewrite (parse_digits_digits true 0 _ A).
  destruct (pretty z); [contradiction|]. cbn [is_empty]. now rewrite V.
Qed.

(** A text that starts with a digit is read without a sign. *)
Lemma int_of_str_unsigned c s :
  strip_chars isspace_c (String c s) = String c s -> isdigit c = true ->
  int_of_str (String c s) = int_digits (String c s).
Proof.
  intros Hs Hc. unfold int_of_str. rewrite Hs.
  destruct c as [b0 b1 b2 b3 b4 b5 b6 b7].
  destruct b0, b1, b2, b3, b4, b5, b6, b7; try reflexivity; discriminate Hc.
Qed.

Lemma int_of_str_pretty z :
  Z.abs z < 10 ^ max_str_digits -> int_of_str (pretty z) = Some z.
Proof.
  intros Hz. destruct (Z.neg_nonneg_cases z) as [Hneg|Hpos].
  - rewrite (pretty_Z_neg z Hneg).
    destruct (pretty_Z_nonneg (- z) ltac:(lia)) as (A & V & N).
    assert (Hs : strip_chars isspace_c ("-" +:+ pretty (- z)) = "-" +:+ pretty (- z)).
    { apply strip_chars_none. rewrite all_chars_app. cbn [all_chars andb].
      change (negb (isspace_c "-")) with true. cbn [andb].
      revert A. apply all_chars_impl, isdigit_not_space_c. }
    unfold int_of_str. rewrite Hs.
    change ("-" +:+ pretty (- z)) with (String "-" (pretty (- z))).
    cbv iota beta. rewrite int_digits_pretty by lia.
    cbn [fmap option_fmap option_map]. f_equal. lia.
  - destruct (pretty_Z_nonneg z Hpos) as (A & V & N).
    rewrite <- (int_digits_pretty z) by lia.
    destruct (pretty z) as [|c s] eqn:E; [contradiction|].
    apply int_of_str_unsigned.
    + apply strip_chars_none. revert A. apply all_chars_impl, isdigit_not_space_c.
    + cbn [all_chars] in A. now apply andb_true_iff in A as [Hc _].
Qed.

(** ** Finding a saved voucher *)

Lemma first_with_id_Some v rows r :
  first_with_id v rows = Some r <->
  exists l1 l2, rows = l1 ++ r :: l2 /\ voucher_id r = Some v
                /\ Forall (fun x => voucher_id x <> Some v) l1.
Proof.
  induction rows as [|x rows IH]; cbn [first_with_id].
  - split; [discriminate|]. intros (l1 & l2 & H & _). now destruct l1.
  - destruct (decide (voucher_id x = Some v)) as [Hx|Hx].
    + split.
      * intros [= <-]. exists [], rows. repeat split; [exact Hx|constructor].
      * intros (l1 & l2 & E & Hr & Hl). destruct l1 as [|y l1].
        -- now injection E as ->.
        -- injection E as <- _. apply Forall_cons in Hl as [Hy _]. contradiction.
    + rewrite IH. split.
      * intros (l1 & l2 & -> & Hr & Hl). exists (x :: l1), l2.
        repeat split; [exact Hr|now constructor].
      * intros (l1 & l2 & E & Hr & Hl). destruct l1 as [|y l1].
        -- injection E as -> _. contradiction.
        -- injection E as <- ->. apply Forall_cons in Hl as [_ Hl]. eauto.
Qed.

Lemma first_with_id_None v rows :
  first_with_id v rows = None <-> Forall (fun x => voucher_id x <> Some v) rows.
Proof.
  induction rows as [|x rows IH]; cbn [first_with_id].
  - split; [constructor|reflexivity].
  - destruct (decide (voucher_id x = Some v)) as [Hx|Hx].
    + split; [discriminate|]. intros [H _]%Forall_cons. contradiction.
    + rewrite IH, Forall_cons. tauto.
Qed.

Lemma filter_vouchers_elem lo hi rows v r :
  (v, r) ∈ filter_vouchers lo hi rows <->
  r ∈ rows /\ voucher_id r = Some v /\ lo <= v <= hi.
Proof.
  unfold voucher_id. induction rows as [|x rows IH]; cbn [filter_vouchers].
  - rewrite !elem_of_nil. tauto.
  - destruct (int_of_str (strip (get_or x "v_no" "V.No." EmptyString)))
      as [vx|] eqn:Ex.
    + destruct ((lo <=? vx) && (vx <=? hi)) eqn:Ew.
      * apply andb_true_iff in Ew as [Hlo%Z.leb_le Hhi%Z.leb_le].
        rewrite !elem_of_cons, IH. split.
        -- intros [[= -> ->]|(Hr & Hv & Hw)];
             [split; [now left|split; [exact Ex|lia]]|split; [now right|tauto]].
        -- intros ([->|Hr] & Hv & Hw); [left|right; tauto].
           rewrite Ex in Hv. now injection Hv as ->.
      * rewrite elem_of_cons, IH. split.
        -- intros (Hr & Hv & Hw). split; [now right|tauto].
        -- intros ([->|Hr] & Hv & Hw); [|tauto]. exfalso.
           rewrite Ex in Hv. injection Hv as ->.
           apply andb_false_iff in Ew as [Hlo%Z.leb_gt|Hhi%Z.leb_gt]; lia.
    + rewrite elem_of_cons, IH. split.
      * intros (Hr & Hv & Hw). split; [now right|tauto].
      * intros ([->|Hr] & Hv & Hw); [congruence|tauto].
Qed.

Lemma select_vouchers_elem a b rows v r :
  (v, r) ∈ select_vouchers a b rows <->
  r ∈ rows /\ voucher_id r = Some v /\ Z.min a b <= v <= Z.max a b.
Proof.
  unfold select_vouchers. rewrite (sort_by_key_perm _), filter_vouchers_elem.
  destruct (Z.ltb_spec b a).
  - rewrite Z.min_r, Z.max_l by lia. reflexivity.
  - rewrite Z.min_l, Z.max_r by lia. reflexivity.
Qed.

Lemma voucher_id_history_row res t p :
  voucher_id (history_row res t p)
  = int_of_str (strip (CalculationResult.invoice_no res)).
Proof.
  destruct (history_row_lookup res t p) as (_ & _ & H3 & H4 & _).
  unfold voucher_id. now rewrite (get_or_present _ _ _ _ H3 H4).
Qed.

Lemma strip_pretty (z : Z) : strip (pretty z) = pretty z.
Proof.
  apply strip_chars_none.
  destruct (Z.neg_nonneg_cases z) as [Hneg|Hpos].
  - rewrite (pretty_Z_neg z Hneg), all_chars_app.
    destruct (pretty_Z_nonneg (- z) ltac:(lia)) as (A & _ & _).
    apply andb_true_iff. split; [reflexivity|].
    revert A. apply all_chars_impl, isdigit_not_space.
  - destruct (pretty_Z_nonneg z Hpos) as (A & _ & _).
    revert A. apply all_chars_impl, isdigit_not_space.
Qed.

Lemma find_voucher_most_recent_aux v rows r :
  find_voucher v rows = Some r <->
  exists l1 l2, rows = l1 ++ r :: l2 /\ voucher_id r = Some v
                /\ Forall (fun x => voucher_id x <> Some v) l2.
Proof.
  unfold find_voucher. rewrite first_with_id_Some. split.
  - intros (l1 & l2 & E & Hr & Hl). exists (reverse l2), (reverse l1).
    split; [|split; [exact Hr|now apply Forall_reverse]].
    rewrite <- (reverse_involutive rows), E, reverse_app, reverse_cons.
    now rewrite <- app_assoc.
  - intros (l1 & l2 & -> & Hr & Hl). exists (reverse l2), (reverse l1).
    split; [|split; [exact Hr|now apply Forall_reverse]].
    rewrite reverse_app, reverse_cons. now rewrite <- app_assoc.
Qed.

(** [voucher_get] returns the most recent row of the number asked for:
    the row found is in the ledger, reads as that number, and no row after
    it does; nothing is found exactly when no row reads as that number. *)
Theorem find_voucher_most_recent (v : Z) (rows : list row) :
  (forall r,
     find_voucher v rows = Some r <->
     exists l1 l2, rows = l1 ++ r :: l2 /\ voucher_id r = Some v
                   /\ Forall (fun x => voucher_id x <> Some v) l2)
  /\ (find_voucher v rows = None <->
      Forall (fun x => voucher_id x <> Some v) rows).
Proof.
  split.
  - intros r. apply find_voucher_most_recent_aux.
  - unfold find_voucher. rewrite first_with_id_None. apply Forall_reverse.
Qed.

(** A voucher just saved is the one looked up.  On a ledger with
    the standard header, after [append_history] wrote a result whose
    voucher id reads as the integer [v], the ledger is the rows it had and
    one more row, which holds the voucher id in its [v_no] field;
    [voucher_get] for [v] finds that row, whatever older rows carry the
    same number, and every range report whose window holds [v] selects
    it. *)
Theorem saved_voucher_is_found (h : history) (res : CalculationResult.t)
    (t p : string) (v : Z) :
  hheader h = standard_header ->
  writable res ->
  int_of_str (strip (CalculationResult.invoice_no res)) = Some v ->
  let rows' := read_history_rows (append_history h res t p) in
  exists r,
    rows' = read_history_rows h ++ [r]
    /\ r !! "v_no"%string = Some (CalculationResult.invoice_no res)
    /\ find_voucher v rows' = Some r
    /\ forall a b, Z.min a b <= v <= Z.max a b ->
         (v, r) ∈ select_vouchers a b rows'.
Proof.
  intros Hh _ Hv rows'. unfold rows'.
  rewrite (append_history_standard h res t p Hh).
  unfold read_history_rows. cbn [hrows].
  assert (Hid : voucher_id (history_row res t p) = Some v)
    by (now rewrite voucher_id_history_row).
  exists (history_row res t p). split; [reflexivity|]. split; [|split].
  - exact (proj1 (proj2 (proj2 (history_row_lookup res t p)))).
  - apply (proj2 (find_voucher_most_recent_aux v _ _)).
    exists (hrows h), []. repeat split; [exact Hid|constructor].
  - intros a b Hab. apply select_vouchers_elem. split; [|split; assumption].
    apply elem_of_app. right. now left.
Qed.

Lemma saved_voucher_is_found_witness :
  let res := CalculationResult.mk "001" 1 "Client 01" (mkDate 2025 8 10) 5670
               (mkDec 2200 (-2)) d_11 125 5545 (mkDec 12199000 (-2))
               (mkDec 121990 (-2)) (mkDec 62370 (-2)) (mkDec 12014640 (-2)) in
  let old := {[ "v_no" := "1"; "client_name" := "Ravi" ]}%string : row in
  let rows' := read_history_rows
                 (append_history (mkHistory standard_header [old]) res "t" "A") in
  exists r,
    rows' = [old] ++ [r]
    /\ r !! "v_no"%string = Some "001"%string
    /\ find_voucher 1 rows' = Some r
    /\ forall a b, Z.min a b <= 1 <= Z.max a b -> (1, r) ∈ select_vouchers a b rows'.
Proof.
  intros res old rows'.
  assert (Hw : writable res) by (unfold writable; cbn; repeat split; vm_compute; reflexivity).
  assert (Hv : int_of_str (strip (CalculationResult.invoice_no res)) = Some 1)
    by (vm_compute; reflexivity).
  exact (saved_voucher_is_found (mkHistory standard_header [old]) res "t" "A" 1
           eq_refl Hw Hv).
Defined.

(** [parse_positive_int] on the decimal text of an integer of at
    most 4300 digits: a positive integer is accepted and given back, zero
    and the negative integers are refused with the message for a
    non-positive number; and whatever the text, a returned number is
    positive. *)
Theorem parse_positive_int_accepts (n : Z) (field_name : string) :
  Z.abs n < 10 ^ max_str_digits ->
  Cli.parse_positive_int (str_of_int n) field_name
  = (if 0 <? n then inr n else inl (field_name +:+ " must be > 0"))
  /\ forall value num, Cli.parse_positive_int value field_name = inr num -> 0 < num.
Proof.
  intros Hn. unfold Cli.parse_positive_int. split.
  - unfold str_of_int. rewrite (int_of_str_pretty n Hn).
    destruct (Z.leb_spec n 0), (Z.ltb_spec 0 n); solve [reflexivity|lia].
  - intros value num. destruct (int_of_str value) as [m|]; [|discriminate].
    destruct (Z.leb_spec m 0); [discriminate|]. intros [= <-]. lia.
Qed.

Lemma parse_positive_int_accepts_witness :
  Cli.parse_positive_int (str_of_int 5670) "total" = inr 5670
  /\ forall value num, Cli.parse_positive_int value "total" = inr num -> 0 < num.
Proof.
  assert (Hn : Z.abs 5670 < 10 ^ max_str_digits) by (vm_compute; reflexivity).
  exact (parse_positive_int_accepts 5670 "total" Hn).
Defined.

(** ** Indian digit grouping *)

Lemma str_take_drop n s : str_take n s +:+ str_drop n s = s.
Proof.
  revert s. induction n as [|n IH]; intros [|c s]; try reflexivity.
  cbn [str_take str_drop]. rewrite app_cons. now rewrite IH.
Qed.

Lemma length_str_take n s : String.length (str_take n s) = Nat.min n (String.length s).
Proof.
  revert s. induction n as [|n IH]; intros [|c s]; try reflexivity.
  cbn [str_take String.length]. now rewrite IH.
Qed.

Lemma length_str_drop n s : String.length (str_drop n s) = (String.length s - n)%nat.
Proof.
  revert s. induction n as [|n IH]; intros [|c s]; try reflexivity.
  cbn [str_drop String.length]. now rewrite IH.
Qed.

Lemma but_last_last k s : but_last_chars k s +:+ last_chars k s = s.
Proof. apply str_take_drop. Qed.

Lemma length_last_chars k s :
  (k <= String.length s)%nat -> String.length (last_chars k s) = k.
Proof. intros H. unfold last_chars. rewrite length_str_drop. lia. Qed.

Lemma length_but_last_chars k s :
  String.length (but_last_chars k s) = (String.length s - k)%nat.
Proof. unfold but_last_chars. rewrite length_str_take. lia. Qed.

Lemma concat_empty_cons x l :
  String.concat EmptyString (x :: l) = x +:+ String.concat EmptyString l.
Proof. destruct l; [now rewrite app_empty_r|reflexivity]. Qed.

Lemma concat_empty_app l1 l2 :
  String.concat EmptyString (l1 ++ l2)
  = String.concat EmptyString l1 +:+ String.concat EmptyString l2.
Proof.
  induction l1 as [|x l1 IH]; [reflexivity|].
  rewrite <- app_comm_cons, !concat_empty_cons, IH. now rewrite app_assoc'.
Qed.

Lemma is_empty_length s : is_empty s = true <-> String.length s = O.
Proof. destruct s; cbn; split; congruence. Qed.

(** The loop of [_format_indian_number]: with enough fuel, a first group
    of one or two characters, then groups of two, in front of the groups
    already there; together they are the text. *)
Lemma indian_groups_shape fuel rest acc :
  (String.length rest < fuel)%nat -> (0 < String.length rest)%nat ->
  exists first mid,
    indian_groups fuel rest acc = first :: mid ++ acc
    /\ (1 <= String.length first <= 2)%nat
    /\ Forall (fun g => String.length g = 2%nat) mid
    /\ String.concat EmptyString (first :: mid) = rest.
Proof.
  revert rest acc. induction fuel as [|f IH]; intros rest acc Hf Hr; [lia|].
  cbn [indian_groups]. destruct (Nat.ltb_spec 2 (String.length rest)) as [H2|H2].
  - destruct (IH (but_last_chars 2 rest) (last_chars 2 rest :: acc))
      as (first & mid & E & Hfirst & Hmid & Hc).
    { rewrite length_but_last_chars. lia. }
    { rewrite length_but_last_chars. lia. }
    exists first, (mid ++ [last_chars 2 rest]). rewrite E. split; [|split; [|split]].
    + now rewrite <- app_assoc.
    + exact Hfirst.
    + apply Forall_app. split; [exact Hmid|]. constructor; [|constructor].
      apply length_last_chars. lia.
    + rewrite app_comm_cons, concat_empty_app, Hc. cbn [String.concat].
      apply but_last_last.
  - destruct (is_empty rest) eqn:Ee; [apply is_empty_length in Ee; lia|].
    exists rest, []. split; [reflexivity|]. split; [lia|]. split; [constructor|reflexivity].
Qed.

Lemma all_chars_concat p l :
  all_chars p (String.concat EmptyString l) = true -> Forall (fun g => all_chars p g = true) l.
Proof.
  induction l as [|x l IH]; [constructor|].
  rewrite concat_empty_cons, all_chars_app, andb_true_iff. intros [Hx Hl].
  constructor; auto.
Qed.

(** [_format_indian_number] writes the decimal digits of [|n|], unchanged
    and in order, with commas between groups: a text of at most three
    digits is left as it is; a longer one is cut into a first group of one
    or two digits, groups of two digits, and a last group of three. *)
Theorem format_indian_number_groups (n : Z) :
  let s := str_of_int (Z.abs n) in
  ((String.length s <= 3)%nat -> _format_indian_number n = s)
  /\ ((3 < String.length s)%nat ->
      exists first mid last3,
        _format_indian_number n = join "," (first :: mid ++ [last3])
        /\ join EmptyString (first :: mid ++ [last3]) = s
        /\ (1 <= String.length first <= 2)%nat
        /\ Forall (fun g => String.length g = 2%nat) mid
        /\ String.length last3 = 3%nat
        /\ Forall (fun g => all_chars isdigit g = true) (first :: mid ++ [last3])).
Proof.
  intros s. unfold _format_indian_number. fold s. split.
  - intros H. destruct (Nat.leb_spec (String.length s) 3); [reflexivity|lia].
  - intros H. destruct (Nat.leb_spec (String.length s) 3); [lia|].
    destruct (indian_groups_shape (S (String.length (but_last_chars 3 s)))
                (but_last_chars 3 s) [])
      as (first & mid & E & Hfirst & Hmid & Hc).
    { lia. }
    { rewrite length_but_last_chars. lia. }
    exists first, mid, (last_chars 3 s). rewrite E, app_nil_r.
    assert (Hj : join EmptyString (first :: mid ++ [last_chars 3 s]) = s).
    { unfold join. rewrite app_comm_cons, concat_empty_app, Hc.
      cbn [String.concat]. apply but_last_last. }
    split; [reflexivity|]. split; [exact Hj|]. split; [exact Hfirst|].
    split; [exact Hmid|]. split; [apply length_last_chars; lia|].
    apply all_chars_concat. unfold join in Hj. rewrite Hj.
    apply (pretty_Z_nonneg (Z.abs n)). lia.
Qed.

(** ** The aligned report lines *)

Lemma length_replicate_char n c : String.length (replicate_char n c) = n.
Proof. induction n as [|n IH]; [reflexivity|]. cbn. now rewrite IH. Qed.

Lemma length_rjust w s : String.length (rjust w s) = Nat.max w (String.length s).
Proof. unfold rjust. rewrite length_app', length_replicate_char. lia. Qed.

Lemma length_ljust w s : String.length (ljust w s) = Nat.max w (String.length s).
Proof. unfold ljust. rewrite length_app', length_replicate_char. lia. Qed.

Lemma max_len_ge l s : s ∈ l -> (String.length s <= max_len l)%nat.
Proof.
  unfold max_len. induction l as [|x l IH]; [intros H; inversion H|].
  cbn [foldr]. intros [->|H]%elem_of_cons; [lia|]. specialize (IH H). lia.
Qed.

Lemma length_pretty_N_go_mono x y :
  (x <= y)%N ->
  (String.length (pretty_N_go x EmptyString)
   <= String.length (pretty_N_go y EmptyString))%nat.
Proof.
  revert y. induction (N.lt_wf_0 x) as [x _ IH]. intros y Hxy.
  destruct (N.eq_dec x 0%N) as [->|Hx]; [rewrite pretty_N_go_0; cbn; lia|].
  rewrite (pretty_N_go_snoc x), (pretty_N_go_snoc y) by lia.
  rewrite !length_app'. cbn [String.length].
  assert (Hd : (x `div` 10 <= y `div` 10)%N) by (apply N.Div0.div_le_mono; exact Hxy).
  assert (Hlt : (x `div` 10 < x)%N) by (apply N.div_lt; lia).
  specialize (IH _ Hlt _ Hd). lia.
Qed.

Lemma length_pretty_nat_mono (i n : nat) :
  (1 <= i <= n)%nat -> (String.length (pretty i) <= String.length (pretty n))%nat.
Proof.
  intros H. unfold pretty, pretty_nat. rewrite !pretty_N_eq by lia.
  apply length_pretty_N_go_mono. lia.
Qed.

(** The report is a table: one line for every entry, and every line has
    the same length (the width of the largest index, of the longest label
    and of the longest amount, and seven characters between them), so the
    equals signs and the amounts stand in one column. *)
Theorem render_lines_aligned (entries : list (string * string)) :
  length (render_lines entries) = length entries
  /\ forall line, line ∈ render_lines entries ->
       String.length line
       = (String.length (pretty (length entries)) + 2
          + max_len (fst <$> entries) + 5 + max_len (snd <$> entries))%nat.
Proof.
  unfold render_lines. split; [apply length_imap|].
  intros line (i & e & -> & Hi)%elem_of_lookup_imap.
  assert (Hlt : (i < length entries)%nat) by (eapply lookup_lt_Some, Hi).
  assert (He : e ∈ entries) by (eapply list_elem_of_lookup_2, Hi).
  rewrite !length_app', length_rjust, length_ljust, length_rjust.
  pose proof (length_pretty_nat_mono (S i) (length entries) ltac:(lia)).
  pose proof (max_len_ge (fst <$> entries) (fst e)
                ltac:(apply list_elem_of_fmap; now exists e)).
  pose proof (max_len_ge (snd <$> entries) (snd e)
                ltac:(apply list_elem_of_fmap; now exists e)).
  cbn [String.length]. lia.
Qed.

(** ** File names *)

Lemma sanitize_unfold text :
  exists m : string -> string,
    m EmptyString = EmptyString
    /\ (forall c s, m (String c s)
                    = String (if safe_char c then c else "_"%char) (m s))
    /\ _sanitize_filename_component text
       = let safe := m (strip text) in
         let safe := collapse_underscores (String.length safe) safe in
         let out := strip_chars (fun c => Ascii.eqb c "." || Ascii.eqb c "_") safe in
         if is_empty out then "NA"%string else out.
Proof.
  eexists. split; [|split]; [| |unfold _sanitize_filename_component; reflexivity];
    reflexivity.
Qed.

Lemma replace_double_underscore_chars p s :
  p "_"%char = true -> all_chars p s = true ->
  all_chars p (replace_double_underscore s) = true.
Proof.
  intros Hu.
  assert (H : forall n s, (String.length s <= n)%nat -> all_chars p s = true ->
                          all_chars p (replace_double_underscore s) = true).
  { clear s. induction n as [|n IH]; intros [|c [|c2 s]] Hn; try (intros; assumption);
      cbn [String.length] in Hn; try lia.
    cbn [replace_double_underscore all_chars].
    rewrite !andb_true_iff. intros (Hc & Hc2 & Hs).
    destruct (Ascii.eqb c "_" && Ascii.eqb c2 "_").
    - cbn [all_chars]. rewrite Hu. apply IH; [lia|exact Hs].
    - cbn [all_chars]. rewrite Hc. apply (IH (String c2 s)); [cbn; lia|].
      cbn [all_chars]. now rewrite Hc2, Hs. }
  apply (H (String.length s)). lia.
Qed.

Lemma replace_double_underscore_cons2 c c2 s :
  replace_double_underscore (String c (String c2 s))
  = if Ascii.eqb c "_" && Ascii.eqb c2 "_"
    then String "_" (replace_double_underscore s)
    else String c (replace_double_underscore (String c2 s)).
Proof. reflexivity. Qed.

Lemma has_double_underscore_cons2 c c2 s :
  has_double_underscore (String c (String c2 s))
  = (Ascii.eqb c "_" && Ascii.eqb c2 "_") || has_double_underscore (String c2 s).
Proof. reflexivity. Qed.

Lemma replace_double_underscore_length s :
  (String.length (replace_double_underscore s) <= String.length s)%nat
  /\ (has_double_underscore s = true ->
      (String.length (replace_double_underscore s) < String.length s)%nat).
Proof.
  assert (H : forall n s, (String.length s <= n)%nat ->
    (String.length (replace_double_underscore s) <= String.length s)%nat
    /\ (has_double_underscore s = true ->
        (String.length (replace_double_underscore s) < String.length s)%nat)).
  { clear s. induction n as [|n IH]; intros [|c [|c2 s]] Hn;
      cbn [String.length] in Hn; try lia;
      try (split; [cbn; lia|cbn; discriminate]).
    rewrite replace_double_underscore_cons2, has_double_underscore_cons2.
    destruct (Ascii.eqb c "_" && Ascii.eqb c2 "_").
    - destruct (IH s ltac:(lia)) as [Hle _]. cbn [String.length orb]. split; [lia|intros _; lia].
    - assert (Hn' : (String.length (String c2 s) <= n)%nat) by (cbn [String.length]; lia).
      destruct (IH (String c2 s) Hn') as [Hle Hlt].
      cbn [orb].
      change (String.length (String c (replace_double_underscore (String c2 s))))
        with (S (String.length (replace_double_underscore (String c2 s)))).
      change (String.length (String c (String c2 s)))
        with (S (String.length (String c2 s))).
      split; [lia|]. intros Hd. specialize (Hlt Hd). lia. }
  apply (H (String.length s)). lia.
Qed.

Lemma collapse_underscores_chars p fuel s :
  p "_"%char = true -> all_chars p s = true ->
  all_chars p (collapse_underscores fuel s) = true.
Proof.
  intros Hu. revert s. induction fuel as [|f IH]; intros s Hs; [exact Hs|].
  cbn [collapse_underscores]. destruct (has_double_underscore s); [|exact Hs].
  apply IH. now apply replace_double_underscore_chars.
Qed.

(** The length of the text is enough fuel: no pair of underscores is left. *)
Lemma collapse_underscores_done fuel s :
  (String.length s <= fuel)%nat ->
  has_double_underscore (collapse_underscores fuel s) = false.
Proof.
  revert s. induction fuel as [|f IH]; intros s Hs.
  - destruct s; [reflexivity|cbn in Hs; lia].
  - cbn [collapse_underscores]. destruct (has_double_underscore s) eqn:E; [|exact E].
    apply IH. destruct (replace_double_underscore_length s) as [_ Hlt].
    specialize (Hlt E). lia.
Qed.

Lemma collapse_underscores_fixed fuel s :
  has_double_underscore s = false -> collapse_underscores fuel s = s.
Proof. intros H. destruct fuel; [reflexivity|]. cbn. now rewrite H. Qed.

Lemma has_double_underscore_app a b :
  has_double_underscore (a +:+ b) = false ->
  has_double_underscore a = false /\ has_double_underscore b = false.
Proof.
  induction a as [|c a IH]; [now split|].
  rewrite app_cons. destruct a as [|c2 a].
  - rewrite app_empty_l. destruct b as [|c2 b]; [now split|].
    cbn [has_double_underscore]. intros [_ H]%orb_false_iff. now split.
  - rewrite app_cons in *. rewrite !has_double_underscore_cons2.
    intros [H1 H2]%orb_false_iff. rewrite H1. cbn [orb]. now apply IH.
Qed.

Lemma lstrip_chars_suffix p s : exists t, s = t +:+ lstrip_chars p s.
Proof.
  induction s as [|c s [t IH]]; [now exists EmptyString|].
  cbn [lstrip_chars]. destruct (p c); [|now exists EmptyString].
  exists (String c t). rewrite app_cons. now f_equal.
Qed.

Lemma rstrip_chars_prefix p s : exists t, s = rstrip_chars p s +:+ t.
Proof.
  induction s as [|c s [t IH]]; [now exists EmptyString|].
  cbn [rstrip_chars]. destruct (p c && is_empty (rstrip_chars p s)).
  - now exists (String c s).
  - exists t. rewrite app_cons. now f_equal.
Qed.

Lemma strip_chars_sub p s : exists a b, s = a +:+ strip_chars p s +:+ b.
Proof.
  unfold strip_chars. destruct (rstrip_chars_prefix p s) as [b Hb].
  destruct (lstrip_chars_suffix p (rstrip_chars p s)) as [a Ha].
  exists a, b. rewrite <- app_assoc', <- Ha. exact Hb.
Qed.

Lemma lstrip_chars_idem p s : lstrip_chars p (lstrip_chars p s) = lstrip_chars p s.
Proof.
  induction s as [|c s IH]; [reflexivity|]. cbn [lstrip_chars].
  destruct (p c) eqn:E; [exact IH|]. cbn [lstrip_chars]. now rewrite E.
Qed.

Lemma rstrip_chars_idem p s : rstrip_chars p (rstrip_chars p s) = rstrip_chars p s.
Proof.
  induction s as [|c s IH]; [reflexivity|]. cbn [rstrip_chars].
  destruct (p c && is_empty (rstrip_chars p s)) eqn:E; [reflexivity|].
  cbn [rstrip_chars]. now rewrite IH, E.
Qed.

Lemma rstrip_chars_fixed_suffix p a b :
  rstrip_chars p (a +:+ b) = a +:+ b -> rstrip_chars p b = b.
Proof.
  induction a as [|c a IH]; [now rewrite app_empty_l|].
  rewrite app_cons. cbn [rstrip_chars].
  destruct (p c && is_empty (rstrip_chars p (a +:+ b))); [discriminate|].
  intros [= H]. now apply IH.
Qed.

Lemma strip_chars_idem p s : strip_chars p (strip_chars p s) = strip_chars p s.
Proof.
  unfold strip_chars.
  destruct (lstrip_chars_suffix p (rstrip_chars p s)) as [a Ha].
  assert (Hr : rstrip_chars p (lstrip_chars p (rstrip_chars p s))
               = lstrip_chars p (rstrip_chars p s)).
  { apply (rstrip_chars_fixed_suffix p a). rewrite <- Ha. apply rstrip_chars_idem. }
  rewrite Hr. apply lstrip_chars_idem.
Qed.

Lemma safe_char_not_space c : safe_char c = true -> negb (isspace c) = true.
Proof.
  destruct c as [b0 b1 b2 b3 b4 b5 b6 b7].
  destruct b0, b1, b2, b3, b4, b5, b6, b7; try reflexivity; discriminate.
Qed.

Lemma safe_char_not_slash' c : safe_char c = true -> no_slash c = true.
Proof.
  destruct c as [b0 b1 b2 b3 b4 b5 b6 b7].
  destruct b0, b1, b2, b3, b4, b5, b6, b7; try reflexivity; discriminate.
Qed.

Lemma sanitize_filename_component_safe_aux (text : string) :
  let s := _sanitize_filename_component text in
  s <> EmptyString
  /\ all_chars safe_char s = true
  /\ has_double_underscore s = false
  /\ strip_chars (fun c => Ascii.eqb c "." || Ascii.eqb c "_") s = s
  /\ _sanitize_filename_component s = s.
Proof.
  intros s.
  assert (core : s <> EmptyString /\ all_chars safe_char s = true
                 /\ has_double_underscore s = false
                 /\ strip_chars (fun c => Ascii.eqb c "." || Ascii.eqb c "_") s = s).
  { subst s. destruct (sanitize_unfold text) as (m & M0 & M1 & ->). cbv zeta.
    set (q := fun c => Ascii.eqb c "." || Ascii.eqb c "_").
    set (safe := m (strip text)).
    assert (Hm : forall t, all_chars safe_char (m t) = true).
    { induction t as [|c t IH]; [now rewrite M0|]. rewrite M1. cbn [all_chars].
      rewrite IH, andb_true_r. destruct (safe_char c) eqn:E; [exact E|reflexivity]. }
    set (col := collapse_underscores (String.length safe) safe).
    assert (Hc1 : all_chars safe_char col = true)
      by (apply collapse_underscores_chars; [reflexivity|apply Hm]).
    assert (Hc2 : has_double_underscore col = false)
      by (apply collapse_underscores_done; lia).
    destruct (strip_chars_sub q col) as (a & b & Hab).
    destruct (is_empty (strip_chars q col)) eqn:Ee.
    - repeat split; discriminate.
    - rewrite Hab, !all_chars_app, !andb_true_iff in Hc1.
      rewrite Hab in Hc2. apply has_double_underscore_app in Hc2 as [_ Hc2].
      apply has_double_underscore_app in Hc2 as [Hc2 _].
      split; [intros E; now rewrite E in Ee|]. split; [tauto|]. split; [exact Hc2|].
      apply strip_chars_idem. }
  destruct core as (Hne & Hsafe & Hdd & Hstrip).
  split; [exact Hne|]. split; [exact Hsafe|]. split; [exact Hdd|]. split; [exact Hstrip|].
  destruct (sanitize_unfold s) as (m & M0 & M1 & ->). cbv zeta.
  assert (Hs : strip s = s).
  { apply strip_chars_none. revert Hsafe. apply all_chars_impl, safe_char_not_space. }
  assert (Hm : forall t, all_chars safe_char t = true -> m t = t).
  { induction t as [|c t IH]; [intros _; exact M0|]. cbn [all_chars].
    intros [Hc Ht]%andb_true_iff. now rewrite M1, Hc, (IH Ht). }
  rewrite Hs, (Hm s Hsafe), (collapse_underscores_fixed _ s Hdd), Hstrip.
  destruct s; [contradiction|reflexivity].
Qed.

Lemma safe_char_ascii c : safe_char c = true -> is_ascii c = true.
Proof.
  destruct c as [b0 b1 b2 b3 b4 b5 b6 b7].
  destruct b7; [|intros _; destruct b0, b1, b2, b3, b4, b5, b6; reflexivity].
  destruct b0, b1, b2, b3, b4, b5, b6; intros H; discriminate H.
Qed.

(** For a text of ASCII characters, what
    [_sanitize_filename_component] returns is a safe file name: it is not
    empty, it is made of ASCII letters, digits, hyphens and underscores
    only (no separator, no dot, no space), it holds no two underscores in
    a row and neither starts nor ends with an underscore; sanitizing it
    again returns it unchanged. *)
Theorem sanitize_filename_component_safe (text : string) :
  all_chars is_ascii text = true ->
  let s := _sanitize_filename_component text in
  s <> EmptyString
  /\ all_chars safe_char s = true
  /\ all_chars is_ascii s = true
  /\ has_double_underscore s = false
  /\ strip_chars (fun c => Ascii.eqb c "." || Ascii.eqb c "_") s = s
  /\ _sanitize_filename_component s = s.
Proof.
  intros _ s.
  destruct (sanitize_filename_component_safe_aux text) as (H1 & H2 & H3 & H4 & H5).
  fold s in H1, H2, H3, H4, H5.
  split; [exact H1|]. split; [exact H2|].
  split; [exact (all_chars_impl _ _ _ safe_char_ascii H2)|].
  split; [exact H3|]. split; [exact H4|exact H5].
Qed.

Lemma sanitize_filename_component_safe_witness :
  _sanitize_filename_component " M/s  Traders. " = "M_s_Traders"%string
  /\ let s := _sanitize_filename_component " M/s  Traders. " in
     s <> EmptyString
     /\ all_chars safe_char s = true
     /\ all_chars is_ascii s = true
     /\ has_double_underscore s = false
     /\ strip_chars (fun c => Ascii.eqb c "." || Ascii.eqb c "_") s = s
     /\ _sanitize_filename_component s = s.
Proof.
  assert (Ha : all_chars is_ascii " M/s  Traders. " = true) by (vm_compute; reflexivity).
  split; [vm_compute; reflexivity|].
  exact (sanitize_filename_component_safe " M/s  Traders. " Ha).
Defined.

(** ** Paths of the saved files *)

Lemma components_go_plain cur s :
  all_chars no_slash s = true -> components_go cur s = [cur +:+ s].
Proof.
  revert cur. induction s as [|c s IH]; intros cur H.
  - cbn [components_go]. now rewrite app_empty_r.
  - cbn [all_chars] in H. apply andb_true_iff in H as [Hc Hs].
    cbn [components_go]. unfold no_slash in Hc. apply negb_true_iff in Hc.
    rewrite Hc, (IH _ Hs), app_assoc'. reflexivity.
Qed.

(** A name without a slash that is neither empty nor a single dot is one
    path component. *)
Lemma components_plain name :
  all_chars no_slash name = true -> (2 <= String.length name)%nat ->
  components name = [name].
Proof.
  intros H L. unfold components. rewrite (components_go_plain _ _ H), app_empty_l.
  rewrite filter_cons, filter_nil.
  destruct (decide _) as [_|Hn]; [reflexivity|].
  exfalso. apply Hn. split; intros ->; cbn in L; lia.
Qed.

Lemma all_chars_replicate p n c : p c = true -> all_chars p (replicate_char n c) = true.
Proof. intros H. induction n as [|n IH]; [reflexivity|]. cbn. now rewrite H, IH. Qed.

Lemma no_slash_pretty (z : Z) : all_chars no_slash (pretty z) = true.
Proof.
  assert (Hd : forall c, isdigit c = true -> no_slash c = true).
  { intros [b0 b1 b2 b3 b4 b5 b6 b7].
    destruct b0, b1, b2, b3, b4, b5, b6, b7; try reflexivity; discriminate. }
  destruct (Z.neg_nonneg_cases z) as [Hneg|Hpos].
  - rewrite (pretty_Z_neg z Hneg), all_chars_app.
    destruct (pretty_Z_nonneg (- z) ltac:(lia)) as (A & _ & _).
    apply andb_true_iff. split; [reflexivity|]. revert A. now apply all_chars_impl.
  - destruct (pretty_Z_nonneg z Hpos) as (A & _ & _).
    revert A. now apply all_chars_impl.
Qed.

Lemma no_slash_zfill w (z : Z) : all_chars no_slash (zfill w (pretty z)) = true.
Proof.
  unfold zfill. rewrite all_chars_app, all_chars_replicate by reflexivity.
  apply no_slash_pretty.
Qed.

(** The name of a range report is always a single path component. *)
Lemma range_report_path_plain party a b d :
  _range_report_path party a b d = RANGE_DIR ++ [range_report_filename party a b d].
Proof.
  unfold _range_report_path, path_join. f_equal. apply components_plain.
  - unfold range_report_filename, strftime_Ymd, str_of_int. cbv zeta.
    destruct (sanitize_filename_component_safe_aux party) as (_ & Hs & _).
    rewrite !all_chars_app, !no_slash_zfill, !no_slash_pretty.
    cbn [andb]. rewrite (all_chars_impl _ no_slash _ safe_char_not_slash' Hs).
    reflexivity.
  - unfold range_report_filename. cbv zeta. rewrite !length_app'. cbn [String.length]. lia.
Qed.

(** ** Setting up the data directory *)

Lemma parent_top name : parent [name] = [].
Proof. reflexivity. Qed.

Lemma write_text_top fs (name : string) c :
  files fs !! [] = None -> path_exists fs [name] = false ->
  write_text fs [name] c = Ok (mkFs (dirs fs) (<[[name] := c]> (files fs))).
Proof.
  intros H0 X. apply path_exists_false in X as [Xd _]. unfold write_text.
  rewrite Xd, parent_top, (proj2 (is_file_false fs []) H0).
  assert (Hd : is_dir fs [] = true) by (apply is_dir_true; now left).
  now rewrite Hd.
Qed.

Lemma create_if_missing_effect fs p c fs' :
  create_if_missing fs p c = Ok fs' ->
  dirs fs' = dirs fs
  /\ (forall q, q <> p -> files fs' !! q = files fs !! q)
  /\ (path_exists fs p = false -> files fs' !! p = Some c)
  /\ (path_exists fs p = true -> fs' = fs).
Proof.
  unfold create_if_missing. destruct (path_exists fs p) eqn:X.
  - intros [= <-]. repeat split; auto. discriminate.
  - intros H. apply write_text_Ok in H as [_ ->]. cbn [dirs files].
    split; [reflexivity|]. split; [|split; [|discriminate]].
    + intros q Hq. apply lookup_insert_ne. congruence.
    + intros _. apply lookup_insert_eq.
Qed.

Lemma create_if_missing_top fs (name : string) c :
  files fs !! [] = None -> exists fs', create_if_missing fs [name] c = Ok fs'.
Proof.
  intros H0. unfold create_if_missing. destruct (path_exists fs [name]) eqn:X; [eauto|].
  rewrite (write_text_top fs name c H0 X). eauto.
Qed.

Lemma path_exists_same fs fs' p :
  (p ∈ dirs fs' <-> p ∈ dirs fs) -> files fs' !! p = files fs !! p ->
  path_exists fs' p = path_exists fs p.
Proof.
  intros Hd Hf. unfold path_exists, is_dir, is_file. rewrite Hf.
  f_equal. f_equal. apply bool_decide_ext. exact Hd.
Qed.

(** The steps of [ensure_files_exist], one after the other. *)
Lemma ensure_files_exist_steps fs fs1 :
  ensure_files_exist fs = Ok fs1 ->
  exists fb fc fd fe,
    files fs !! SLIPS_DIR = None /\ files fs !! RANGE_DIR = None
    /\ fb = mkFs ({[RANGE_DIR]} ∪ ({[SLIPS_DIR]} ∪ dirs fs)) (files fs)
    /\ (if negb (path_exists fb CLIENTS_JSON) && negb (path_exists fb CLIENTS_CSV)
        then write_text fb CLIENTS_JSON default_clients_json else Ok fb) = Ok fc
    /\ create_if_missing fc CLIENTS_CSV ("client_no,client_name" +:+ nl) = Ok fd
    /\ create_if_missing fd PARTIES_CSV ("party_name" +:+ nl) = Ok fe
    /\ create_if_missing fe HISTORY_CSV history_header = Ok fs1.
Proof.
  unfold ensure_files_exist. intros H.
  apply bind_Ok in H as (fa & Ea & H). apply bind_Ok in H as (fb & Eb & H).
  apply bind_Ok in H as (fc & Ec & H). apply bind_Ok in H as (fd & Ed & H).
  apply bind_Ok in H as (fe & Ee & H).
  apply mkdir_Ok in Ea as [Hs ->]. apply mkdir_Ok in Eb as [Hr ->].
  cbn [files dirs] in *.
  exists (mkFs ({[RANGE_DIR]} ∪ ({[SLIPS_DIR]} ∪ dirs fs)) (files fs)), fc, fd, fe.
  repeat split; assumption.
Qed.

Lemma data_file_not_dir fs p :
  p ∈ [CLIENTS_JSON; CLIENTS_CSV; PARTIES_CSV; HISTORY_CSV] ->
  (p ∈ {[RANGE_DIR]} ∪ ({[SLIPS_DIR]} ∪ dirs fs) <-> p ∈ dirs fs).
Proof.
  intros Hp. rewrite !elem_of_union, !elem_of_singleton.
  split; [|tauto]. intros [->|[->|H]]; [| |exact H];
    exfalso; repeat (apply elem_of_cons in Hp as [Hp|Hp]; [discriminate|]);
    inversion Hp.
Qed.

Lemma clients_json_step fb fc :
  (if negb (path_exists fb CLIENTS_JSON) && negb (path_exists fb CLIENTS_CSV)
   then write_text fb CLIENTS_JSON default_clients_json else Ok fb) = Ok fc ->
  dirs fc = dirs fb
  /\ (forall q, q <> CLIENTS_JSON -> files fc !! q = files fb !! q)
  /\ (path_exists fb CLIENTS_JSON = false -> path_exists fb CLIENTS_CSV = false ->
      files fc !! CLIENTS_JSON = Some default_clients_json)
  /\ (path_exists fb CLIENTS_JSON = true \/ path_exists fb CLIENTS_CSV = true ->
      fc = fb).
Proof.
  destruct (path_exists fb CLIENTS_JSON) eqn:Xj, (path_exists fb CLIENTS_CSV) eqn:Xc;
    cbn [negb andb].
  1-3: intros [= <-]; repeat split; auto; discriminate.
  intros H. apply write_text_Ok in H as [_ ->]. cbn [dirs files].
  split; [reflexivity|]. split; [|split].
  - intros q Hq. apply lookup_insert_ne. congruence.
  - intros _ _. apply lookup_insert_eq.
  - intros [?|?]; discriminate.
Qed.

Lemma path_exists_step fs fs' p q :
  dirs fs' = dirs fs -> (forall x, x <> p -> files fs' !! x = files fs !! x) ->
  q <> p -> path_exists fs' q = path_exists fs q.
Proof.
  intros Hd Hf Hq. apply path_exists_same; [now rewrite Hd|now apply Hf].
Qed.

(** What [ensure_files_exist] creates: a data file that was missing gets
    its default content. *)
Lemma ensure_files_exist_content fs fs1 :
  ensure_files_exist fs = Ok fs1 ->
  (path_exists fs CLIENTS_CSV = false ->
   files fs1 !! CLIENTS_CSV = Some ("client_no,client_name" +:+ nl))
  /\ (path_exists fs PARTIES_CSV = false ->
      files fs1 !! PARTIES_CSV = Some ("party_name" +:+ nl))
  /\ (path_exists fs HISTORY_CSV = false ->
      files fs1 !! HISTORY_CSV = Some history_header)
  /\ (path_exists fs CLIENTS_JSON = false -> path_exists fs CLIENTS_CSV = false ->
      files fs1 !! CLIENTS_JSON = Some default_clients_json)
  /\ (path_exists fs CLIENTS_JSON = true \/ path_exists fs CLIENTS_CSV = true ->
      files fs1 !! CLIENTS_JSON = files fs !! CLIENTS_JSON).
Proof.
  intros H.
  destruct (ensure_files_exist_steps _ _ H) as (fb & fc & fd & fe & _ & _ & -> & Ec & Ed & Ee & Ef).
  set (fb := mkFs _ (files fs)) in *.
  assert (Xb : forall p, p ∈ [CLIENTS_JSON; CLIENTS_CSV; PARTIES_CSV; HISTORY_CSV] ->
                 path_exists fb p = path_exists fs p).
  { intros p Hp. apply path_exists_same; [|reflexivity]. now apply data_file_not_dir. }
  destruct (clients_json_step _ _ Ec) as (Dc & Fc & Cc & Sc).
  destruct (create_if_missing_effect _ _ _ _ Ed) as (Dd & Fd & Cd & _).
  destruct (create_if_missing_effect _ _ _ _ Ee) as (De & Fe & Ce & _).
  destruct (create_if_missing_effect _ _ _ _ Ef) as (Df & Ff & Cf & _).
  split; [|split; [|split; [|split]]].
  - intros X. rewrite Ff, Fe by discriminate. apply Cd.
    rewrite (path_exists_step fb fc CLIENTS_JSON) by (auto; discriminate).
    rewrite Xb; [exact X|]. right. left.
  - intros X. rewrite Ff by discriminate. apply Ce.
    rewrite (path_exists_step fc fd CLIENTS_CSV) by (auto; discriminate).
    rewrite (path_exists_step fb fc CLIENTS_JSON) by (auto; discriminate).
    rewrite Xb; [exact X|]. do 2 right. left.
  - intros X. apply Cf.
    rewrite (path_exists_step fd fe PARTIES_CSV) by (auto; discriminate).
    rewrite (path_exists_step fc fd CLIENTS_CSV) by (auto; discriminate).
    rewrite (path_exists_step fb fc CLIENTS_JSON) by (auto; discriminate).
    rewrite Xb; [exact X|]. do 3 right. left.
  - intros Xj Xc. rewrite Ff, Fe, Fd by discriminate. apply Cc.
    + rewrite Xb; [exact Xj|]. left.
    + rewrite Xb; [exact Xc|]. right. left.
  - intros X. rewrite Ff, Fe, Fd by discriminate. rewrite Sc; [reflexivity|].
    rewrite !Xb; [exact X|right; left|left].
Qed.

Lemma ensure_files_exist_runs fs :
  files fs !! [] = None -> files fs !! SLIPS_DIR = None -> files fs !! RANGE_DIR = None ->
  exists fs1, ensure_files_exist fs = Ok fs1.
Proof.
  intros H0 Hs Hr. unfold ensure_files_exist.
  assert (Ea : mkdir fs SLIPS_DIR = Ok (mkFs ({[SLIPS_DIR]} ∪ dirs fs) (files fs))).
  { unfold mkdir. now rewrite (proj2 (is_file_false fs SLIPS_DIR) Hs). }
  rewrite (bind_of_Ok _ _ _ Ea). cbv beta.
  set (fa := mkFs _ (files fs)).
  assert (Eb : mkdir fa RANGE_DIR = Ok (mkFs ({[RANGE_DIR]} ∪ dirs fa) (files fa))).
  { unfold mkdir. now rewrite (proj2 (is_file_false fa RANGE_DIR) Hr). }
  rewrite (bind_of_Ok _ _ _ Eb). cbv beta.
  set (fb := mkFs _ (files fa)).
  assert (Hb0 : files fb !! [] = None) by exact H0.
  assert (Ec : exists fc,
             (if negb (path_exists fb CLIENTS_JSON) && negb (path_exists fb CLIENTS_CSV)
              then write_text fb CLIENTS_JSON default_clients_json else Ok fb) = Ok fc
             /\ files fc !! [] = None).
  { destruct (path_exists fb CLIENTS_JSON) eqn:Xj; cbn [negb andb]; [eauto|].
    destruct (path_exists fb CLIENTS_CSV) eqn:Xc; cbn [negb andb]; [eauto|].
    unfold CLIENTS_JSON in *. rewrite (write_text_top fb _ _ Hb0 Xj).
    eexists. split; [reflexivity|]. cbn [files]. now rewrite lookup_insert_ne. }
  destruct Ec as (fc & Ec & Hc0). rewrite (bind_of_Ok _ _ _ Ec). cbv beta.
  destruct (create_if_missing_top fc "clients.csv" ("client_no,client_name" +:+ nl) Hc0)
    as [fd Ed].
  change ["clients.csv"%string] with CLIENTS_CSV in Ed.
  rewrite (bind_of_Ok _ _ _ Ed). cbv beta.
  assert (Hd0 : files fd !! [] = None).
  { destruct (create_if_missing_effect _ _ _ _ Ed) as (_ & F & _).
    now rewrite F by discriminate. }
  destruct (create_if_missing_top fd "parties.csv" ("party_name" +:+ nl) Hd0) as [fe Ee].
  change ["parties.csv"%string] with PARTIES_CSV in Ee.
  rewrite (bind_of_Ok _ _ _ Ee). cbv beta.
  assert (He0 : files fe !! [] = None).
  { destruct (create_if_missing_effect _ _ _ _ Ee) as (_ & F & _).
    now rewrite F by discriminate. }
  exact (create_if_missing_top fe "history.csv" history_header He0).
Qed.

Lemma ensure_files_exist_blocked fs :
  is_Some (files fs !! SLIPS_DIR) \/ is_Some (files fs !! RANGE_DIR) ->
  ensure_files_exist fs = Raise FileExistsError.
Proof.
  intros H. unfold ensure_files_exist, mkdir at 2.
  destruct (is_file fs SLIPS_DIR) eqn:Es; [reflexivity|].
  cbn [mbind result_bind]. unfold mkdir.
  destruct H as [H|H].
  - apply is_file_true in H. congruence.
  - assert (Er : is_file (mkFs ({[SLIPS_DIR]} ∪ dirs fs) (files fs)) RANGE_DIR = true)
      by (apply is_file_true; exact H).
    now rewrite Er.
Qed.

(** [ensure_files_exist] only adds.  Whenever it returns, every directory
    and every file that was there is still there with its content, the only
    files that can be new are the four data files, the two directories and
    the three CSV files exist, and running it again changes nothing. *)
Theorem ensure_files_exist_only_adds (fs fs1 : filesystem) :
  ensure_files_exist fs = Ok fs1 ->
  dirs fs ⊆ dirs fs1
  /\ (forall q c, files fs !! q = Some c -> files fs1 !! q = Some c)
  /\ (forall q, is_Some (files fs1 !! q) ->
        is_Some (files fs !! q)
        \/ q ∈ [CLIENTS_JSON; CLIENTS_CSV; PARTIES_CSV; HISTORY_CSV])
  /\ initialised fs1
  /\ ensure_files_exist fs1 = Ok fs1.
Proof.
  intros H. destruct (ensure_files_exist_Ok _ _ H) as [(D & F & N) I].
  split; [exact D|]. split; [exact F|]. split; [exact N|]. split; [exact I|].
  exact (initialised_stable _ I).
Qed.

Lemma ensure_files_exist_only_adds_witness :
  exists fs1,
    ensure_files_exist (mkFs ∅ ∅) = Ok fs1
    /\ initialised fs1 /\ ensure_files_exist fs1 = Ok fs1.
Proof.
  destruct (ensure_files_exist_runs (mkFs ∅ ∅) (lookup_empty _) (lookup_empty _)
              (lookup_empty _)) as [fs1 E].
  exists fs1. split; [exact E|].
  destruct (ensure_files_exist_only_adds _ _ E) as (_ & _ & _ & I & S).
  split; [exact I|exact S].
Defined.

(** The defaults [ensure_files_exist] writes.  Whenever it returns, a CSV
    file that was missing holds its header line ([client_no,client_name],
    [party_name], the fourteen ledger columns), the JSON list of twenty
    placeholder clients is written only when neither client file was
    there, and otherwise [clients.json] is left as it was. *)
Theorem ensure_files_exist_defaults (fs fs1 : filesystem) :
  ensure_files_exist fs = Ok fs1 ->
  (path_exists fs CLIENTS_CSV = false ->
   files fs1 !! CLIENTS_CSV = Some ("client_no,client_name" +:+ nl))
  /\ (path_exists fs PARTIES_CSV = false ->
      files fs1 !! PARTIES_CSV = Some ("party_name" +:+ nl))
  /\ (path_exists fs HISTORY_CSV = false ->
      files fs1 !! HISTORY_CSV = Some history_header)
  /\ (path_exists fs CLIENTS_JSON = false -> path_exists fs CLIENTS_CSV = false ->
      files fs1 !! CLIENTS_JSON = Some default_clients_json)
  /\ (path_exists fs CLIENTS_JSON = true \/ path_exists fs CLIENTS_CSV = true ->
      files fs1 !! CLIENTS_JSON = files fs !! CLIENTS_JSON).
Proof. exact (ensure_files_exist_content fs fs1). Qed.

Lemma ensure_files_exist_defaults_witness :
  exists fs1,
    ensure_files_exist (mkFs ∅ ∅) = Ok fs1
    /\ files fs1 !! HISTORY_CSV = Some history_header
    /\ files fs1 !! PARTIES_CSV = Some ("party_name" +:+ nl).
Proof.
  destruct (ensure_files_exist_runs (mkFs ∅ ∅) (lookup_empty _) (lookup_empty _)
              (lookup_empty _)) as [fs1 E].
  exists fs1. split; [exact E|].
  destruct (ensure_files_exist_defaults _ _ E) as (_ & Hp & Hh & _).
  split; [exact (Hh ltac:(vm_compute; reflexivity))
         |exact (Hp ltac:(vm_compute; reflexivity))].
Defined.

(** When [ensure_files_exist] returns and when it raises.  It returns
    whenever the data directory is a directory and neither [slips] nor
    [range_reports] is a regular file; when one of the two is a regular
    file it raises FileExistsError. *)
Theorem ensure_files_exist_outcome (fs : filesystem) :
  (files fs !! [] = None -> files fs !! SLIPS_DIR = None ->
   files fs !! RANGE_DIR = None -> exists fs1, ensure_files_exist fs = Ok fs1)
  /\ (is_Some (files fs !! SLIPS_DIR) \/ is_Some (files fs !! RANGE_DIR) ->
      ensure_files_exist fs = Raise FileExistsError).
Proof. split; [apply ensure_files_exist_runs|apply ensure_files_exist_blocked]. Qed.

(** ** Saving, generally *)

Lemma path_exists_file fs p c : files fs !! p = Some c -> path_exists fs p = true.
Proof.
  intros H. unfold path_exists. apply orb_true_iff. right. apply is_file_true. eauto.
Qed.

(** What a save that returns has done. *)
Lemma save_if_new_Ok fs p c fs' p' created :
  save_if_new fs p c = Ok (fs', (p', created)) ->
  p' = p /\ initialised fs' /\ path_exists fs' p = true
  /\ exists fs1,
       ensure_files_exist fs = Ok fs1
       /\ (if created
           then path_exists fs1 p = false
                /\ fs' = mkFs (dirs fs1) (<[p := c]> (files fs1))
           else path_exists fs1 p = true /\ fs' = fs1).
Proof.
  destruct created.
  - intros H. destruct (save_if_new_created _ _ _ _ _ H) as (fs1 & E & X & -> & -> & I).
    split; [reflexivity|]. split; [exact I|]. split.
    + apply (path_exists_file _ _ c). cbn [files]. apply lookup_insert_eq.
    + exists fs1. auto.
  - unfold save_if_new. intros H.
    destruct (ensure_files_exist fs) as [fs1|] eqn:E; [|discriminate].
    cbn [mbind result_bind] in H.
    destruct (ensure_files_exist_Ok _ _ E) as [_ I].
    destruct (path_exists fs1 p) eqn:X.
    + injection H as <- <-. split; [reflexivity|]. split; [exact I|].
      split; [exact X|]. exists fs1. auto.
    + destruct (write_text fs1 p c); discriminate.
Qed.

Lemma save_if_new_again fs p c fs' p' created c' :
  save_if_new fs p c = Ok (fs', (p', created)) ->
  save_if_new fs' p c' = Ok (fs', (p, false)).
Proof.
  intros H. destruct (save_if_new_Ok _ _ _ _ _ _ H) as (_ & I & X & _).
  unfold save_if_new. rewrite (initialised_stable _ I). cbn [mbind result_bind].
  now rewrite X.
Qed.

Lemma save_if_new_content fs p c fs' p' :
  save_if_new fs p c = Ok (fs', (p', true)) ->
  files fs' !! p = Some c
  /\ forall q, q <> p -> files fs' !! q = None -> files fs !! q = None.
Proof.
  intros H. destruct (save_if_new_created _ _ _ _ _ H) as (fs1 & E & X & -> & -> & I).
  cbn [files]. split; [apply lookup_insert_eq|].
  intros q Hq Hn. rewrite lookup_insert_ne in Hn by congruence.
  destruct (ensure_files_exist_Ok _ _ E) as [(_ & F & _) _].
  destruct (files fs !! q) as [c0|] eqn:E0; [|reflexivity].
  rewrite (F _ _ E0) in Hn. discriminate.
Qed.

Lemma save_if_new_total fs fs0 dir name c :
  dir = SLIPS_DIR \/ dir = RANGE_DIR ->
  components name = [name] ->
  ensure_files_exist fs = Ok fs0 ->
  exists fs' created,
    save_if_new fs (path_join dir name) c = Ok (fs', (path_join dir name, created))
    /\ (created = false -> fs' = fs0)
    /\ (created = true -> files fs' !! path_join dir name = Some c).
Proof.
  intros Hdir Hname E.
  destruct (path_exists fs0 (path_join dir name)) eqn:X.
  - exists fs0, false. unfold save_if_new. rewrite E. cbn [mbind result_bind].
    rewrite X. split; [reflexivity|]. split; [reflexivity|discriminate].
  - eexists _, true. rewrite (save_if_new_plain_name fs fs0 dir name c Hdir Hname E X).
    split; [reflexivity|]. split; [discriminate|]. intros _. cbn [files].
    apply lookup_insert_eq.
Qed.

Lemma save_if_new_Raise fs p c e :
  ensure_files_exist fs = Raise e -> save_if_new fs p c = Raise e.
Proof. intros E. unfold save_if_new. now rewrite E. Qed.

(** Saving a slip is idempotent and never overwrites.  Whenever
    [save_slip_text_if_new] returns, the path is the slips directory joined
    with [slip_filename]; saving again for the same result, with whatever
    text, changes nothing in the store and reports that nothing was
    created; a created slip holds the given text; a slip that was there is
    reported as not created and keeps its text. *)
Theorem save_slip_text_if_new_idempotent (fs fs' : filesystem)
    (res : CalculationResult.t) (content content' : string)
    (p : list string) (created : bool) :
  save_slip_text_if_new fs res content = Ok (fs', (p, created)) ->
  p = path_join SLIPS_DIR (slip_filename res)
  /\ save_slip_text_if_new fs' res content' = Ok (fs', (p, false))
  /\ (created = true -> files fs' !! p = Some content)
  /\ (forall c0, files fs !! p = Some c0 ->
        created = false /\ files fs' !! p = Some c0).
Proof.
  rewrite !save_slip_text_if_new_eq. intros H.
  destruct (save_if_new_Ok _ _ _ _ _ _ H) as (-> & _).
  split; [reflexivity|]. split; [exact (save_if_new_again _ _ _ _ _ _ _ H)|].
  split.
  - intros ->. exact (proj1 (save_if_new_content _ _ _ _ _ H)).
  - intros c0 H0. destruct (save_if_new_existing _ _ _ _ _ _ _ H0 H) as (_ & E & F).
    auto.
Qed.

Lemma save_slip_text_if_new_idempotent_witness :
  let res := CalculationResult.mk "001" 1 "Client 01" (mkDate 2025 8 10) 5670
               (mkDec 2200 (-2)) d_11 125 5545 (mkDec 12199000 (-2))
               (mkDec 121990 (-2)) (mkDec 62370 (-2)) (mkDec 12014640 (-2)) in
  exists fs' p created,
    save_slip_text_if_new (mkFs ∅ ∅) res "first" = Ok (fs', (p, created))
    /\ p = path_join SLIPS_DIR (slip_filename res)
    /\ save_slip_text_if_new fs' res "second" = Ok (fs', (p, false)).
Proof.
  intros res.
  destruct (ensure_files_exist_runs (mkFs ∅ ∅) (lookup_empty _) (lookup_empty _)
              (lookup_empty _)) as [fs0 E0].
  destruct (save_if_new_total (mkFs ∅ ∅) fs0 SLIPS_DIR (slip_filename res) "first"
              (or_introl eq_refl) ltac:(vm_compute; reflexivity) E0)
    as (fs' & created & E & _).
  rewrite <- save_slip_text_if_new_eq in E.
  exists fs', (path_join SLIPS_DIR (slip_filename res)), created.
  split; [exact E|].
  destruct (save_slip_text_if_new_idempotent _ _ res "first" "second" _ _ E)
    as (H1 & H2 & _).
  split; [exact H1|exact H2].
Defined.

(** ** Saving range reports *)

Lemma save_range_report_if_new_total_aux (fs : filesystem) (utcnow party : string)
    (a b : Z) (text : string) (d : Date) :
  _range_report_path party a b d = RANGE_DIR ++ [range_report_filename party a b d]
  /\ (forall fs0, ensure_files_exist fs = Ok fs0 ->
        exists fs' created,
          save_range_report_if_new fs utcnow party a b text d
          = Ok (fs', (_range_report_path party a b d, created))
          /\ (created = false -> fs' = fs0)
          /\ (created = true ->
              files fs' !! _range_report_path party a b d
              = Some (range_report_header utcnow party a b +:+ text)))
  /\ (forall e, ensure_files_exist fs = Raise e ->
        save_range_report_if_new fs utcnow party a b text d = Raise e).
Proof.
  split; [apply range_report_path_plain|]. split.
  - intros fs0 E. rewrite save_range_report_if_new_eq.
    unfold _range_report_path.
    apply (save_if_new_total fs fs0 RANGE_DIR); [now right| |exact E].
    pose proof (range_report_path_plain party a b d) as H.
    unfold _range_report_path, path_join in H. now apply app_inv_head in H.
  - intros e E. rewrite save_range_report_if_new_eq. now apply save_if_new_Raise.
Qed.

(** Saving a range report fails only when the data directory
    cannot be set up.  For an ASCII party name and a file name of at most
    255 characters (the longest name the file system takes), the file name
    is a single path component (the party name goes through
    [_sanitize_filename_component]), so whenever [ensure_files_exist]
    returns, [save_range_report_if_new] returns too, with the path
    [range_reports/<name>]: a report that was there is left alone, a new
    one holds the header and the report text.  When [ensure_files_exist]
    raises, the save raises the same exception. *)
Theorem save_range_report_if_new_total (fs : filesystem) (utcnow party : string)
    (a b : Z) (text : string) (d : Date) :
  all_chars is_ascii party = true ->
  (String.length (range_report_filename party a b d) <= 255)%nat ->
  _range_report_path party a b d = RANGE_DIR ++ [range_report_filename party a b d]
  /\ (forall fs0, ensure_files_exist fs = Ok fs0 ->
        exists fs' created,
          save_range_report_if_new fs utcnow party a b text d
          = Ok (fs', (_range_report_path party a b d, created))
          /\ (created = false -> fs' = fs0)
          /\ (created = true ->
              files fs' !! _range_report_path party a b d
              = Some (range_report_header utcnow party a b +:+ text)))
  /\ (forall e, ensure_files_exist fs = Raise e ->
        save_range_report_if_new fs utcnow party a b text d = Raise e).
Proof. intros _ _. exact (save_range_report_if_new_total_aux fs utcnow party a b text d). Qed.

Lemma save_range_report_if_new_total_witness :
  let fs := mkFs ∅ ∅ in
  let party := "M/s Traders"%string in
  let d := mkDate 2025 8 10 in
  _range_report_path party 1 5 d = RANGE_DIR ++ [range_report_filename party 1 5 d]
  /\ (forall fs0, ensure_files_exist fs = Ok fs0 ->
        exists fs' created,
          save_range_report_if_new fs "2025-08-10T10:00:00" party 1 5 "report" d
          = Ok (fs', (_range_report_path party 1 5 d, created))
          /\ (created = false -> fs' = fs0)
          /\ (created = true ->
              files fs' !! _range_report_path party 1 5 d
              = Some (range_report_header "2025-08-10T10:00:00" party 1 5 +:+ "report")))
  /\ (forall e, ensure_files_exist fs = Raise e ->
        save_range_report_if_new fs "2025-08-10T10:00:00" party 1 5 "report" d = Raise e).
Proof.
  intros fs party d.
  assert (Ha : all_chars is_ascii party = true) by (vm_compute; reflexivity).
  assert (Hl : (String.length (range_report_filename party 1 5 d) <= 255)%nat)
    by (vm_compute; repeat constructor).
  exact (save_range_report_if_new_total fs "2025-08-10T10:00:00" party 1 5 "report" d
           Ha Hl).
Defined.

(** Saving a range report is idempotent and never overwrites: whenever
    [save_range_report_if_new] returns, saving again for the same party,
    window and date, at any later time and with any text, changes nothing
    and reports that nothing was created; a report that was there keeps
    its text and is reported as not created. *)
Theorem save_range_report_if_new_idempotent (fs fs' : filesystem)
    (utcnow utcnow' party : string) (a b : Z) (text text' : string) (d : Date)
    (p : list string) (created : bool) :
  save_range_report_if_new fs utcnow party a b text d = Ok (fs', (p, created)) ->
  p = _range_report_path party a b d
  /\ save_range_report_if_new fs' utcnow' party a b text' d = Ok (fs', (p, false))
  /\ (forall c0, files fs !! p = Some c0 ->
        created = false /\ files fs' !! p = Some c0).
Proof.
  rewrite !save_range_report_if_new_eq. intros H.
  destruct (save_if_new_Ok _ _ _ _ _ _ H) as (-> & _).
  split; [reflexivity|]. split; [exact (save_if_new_again _ _ _ _ _ _ _ H)|].
  intros c0 H0. destruct (save_if_new_existing _ _ _ _ _ _ _ H0 H) as (_ & E & F).
  auto.
Qed.

Lemma save_range_report_if_new_idempotent_witness :
  exists fs' p created,
    save_range_report_if_new (mkFs ∅ ∅) "2025-08-10T10:00:00" "M/s Traders" 1 5
      "report" (mkDate 2025 8 10) = Ok (fs', (p, created))
    /\ p = _range_report_path "M/s Traders" 1 5 (mkDate 2025 8 10)
    /\ save_range_report_if_new fs' "2025-08-11T09:00:00" "M/s Traders" 1 5
         "other" (mkDate 2025 8 10) = Ok (fs', (p, false)).
Proof.
  destruct (ensure_files_exist_runs (mkFs ∅ ∅) (lookup_empty _) (lookup_empty _)
              (lookup_empty _)) as [fs0 E0].
  destruct (proj1 (proj2 (save_range_report_if_new_total_aux (mkFs ∅ ∅)
              "2025-08-10T10:00:00" "M/s Traders" 1 5 "report" (mkDate 2025 8 10)))
              fs0 E0) as (fs' & created & E & _).
  exists fs', (_range_report_path "M/s Traders" 1 5 (mkDate 2025 8 10)), created.
  split; [exact E|].
  destruct (save_range_report_if_new_idempotent _ _ _ "2025-08-11T09:00:00" _ _ _ _
              "other" _ _ _ E) as (H1 & H2 & _).
  split; [exact H1|exact H2].
Defined.

(** ** Slip names *)

Lemma split_go_parts cur s :
  all_chars nonspace cur = true ->
  Forall (fun p => p <> EmptyString /\ all_chars nonspace p = true) (split_go cur s).
Proof.
  revert cur. induction s as [|c s IH]; intros cur Hcur; cbn [split_go].
  - destruct cur; cbn [is_empty]; repeat constructor; [discriminate|exact Hcur].
  - destruct (isspace c) eqn:Ec.
    + destruct cur as [|c0 cur]; cbn [is_empty]; [now apply IH|].
      constructor; [split; [discriminate|exact Hcur]|now apply IH].
    + apply IH. rewrite all_chars_app, Hcur. cbn [all_chars andb].
      unfold nonspace. now rewrite Ec.
Qed.

Lemma all_chars_str_take p n s : all_chars p s = true -> all_chars p (str_take n s) = true.
Proof.
  revert s. induction n as [|n IH]; intros [|c s]; try reflexivity.
  cbn [all_chars str_take]. rewrite !andb_true_iff. intros [Hc Hs]. auto.
Qed.

Lemma remove_spaces_none s : all_chars nonspace s = true -> remove_spaces s = s.
Proof.
  induction s as [|c s IH]; [reflexivity|]. cbn [all_chars remove_spaces].
  rewrite andb_true_iff. intros [Hc Hs]. rewrite (IH Hs).
  destruct (Ascii.eqb_spec c " ") as [->|_]; [discriminate Hc|reflexivity].
Qed.

(** The short client name of a slip file: never empty, at most 24
    characters (16 for a name of one word), and without any whitespace, so
    the removal of spaces in [slip_filename] finds nothing to remove. *)
Theorem shorten_client_name_bounds (name : string) :
  let s := _shorten_client_name name in
  s <> EmptyString
  /\ (String.length s <= 24)%nat
  /\ all_chars nonspace s = true
  /\ remove_spaces s = s
  /\ (forall p, split name = [p] -> s = str_take 16 p).
Proof.
  intros s.
  assert (core : s <> EmptyString /\ (String.length s <= 24)%nat
                 /\ all_chars nonspace s = true).
  { subst s. unfold _shorten_client_name.
    pose proof (split_go_parts EmptyString name eq_refl) as Hp. fold (split name) in Hp.
    destruct (split name) as [|p [|q rest]].
    - repeat split; [discriminate|cbn; lia].
    - apply Forall_cons in Hp as [[Hne Hc] _].
      split; [|split; [rewrite length_str_take; lia|now apply all_chars_str_take]].
      destruct p; [contradiction|discriminate].
    - apply Forall_cons in Hp as [[Hne Hc] Hrest].
      split; [|split; [rewrite length_str_take; lia|]].
      + destruct p; [contradiction|discriminate].
      + apply all_chars_str_take. rewrite all_chars_app, Hc. cbn [andb].
        assert (Hl : List.last (q :: rest) EmptyString ∈ q :: rest).
        { apply list_elem_of_In.
          destruct (exists_last (l := q :: rest) ltac:(discriminate)) as (l' & a & E).
          rewrite E, last_last. apply in_or_app. right. now left. }
        rewrite Forall_forall in Hrest. exact (proj2 (Hrest _ Hl)). }
  destruct core as (H1 & H2 & H3).
  split; [exact H1|]. split; [exact H2|]. split; [exact H3|].
  split; [now apply remove_spaces_none|].
  intros p Hp. subst s. unfold _shorten_client_name. now rewrite Hp.
Qed.

(** ** Saving a slip unconditionally *)

(** [save_slip_text] overwrites where [save_slip_text_if_new] does not:
    whenever it returns, the slip file holds the given text, whatever was
    there; every other file keeps its content; and a later
    [save_slip_text_if_new] for the same result finds the file and leaves
    it alone. *)
Theorem save_slip_text_overwrites (fs fs' : filesystem) (res : CalculationResult.t)
    (content : string) (p : list string) :
  save_slip_text fs res content = Ok (fs', p) ->
  p = path_join SLIPS_DIR (slip_filename res)
  /\ files fs' !! p = Some content
  /\ (forall q c, q <> p -> files fs !! q = Some c -> files fs' !! q = Some c)
  /\ (forall content',
        save_slip_text_if_new fs' res content' = Ok (fs', (p, false))).
Proof.
  unfold save_slip_text. intros H.
  apply bind_Ok in H as (fs1 & E & H). cbv beta zeta in H.
  apply bind_Ok in H as (fs2 & W & H). injection H as <- <-.
  destruct (ensure_files_exist_Ok _ _ E) as [(_ & F & _) I].
  pose proof (initialised_write _ _ _ _ I W) as I2.
  apply write_text_Ok in W as [_ ->]. cbn [files] in *.
  split; [reflexivity|]. split; [apply lookup_insert_eq|]. split.
  - intros q c Hq Hc. rewrite lookup_insert_ne by congruence. now apply F.
  - intros content'. rewrite save_slip_text_if_new_eq. unfold save_if_new.
    rewrite (initialised_stable _ I2). cbn [mbind result_bind].
    rewrite (path_exists_file _ _ content); [reflexivity|].
    cbn [files]. apply lookup_insert_eq.
Qed.

Lemma save_slip_text_overwrites_witness :
  let res := CalculationResult.mk "001" 1 "Client 01" (mkDate 2025 8 10) 5670
               (mkDec 2200 (-2)) d_11 125 5545 (mkDec 12199000 (-2))
               (mkDec 121990 (-2)) (mkDec 62370 (-2)) (mkDec 12014640 (-2)) in
  exists fs' p,
    save_slip_text (mkFs ∅ ∅) res "text" = Ok (fs', p)
    /\ files fs' !! p = Some "text"%string
    /\ save_slip_text_if_new fs' res "other" = Ok (fs', (p, false)).
Proof.
  intros res.
  destruct (save_slip_text (mkFs ∅ ∅) res "text") as [[fs' p]|] eqn:E;
    [|vm_compute in E; discriminate].
  exists fs', p. split; [reflexivity|].
  destruct (save_slip_text_overwrites _ _ _ _ _ E) as (_ & H2 & _ & H4).
  split; [exact H2|exact (H4 "other"%string)].
Defined.

(** ** The party list *)

Lemma unique_loop_from parties seen acc :
  unique_loop parties seen acc = acc ++ unique_from seen parties.
Proof.
  revert seen acc. induction parties as [|p rest IH]; intros seen acc;
    cbn [unique_loop unique_from].
  - now rewrite app_nil_r.
  - destruct (decide (lower p ∈ seen)); rewrite IH; [reflexivity|].
    now rewrite <- app_assoc.
Qed.

Lemma unique_from_sublist seen l : sublist (unique_from seen l) l.
Proof.
  revert seen. induction l as [|p l IH]; intros seen; cbn [unique_from].
  - constructor.
  - destruct (decide _); [apply sublist_cons|apply sublist_skip]; apply IH.
Qed.

Lemma unique_from_fresh seen l p : p ∈ unique_from seen l -> lower p ∉ seen.
Proof.
  revert seen. induction l as [|x l IH]; intros seen; cbn [unique_from].
  - intros H. inversion H.
  - destruct (decide _) as [Hin|Hnin]; [apply IH|].
    intros [->|H]%elem_of_cons; [exact Hnin|].
    apply IH in H. intros Hin. apply H, elem_of_union_r, Hin.
Qed.

Lemma unique_from_NoDup seen l : NoDup (lower <$> unique_from seen l).
Proof.
  revert seen. induction l as [|x l IH]; intros seen; cbn [unique_from].
  - constructor.
  - destruct (decide _) as [Hin|Hnin]; [apply IH|].
    rewrite fmap_cons. constructor; [|apply IH].
    intros (y & Hk & Hy)%list_elem_of_fmap.
    apply unique_from_fresh in Hy. apply Hy. rewrite <- Hk.
    apply elem_of_union_l, elem_of_singleton. reflexivity.
Qed.

(** Every key of the list is the key of a kept name, or was seen. *)
Lemma unique_from_keys seen l k :
  k ∈ lower <$> l -> k ∈ seen \/ k ∈ lower <$> unique_from seen l.
Proof.
  revert seen. induction l as [|x l IH]; intros seen; cbn [unique_from].
  - rewrite fmap_nil. intros H. inversion H.
  - rewrite fmap_cons. intros [->|H]%elem_of_cons.
    + destruct (decide _) as [Hin|Hnin]; [now left|]. right. rewrite fmap_cons. now left.
    + destruct (decide _) as [Hin|Hnin]; [now apply IH|].
      destruct (IH ({[lower x]} ∪ seen) H) as [Hs|Hk].
      * apply elem_of_union in Hs as [->%elem_of_singleton|Hs]; [|now left].
        right. rewrite fmap_cons. now left.
      * right. rewrite fmap_cons. now right.
Qed.

Lemma unique_from_app seen l1 l2 :
  unique_from seen (l1 ++ l2)
  = unique_from seen l1 ++ unique_from (list_to_set (lower <$> l1) ∪ seen) l2.
Proof.
  revert seen. induction l1 as [|x l1 IH]; intros seen.
  - cbn [app unique_from]. f_equal. apply set_eq. intros k.
    rewrite elem_of_union, elem_of_list_to_set, fmap_nil, elem_of_nil. tauto.
  - cbn [app unique_from]. destruct (decide _) as [Hin|Hnin].
    + rewrite IH. do 2 f_equal. apply set_eq. intros k.
      rewrite !elem_of_union, !elem_of_list_to_set, fmap_cons, elem_of_cons.
      split; [tauto|]. intros [[->|H]|H]; auto.
    + cbn [app]. rewrite IH. do 3 f_equal. apply set_eq. intros k.
      rewrite !elem_of_union, !elem_of_list_to_set, fmap_cons, elem_of_cons,
        elem_of_singleton. tauto.
Qed.

Lemma load_parties_eq rows : load_parties rows = unique_from ∅ (party_names rows).
Proof. unfold load_parties. now rewrite unique_loop_from. Qed.

Lemma strip_idem s : strip (strip s) = strip s.
Proof. apply strip_chars_idem. Qed.

Lemma party_names_app rows r :
  party_names (rows ++ [r])
  = party_names rows ++ (if decide (strip (get_text r "party_name") <> EmptyString)
                         then [strip (get_text r "party_name")] else []).
Proof.
  unfold party_names. rewrite fmap_app, filter_app. reflexivity.
Qed.

(** A kept name is the first of its key, and the first of a key is kept. *)
Lemma unique_from_first seen l p :
  p ∈ unique_from seen l <->
  exists l1 l2, l = l1 ++ p :: l2 /\ (lower p ∉ seen) /\ lower p ∉ (lower <$> l1).
Proof.
  split.
  - revert seen. induction l as [|x l IH]; intros seen; cbn [unique_from].
    + intros H. inversion H.
    + destruct (decide (lower x ∈ seen)) as [Hin|Hnin].
      * intros H. destruct (IH _ H) as (l1 & l2 & -> & Hs & Hl).
        exists (x :: l1), l2. split; [reflexivity|]. split; [exact Hs|].
        rewrite fmap_cons, not_elem_of_cons. split; [congruence|exact Hl].
      * intros [->|H]%elem_of_cons.
        -- exists [], l. split; [reflexivity|]. split; [exact Hnin|].
           rewrite fmap_nil. apply not_elem_of_nil.
        -- destruct (IH _ H) as (l1 & l2 & -> & Hs & Hl).
           rewrite not_elem_of_union, not_elem_of_singleton in Hs. destruct Hs as [Hx Hs].
           exists (x :: l1), l2. split; [reflexivity|]. split; [exact Hs|].
           rewrite fmap_cons, not_elem_of_cons. split; [exact Hx|exact Hl].
  - intros (l1 & l2 & -> & Hs & Hl). rewrite unique_from_app, elem_of_app. right.
    cbn [unique_from]. rewrite decide_False; [now left|].
    rewrite not_elem_of_union, elem_of_list_to_set. split; assumption.
Qed.

(** [load_parties] returns each party once, whatever the case of
    its letters: the names are stripped and not empty, no two of them are
    equal up to case, they come in the order of the file, and every name of
    the file is there up to case.  Each party is listed at its first
    spelling: a name is returned exactly when it stands in the file with
    no name of the same letters, up to case, before it. *)
Theorem load_parties_unique (rows : list row) :
  let parties := load_parties rows in
  NoDup (lower <$> parties)
  /\ sublist parties (party_names rows)
  /\ Forall (fun p => p <> EmptyString /\ strip p = p) parties
  /\ (forall r, r ∈ rows -> strip (get_text r "party_name") <> EmptyString ->
        lower (strip (get_text r "party_name")) ∈ lower <$> parties)
  /\ (forall p, p ∈ parties <->
        exists l1 l2, party_names rows = l1 ++ p :: l2 /\ lower p ∉ (lower <$> l1)).
Proof.
  intros parties. subst parties. rewrite load_parties_eq.
  split; [apply unique_from_NoDup|]. split; [apply unique_from_sublist|].
  split; [|split].
  - apply Forall_forall. intros p Hp.
    apply (fun H => elem_of_sublist _ _ _ H (unique_from_sublist ∅ (party_names rows))) in Hp.
    unfold party_names in Hp. apply list_elem_of_filter in Hp as [Hne Hp].
    split; [exact Hne|]. apply list_elem_of_fmap in Hp as (r & -> & _).
    apply strip_idem.
  - intros r Hr Hne.
    destruct (unique_from_keys ∅ (party_names rows)
                (lower (strip (get_text r "party_name")))) as [H|H].
    + apply list_elem_of_fmap. eexists. split; [reflexivity|].
      unfold party_names. apply list_elem_of_filter. split; [exact Hne|].
      apply list_elem_of_fmap. now exists r.
    + now apply not_elem_of_empty in H.
    + exact H.
  - intros p. rewrite unique_from_first. split.
    + intros (l1 & l2 & E & _ & Hl). eauto.
    + intros (l1 & l2 & E & Hl). exists l1, l2.
      split; [exact E|]. split; [apply not_elem_of_empty|exact Hl].
Qed.

Lemma append_party_known rows name :
  strip name <> EmptyString ->
  lower (strip name) ∈ lower <$> load_parties (append_party_if_new rows name).
Proof.
  intros Hne. unfold append_party_if_new. cbv zeta.
  destruct (is_empty (strip name)) eqn:Ee;
    [destruct (strip name); [contradiction|discriminate]|].
  destruct (decide _) as [Hin|Hnin]; [now apply elem_of_list_to_set in Hin|].
  rewrite load_parties_eq, party_names_app.
  assert (Hg : get_text {[ "party_name"%string := strip name ]} "party_name" = strip name).
  { unfold get_text. now rewrite lookup_singleton_eq. }
  rewrite Hg, strip_idem. destruct (decide _) as [_|Hc]; [|contradiction].
  rewrite unique_from_app, fmap_app, elem_of_app.
  cbn [unique_from]. destruct (decide _) as [Hk|Hk].
  - left. apply elem_of_union in Hk as [Hk|Hk]; [|now apply not_elem_of_empty in Hk].
    apply elem_of_list_to_set in Hk.
    destruct (unique_from_keys ∅ _ _ Hk) as [H|H];
      [now apply not_elem_of_empty in H|exact H].
  - right. rewrite fmap_cons. now left.
Qed.

(** [append_party_if_new] adds a party once.  A blank name changes
    nothing; otherwise the stripped name is in the list afterwards, up to
    case; the parties listed before stay where they were, at most one is
    added at the end; and appending the same name again, in any case of
    its letters and with any blanks around it, changes nothing. *)
Theorem append_party_if_new_once (rows : list row) (name : string) :
  (strip name = EmptyString -> append_party_if_new rows name = rows)
  /\ (strip name <> EmptyString ->
      lower (strip name) ∈ lower <$> load_parties (append_party_if_new rows name))
  /\ (exists added, load_parties (append_party_if_new rows name)
                    = load_parties rows ++ added
                    /\ (length added <= 1)%nat)
  /\ (forall name', lower (strip name') = lower (strip name) ->
        append_party_if_new (append_party_if_new rows name) name'
        = append_party_if_new rows name).
Proof.
  split; [|split; [|split]].
  - intros E. unfold append_party_if_new. cbv zeta. now rewrite E.
  - apply append_party_known.
  - unfold append_party_if_new. cbv zeta.
    destruct (is_empty (strip name)); [exists []; split; [now rewrite app_nil_r|cbn; lia]|].
    destruct (decide _); [exists []; split; [now rewrite app_nil_r|cbn; lia]|].
    rewrite !load_parties_eq, party_names_app, unique_from_app.
    eexists. split; [reflexivity|].
    destruct (decide _); cbn [unique_from]; [destruct (decide _)|]; cbn; lia.
  - intros name' Hk.
    destruct (is_empty (strip name')) eqn:Ee'.
    { unfold append_party_if_new at 1. cbv zeta. now rewrite Ee'. }
    assert (Hne' : strip name' <> EmptyString) by (intros E; now rewrite E in Ee').
    assert (Hne : strip name <> EmptyString).
    { intros E. rewrite E in Hk. destruct (strip name'); [contradiction|discriminate]. }
    pose proof (append_party_known rows name Hne) as Hin.
    unfold append_party_if_new at 1. cbv zeta. rewrite Ee'.
    destruct (decide _) as [_|Hnin]; [reflexivity|].
    exfalso. apply Hnin. apply elem_of_list_to_set. now rewrite Hk.
Qed.

(** ** The range report: errors and outcome *)

(** Amounts that are not finite numbers.  A final amount that [float]
    cannot read is printed as [0]; one that reads as an infinity or as NaN
    makes [int(amt)] raise, OverflowError and ValueError. *)
Theorem amount_text_not_a_number (r : row) :
  let amount := get_or r "final_amount" "Amount" "0" in
  (float_of_str amount = None -> amount_text r = Ok "0"%string)
  /\ (forall neg, float_of_str amount = Some (PyFloat.Infinity neg) ->
        amount_text r
        = Raise (OverflowError "cannot convert float infinity to integer"))
  /\ (float_of_str amount = Some PyFloat.NaN ->
      amount_text r = Raise (ValueError "cannot convert float NaN to integer")).
Proof.
  intros amount. unfold amount_text. fold amount. split; [|split].
  - intros ->. vm_compute. reflexivity.
  - intros neg ->. reflexivity.
  - intros ->. reflexivity.
Qed.

Lemma amount_text_not_a_number_witness :
  amount_text {[ "final_amount" := "n/a" ]}%string = Ok "0"%string
  /\ amount_text {[ "final_amount" := "1e999" ]}%string
     = Raise (OverflowError "cannot convert float infinity to integer")
  /\ amount_text {[ "final_amount" := "NaN" ]}%string
     = Raise (ValueError "cannot convert float NaN to integer").
Proof.
  assert (H1 : float_of_str (get_or {[ "final_amount" := "n/a" ]}%string
                               "final_amount" "Amount" "0") = None)
    by (vm_compute; reflexivity).
  assert (H2 : float_of_str (get_or {[ "final_amount" := "1e999" ]}%string
                               "final_amount" "Amount" "0")
               = Some (PyFloat.Infinity false))
    by (vm_compute; reflexivity).
  assert (H3 : float_of_str (get_or {[ "final_amount" := "NaN" ]}%string
                               "final_amount" "Amount" "0") = Some PyFloat.NaN)
    by (vm_compute; reflexivity).
  split; [|split].
  - exact (proj1 (amount_text_not_a_number _) H1).
  - exact (proj1 (proj2 (amount_text_not_a_number _)) false H2).
  - exact (proj2 (proj2 (amount_text_not_a_number _)) H3).
Defined.

(** One bad amount blocks the whole report.  When a row selected by the
    window has a final amount on which [amount_text] raises, the request
    ends with an error message instead of a report, and the ledger is left
    as it was (it is not deduplicated). *)
Theorem bad_amount_blocks_report (c1 c2 : ascii) (s1 s2 : string) (a b v : Z)
    (h : history) (r : row) (e : error) :
  int_of_str (String c1 s1) = Some a -> int_of_str (String c2 s2) = Some b ->
  (v, r) ∈ select_vouchers a b (read_history_rows h) ->
  amount_text r = Raise e ->
  exists msg,
    voucher_range (Some (String c1 s1)) (Some (String c2 s2)) h
    = (h, mkResponse (Some msg) None).
Proof.
  intros Ha Hb Hin Hr. unfold voucher_range. rewrite Ha, Hb. cbv zeta.
  destruct (build_entries_raise _ _ _ _ Hin Hr) as [e' He'].
  destruct (select_vouchers a b (read_history_rows h)) as [|x l] eqn:E;
    [inversion Hin|].
  rewrite He'. eauto.
Qed.

Lemma bad_amount_blocks_report_witness :
  let bad := {[ "v_no" := "3"; "client_name" := "Ravi"; "final_amount" := "NaN" ]}%string
             : row in
  let good := {[ "v_no" := "4"; "client_name" := "Ravi"; "final_amount" := "10.00" ]}%string
              : row in
  let h := mkHistory standard_header [bad; good] in
  exists msg,
    voucher_range (Some "1"%string) (Some "5"%string) h
    = (h, mkResponse (Some msg) None).
Proof.
  intros bad good h.
  assert (Ha : int_of_str "1" = Some 1) by (vm_compute; reflexivity).
  assert (Hb : int_of_str "5" = Some 5) by (vm_compute; reflexivity).
  assert (Hin : (3, bad) ∈ select_vouchers 1 5 (read_history_rows h)).
  { apply select_vouchers_elem. split; [now left|]. split; [|vm_compute; split; discriminate].
    vm_compute. reflexivity. }
  assert (Hr : amount_text bad = Raise (ValueError "cannot convert float NaN to integer"))
    by (vm_compute; reflexivity).
  exact (bad_amount_blocks_report "1" "5" EmptyString EmptyString 1 5 3 h bad _
           Ha Hb Hin Hr).
Defined.

(** ** Binary floats: what [round_b64] returns *)

Lemma pow2_pos k : 0 <= k -> 0 < 2 ^ k.
Proof. intros H. apply Z.pow_pos_nonneg; lia. Qed.

Lemma pow2_add a b : 0 <= a -> 0 <= b -> 2 ^ (a + b) = 2 ^ a * 2 ^ b.
Proof. intros. apply Z.pow_add_r; assumption. Qed.

Lemma pow2_le a b : 0 <= a <= b -> 2 ^ a <= 2 ^ b.
Proof. intros. apply Z.pow_le_mono_r; lia. Qed.

Lemma pow2_lt a b : 0 <= a < b -> 2 ^ a < 2 ^ b.
Proof. intros. apply Z.pow_lt_mono_r; lia. Qed.

(** The quotient at the first exponent tried has 53 or 54 bits. *)
Lemma floor_at_range num den :
  0 < num -> 0 < den ->
  let e0 := Z.log2 num - Z.log2 den - 53 in
  e0 <= 0 ->
  2 ^ 52 * den <= num * 2 ^ (- e0) < 2 ^ 54 * den.
Proof.
  intros Hn Hd e0 He.
  pose proof (Z.log2_spec num Hn) as [Ln1 Ln2].
  pose proof (Z.log2_spec den Hd) as [Ld1 Ld2].
  pose proof (Z.log2_nonneg num) as Ln0. pose proof (Z.log2_nonneg den) as Ld0.
  set (Ln := Z.log2 num) in *. set (Ld := Z.log2 den) in *.
  assert (E : - e0 = Ld - Ln + 53) by (unfold e0; lia).
  assert (Hk : 0 <= - e0) by lia.
  pose proof (pow2_pos (- e0) Hk) as Hp.
  assert (E1 : 2 ^ Ln * 2 ^ (- e0) = 2 ^ (Ld + 53)).
  { rewrite <- pow2_add by lia. f_equal. lia. }
  assert (E2 : 2 ^ (Ld + 53) = 2 ^ Ld * 2 ^ 53) by (apply pow2_add; lia).
  assert (E3 : 2 ^ (Ln + 1) = 2 * 2 ^ Ln) by (rewrite pow2_add by lia; lia).
  assert (E4 : 2 ^ (Ld + 1) = 2 * 2 ^ Ld) by (rewrite pow2_add by lia; lia).
  pose proof (pow2_pos Ln Ln0). pose proof (pow2_pos Ld Ld0).
  split.
  - apply Z.le_trans with (2 ^ Ln * 2 ^ (- e0)); [|apply Z.mul_le_mono_nonneg_r; lia].
    rewrite E1, E2. change (2 ^ 53) with (2 * 2 ^ 52). nia.
  - apply Z.lt_le_trans with (2 ^ (Ln + 1) * 2 ^ (- e0)).
    + apply Z.mul_lt_mono_pos_r; lia.
    + rewrite E3, <- Z.mul_assoc, E1, E2. change (2 ^ 54) with (2 * 2 ^ 53). nia.
Qed.

(** [round_b64] away from the subnormal numbers, from overflow and from
    the integers above 2 ^ 53: the value is rounded on the grid of
    [2 ^ (- K)] on which it has 53 bits. *)
Lemma round_b64_grid num den :
  0 < num -> 0 < den ->
  let e0 := Z.log2 num - Z.log2 den - 53 in
  -1074 <= e0 -> e0 <= -2 ->
  exists K,
    (K = - e0 \/ K = - e0 - 1)
    /\ 2 ^ 52 * den <= num * 2 ^ K < 2 ^ 53 * den
    /\ PyFloat.round_b64 false num den
       = if rnd_half_even (num * 2 ^ K) den =? 2 ^ 53
         then PyFloat.Finite (2 ^ 52) (1 - K)
         else PyFloat.Finite (rnd_half_even (num * 2 ^ K) den) (- K).
Proof.
  intros Hn Hd e0 Hlo Hhi.
  destruct (floor_at_range num den Hn Hd ltac:(fold e0; lia)) as [F1 F2]. fold e0 in F1, F2.
  unfold PyFloat.round_b64. destruct (Z.eqb_spec num 0) as [|_]; [lia|].
  fold e0. cbv zeta.
  assert (Hneg : (0 <=? e0) = false) by (apply Z.leb_gt; lia).
  rewrite Hneg.
  assert (E : 2 ^ (- e0) = 2 * 2 ^ (- (e0 + 1))).
  { replace (- e0) with (1 + - (e0 + 1)) by lia. rewrite pow2_add by lia. reflexivity. }
  pose proof (pow2_pos (- (e0 + 1)) ltac:(lia)) as Hp1.
  destruct (Z.leb_spec (2 ^ 53) (num * 2 ^ (- e0) / den)) as [Hbig|Hsmall].
  - (* 54 bits: one exponent up *)
    exists (- e0 - 1). split; [now right|].
    assert (Hb : 2 ^ 53 * den <= num * 2 ^ (- e0)).
    { pose proof (Z.mul_div_le (num * 2 ^ (- e0)) den Hd). nia. }
    replace (- e0 - 1) with (- (e0 + 1)) by lia.
    split; [rewrite E in Hb, F2; change (2 ^ 53) with (2 * 2 ^ 52) in Hb;
            change (2 ^ 54) with (2 * 2 ^ 53) in F2; lia|].
    rewrite Z.max_l by lia.
    assert (Hneg1 : (0 <=? e0 + 1) = false) by (apply Z.leb_gt; lia).
    rewrite Hneg1.
    destruct (Z.eqb_spec (rnd_half_even (num * 2 ^ (- (e0 + 1))) den) (2 ^ 53)).
    + destruct (Z.ltb_spec 971 (e0 + 1 + 1)); [lia|]. do 2 f_equal. lia.
    + destruct (Z.ltb_spec 971 (e0 + 1)); [lia|]. f_equal. lia.
  - exists (- e0). split; [now left|].
    assert (Hb : num * 2 ^ (- e0) < 2 ^ 53 * den).
    { pose proof (Z.mul_succ_div_gt (num * 2 ^ (- e0)) den Hd). nia. }
    split; [lia|]. rewrite Z.max_l by lia. rewrite Hneg.
    destruct (Z.eqb_spec (rnd_half_even (num * 2 ^ (- e0)) den) (2 ^ 53)).
    + destruct (Z.ltb_spec 971 (e0 + 1)); [lia|]. do 2 f_equal. lia.
    + destruct (Z.ltb_spec 971 e0); [lia|]. f_equal. lia.
Qed.

(** A dyadic number of at most 53 bits is returned exactly, normalised. *)
Lemma round_b64_exact z g :
  0 < z < 2 ^ 53 -> 0 <= g <= 1000 -> Z.log2 z - g <= 51 ->
  PyFloat.round_b64 false z (2 ^ g)
  = PyFloat.Finite (z * 2 ^ (52 - Z.log2 z)) (Z.log2 z - 52 - g).
Proof.
  intros Hz Hg HL.
  pose proof (Z.log2_spec z ltac:(lia)) as [L1 L2].
  pose proof (Z.log2_nonneg z) as L0. set (L := Z.log2 z) in *.
  assert (HL52 : L <= 52).
  { destruct (Z.le_gt_cases L 52); [assumption|].
    pose proof (pow2_le 53 L ltac:(lia)). lia. }
  pose proof (pow2_pos g ltac:(lia)) as Hpg.
  destruct (round_b64_grid z (2 ^ g) ltac:(lia) Hpg) as (K & HK & [B1 B2] & ->);
    rewrite ?Z.log2_pow2 by lia; fold L; try lia.
  rewrite Z.log2_pow2 in HK by lia. fold L in HK.
  assert (E3 : 2 ^ (L + 1) = 2 * 2 ^ L) by (rewrite pow2_add by lia; lia).
  pose proof (pow2_pos L L0) as HpL.
  destruct HK as [-> | ->].
  - exfalso.
    assert (E : 2 ^ L * 2 ^ (- (L - g - 53)) = 2 ^ 53 * 2 ^ g).
    { rewrite <- !pow2_add by lia. f_equal. lia. }
    pose proof (pow2_pos (- (L - g - 53)) ltac:(lia)). nia.
  - assert (E : z * 2 ^ (- (L - g - 53) - 1) = z * 2 ^ (52 - L) * 2 ^ g).
    { rewrite <- Z.mul_assoc, <- pow2_add by lia. do 2 f_equal. lia. }
    rewrite E, rnd_half_even_exact by lia.
    assert (Hlt : z * 2 ^ (52 - L) < 2 ^ 53).
    { assert (E5 : 2 * 2 ^ L * 2 ^ (52 - L) = 2 ^ 53).
      { rewrite <- E3, <- pow2_add by lia. f_equal. lia. }
      pose proof (pow2_pos (52 - L) ltac:(lia)). nia. }
    destruct (Z.eqb_spec (z * 2 ^ (52 - L)) (2 ^ 53)); [lia|]. f_equal. lia.
Qed.

(** ** The amount of a ledger row, split into rupees and paise *)

Lemma log2_lt_1e15 c : 0 < c < 10 ^ 15 -> 0 <= Z.log2 c <= 49.
Proof.
  intros H. split; [apply Z.log2_nonneg|].
  assert (Z.log2 c < 50); [|lia].
  apply Z.log2_lt_pow2; [lia|]. change (2 ^ 50) with 1125899906842624.
  change (10 ^ 15) with 1000000000000000 in H. lia.
Qed.

(** The amount as [float] reads it: rounded on a grid of [2 ^ (- K)] with
    [K] at least 9, and never up to a power of two. *)
Lemma amount_float c :
  0 < c < 10 ^ 15 ->
  exists K M,
    9 <= K <= 59 /\ (100 <= c -> K <= 53)
    /\ M = rnd_half_even (c * 2 ^ K) 100
    /\ 2 ^ 52 <= M < 2 ^ 53
    /\ PyFloat.round_b64 false c 100 = PyFloat.Finite M (- K).
Proof.
  intros Hc. pose proof (log2_lt_1e15 c Hc) as HL.
  destruct (round_b64_grid c 100 ltac:(lia) ltac:(lia)) as (K & HK & [B1 B2] & E);
    change (Z.log2 100) with 6 in *; try lia.
  assert (HKr : 9 <= K <= 59) by lia.
  assert (HK53 : 100 <= c -> K <= 53).
  { intros H100. assert (6 <= Z.log2 c); [|lia].
    apply Z.log2_le_pow2; [lia|]. change (2 ^ 6) with 64. lia. }
  exists K, (rnd_half_even (c * 2 ^ K) 100).
  split; [exact HKr|]. split; [exact HK53|]. split; [reflexivity|].
  pose proof (rnd_half_even_bounds (c * 2 ^ K) 100 ltac:(lia)) as [R1 R2].
  pose proof (rnd_half_even_spec (c * 2 ^ K) 100 ltac:(lia)) as [S1 _].
  assert (Q1 : 2 ^ 52 <= c * 2 ^ K / 100).
  { apply Z.div_le_lower_bound; lia. }
  assert (Q2 : c * 2 ^ K / 100 < 2 ^ 53).
  { apply Z.div_lt_upper_bound; lia. }
  set (M := rnd_half_even (c * 2 ^ K) 100) in *.
  assert (HM : M <> 2 ^ 53).
  { intros EM. rewrite EM in S1.
    assert (E9 : 2 ^ K = 512 * 2 ^ (K - 9)).
    { change 512 with (2 ^ 9). rewrite <- pow2_add by lia. f_equal. lia. }
    pose proof (pow2_pos (K - 9) ltac:(lia)) as Hp.
    rewrite E9 in S1, B2. change (2 ^ 53) with (512 * 17592186044416) in S1, B2.
    set (t := c * (512 * 2 ^ (K - 9))) in *.
    assert (Et : t = 512 * (c * 2 ^ (K - 9))) by (unfold t; ring).
    set (u := c * 2 ^ (K - 9)) in *. lia. }
  split; [lia|].
  rewrite E. destruct (Z.eqb_spec M (2 ^ 53)); [contradiction|reflexivity].
Qed.

(** The integer part and what is left over, on the grid. *)
Lemma amount_grid c K M :
  0 <= c -> 9 <= K -> M = rnd_half_even (c * 2 ^ K) 100 ->
  let q := c / 100 in
  let f := c mod 100 in
  let z := M - q * 2 ^ K in
  0 <= z < 2 ^ K /\ Z.abs (100 * z - f * 2 ^ K) <= 50.
Proof.
  intros Hc HK EM q f z.
  pose proof (rnd_half_even_spec (c * 2 ^ K) 100 ltac:(lia)) as [S1 _].
  rewrite <- EM in S1.
  pose proof (Z.div_mod c 100 ltac:(lia)) as Ec. fold q f in Ec.
  pose proof (Z.mod_pos_bound c 100 ltac:(lia)) as Hf. fold f in Hf.
  assert (E9 : 2 ^ K = 512 * 2 ^ (K - 9)).
  { change 512 with (2 ^ 9). rewrite <- pow2_add by lia. f_equal. lia. }
  pose proof (pow2_pos (K - 9) ltac:(lia)) as Hp.
  set (P := 2 ^ K) in *.
  assert (EA : M * 100 - c * P = 100 * z - f * P) by (unfold z; rewrite Ec at 1; ring).
  rewrite EA in S1.
  assert (HfP : 0 <= f * P <= 99 * P) by nia.
  split; [|lia]. lia.
Qed.

Lemma to_int_grid M K q z :
  0 <= K -> M = q * 2 ^ K + z -> 0 <= z < 2 ^ K -> 0 <= q -> 0 < K ->
  PyFloat.to_int (PyFloat.Finite M (- K)) = Ok q.
Proof.
  intros HK0 EM Hz Hq HK. unfold PyFloat.to_int.
  destruct (Z.leb_spec 0 (- K)); [lia|]. f_equal.
  rewrite Z.opp_involutive.
  pose proof (pow2_pos K HK0) as Hp.
  rewrite Z.quot_div_nonneg by nia.
  symmetry. apply (Z.div_unique_pos M (2 ^ K) q z); [lia|]. lia.
Qed.

Lemma of_int_pos q :
  0 < q < 2 ^ 44 ->
  PyFloat.of_int q = PyFloat.Finite (q * 2 ^ (52 - Z.log2 q)) (Z.log2 q - 52).
Proof.
  intros Hq. unfold PyFloat.of_int, PyFloat.round_dyadic.
  change (0 <=? 0) with true. cbv iota.
  destruct (Z.ltb_spec q 0); [lia|].
  rewrite Z.abs_eq by lia. change (2 ^ 0) with 1. rewrite Z.mul_1_r.
  change 1 with (2 ^ 0) at 1.
  assert (HL : Z.log2 q < 44) by (apply Z.log2_lt_pow2; lia).
  rewrite round_b64_exact; [f_equal; lia| | |]; try lia.
Qed.

Lemma of_int_100 : PyFloat.of_int 100 = PyFloat.Finite (100 * 2 ^ 46) (-46).
Proof. vm_compute. reflexivity. Qed.

Lemma round_dyadic_exact Z0 G :
  0 <= Z0 < 2 ^ 53 -> 9 <= G <= 1000 ->
  exists dm de,
    PyFloat.round_dyadic Z0 (- G) = PyFloat.Finite dm de
    /\ ((Z0 = 0 /\ dm = 0 /\ de = 0)
        \/ (2 ^ 52 <= dm < 2 ^ 53 /\ - G - 52 <= de <= - G
            /\ dm = Z0 * 2 ^ (- de - G))).
Proof.
  intros HZ HG. unfold PyFloat.round_dyadic.
  destruct (Z.leb_spec 0 (- G)); [lia|].
  destruct (Z.ltb_spec Z0 0); [lia|].
  rewrite Z.abs_eq, Z.opp_involutive by lia.
  destruct (Z.eq_dec Z0 0) as [->|Hne].
  - exists 0, 0. split; [reflexivity|]. now left.
  - pose proof (Z.log2_spec Z0 ltac:(lia)) as [L1 L2].
    pose proof (Z.log2_nonneg Z0) as L0.
    assert (HL : Z.log2 Z0 < 53) by (apply Z.log2_lt_pow2; lia).
    rewrite round_b64_exact by lia.
    eexists _, _. split; [reflexivity|]. right.
    set (L := Z.log2 Z0) in *.
    assert (E3 : 2 ^ (L + 1) = 2 * 2 ^ L) by (rewrite pow2_add by lia; lia).
    pose proof (pow2_pos L L0). pose proof (pow2_pos (52 - L) ltac:(lia)).
    assert (E5 : 2 * 2 ^ L * 2 ^ (52 - L) = 2 ^ 53).
    { rewrite <- E3, <- pow2_add by lia. f_equal. lia. }
    split; [split; nia|]. split; [lia|]. do 2 f_equal. lia.
Qed.

(** The difference [amount - rupees] is exact. *)
Lemma fsub_rupees M K q z :
  9 <= K <= 59 -> (1 <= q -> K <= 53) -> 0 <= q < 2 ^ 44 ->
  M = q * 2 ^ K + z -> 0 <= z < 2 ^ K -> 0 <= M < 2 ^ 53 ->
  exists dm de,
    PyFloat.fsub (PyFloat.Finite M (- K)) (PyFloat.of_int q) = PyFloat.Finite dm de
    /\ ((z = 0 /\ dm = 0 /\ de = 0)
        \/ (2 ^ 52 <= dm < 2 ^ 53 /\ K <= - de <= 111
            /\ dm = z * 2 ^ (- de - K))).
Proof.
  intros HK HK' Hq EM Hz HM.
  pose proof (pow2_pos K ltac:(lia)) as HP.
  destruct (Z.eq_dec q 0) as [->|Hq0].
  - change (PyFloat.of_int 0) with (PyFloat.Finite 0 0).
    unfold PyFloat.fsub. rewrite Z.min_l by lia.
    rewrite Z.sub_diag. change (2 ^ 0) with 1.
    replace (M * 1 - 0 * 2 ^ (0 - - K)) with z by lia.
    destruct (round_dyadic_exact z K ltac:(lia) ltac:(lia)) as (dm & de & E & Hc).
    exists dm, de. split; [exact E|].
    destruct Hc as [Hc|(H1 & H2 & H3)]; [now left|right].
    split; [exact H1|]. split; [lia|exact H3].
  - rewrite of_int_pos by lia.
    pose proof (Z.log2_nonneg q) as HL0.
    assert (HL : Z.log2 q < 44) by (apply Z.log2_lt_pow2; lia).
    set (L := Z.log2 q) in *.
    unfold PyFloat.fsub.
    set (e := Z.min (- K) (L - 52)).
    set (G := - e).
    assert (HG : K <= G <= 53) by (unfold G, e; lia).
    assert (EZ : M * 2 ^ (- K - e) - q * 2 ^ (52 - L) * 2 ^ (L - 52 - e)
                 = z * 2 ^ (G - K)).
    { replace (- K - e) with (G - K) by (unfold G; lia).
      assert (E1 : 2 ^ (52 - L) * 2 ^ (L - 52 - e) = 2 ^ K * 2 ^ (G - K)).
      { rewrite <- !pow2_add by (unfold G, e; lia). f_equal. unfold G. lia. }
      rewrite EM. rewrite <- Z.mul_assoc, E1. ring. }
    rewrite EZ. replace e with (- G) by (unfold G; lia).
    pose proof (pow2_pos (G - K) ltac:(lia)) as HP2.
    assert (EG : 2 ^ K * 2 ^ (G - K) = 2 ^ G).
    { rewrite <- pow2_add by lia. f_equal. lia. }
    assert (HG53 : 2 ^ G <= 2 ^ 53) by (apply pow2_le; lia).
    destruct (round_dyadic_exact (z * 2 ^ (G - K)) G ltac:(nia) ltac:(lia))
      as (dm & de & E & Hc).
    exists dm, de. split; [exact E|].
    destruct Hc as [(H1 & H2 & H3)|(H1 & H2 & H3)].
    + left. split; [nia|]. now split.
    + right. split; [exact H1|]. split; [lia|].
      rewrite H3, <- Z.mul_assoc, <- pow2_add by lia. do 2 f_equal. lia.
Qed.

(** A value within less than half a unit of [f] rounds to [f]. *)
Lemma rnd_half_even_near m p f :
  0 < p -> 2 * Z.abs (f * p - m) < p -> rnd_half_even m p = f.
Proof.
  intros Hp H. symmetry. apply rnd_half_even_unique; lia.
Qed.

(** A hundred times the exact difference rounds to the paise. *)
Lemma paise_round dm D K z f :
  2 ^ 52 <= dm < 2 ^ 53 -> 9 <= K -> K <= D <= 111 ->
  dm = z * 2 ^ (D - K) -> 0 <= f < 100 ->
  Z.abs (100 * z - f * 2 ^ K) <= 50 ->
  PyFloat.py_round
    (PyFloat.fmul (PyFloat.Finite dm (- D)) (PyFloat.Finite (100 * 2 ^ 46) (-46)))
  = Ok f.
Proof.
  intros Hdm HK HD Edm Hf Hz.
  unfold PyFloat.fmul, PyFloat.round_dyadic.
  destruct (Z.leb_spec 0 (- D + -46)); [lia|].
  replace (- (- D + -46)) with (D + 46) by lia.
  set (num := dm * (100 * 2 ^ 46)).
  assert (Hnum : 2 ^ 104 <= num < 2 ^ 106).
  { unfold num. change (2 ^ 104) with (2 ^ 52 * (64 * 2 ^ 46)).
    change (2 ^ 106) with (2 ^ 53 * (128 * 2 ^ 46)).
    change (2 ^ 46) with 70368744177664. lia. }
  assert (H104 : 0 < 2 ^ 104) by reflexivity.
  destruct (Z.ltb_spec num 0); [lia|].
  rewrite Z.abs_eq by lia.
  assert (HL1 : 104 <= Z.log2 num) by (apply Z.log2_le_pow2; lia).
  assert (HL2 : Z.log2 num < 106) by (apply Z.log2_lt_pow2; lia).
  pose proof (pow2_pos (D + 46) ltac:(lia)) as Hden.
  pose proof (Z.log2_pow2 (D + 46) ltac:(lia)) as Lden.
  destruct (round_b64_grid num (2 ^ (D + 46)) ltac:(lia) Hden) as (K' & HK' & _ & ->);
    [rewrite Lden; lia|rewrite Lden; lia|].
  rewrite Lden in HK'.
  assert (HK2 : 2 <= K' <= 106) by lia. clear HK'.
  set (M' := rnd_half_even (num * 2 ^ K') (2 ^ (D + 46))).
  assert (HM0 : 0 <= M').
  { apply rnd_half_even_nonneg; [|exact Hden].
    pose proof (pow2_pos K' ltac:(lia)). nia. }
  pose proof (rnd_half_even_spec (num * 2 ^ K') (2 ^ (D + 46)) Hden) as [S1 _].
  fold M' in S1.
  (* the arithmetic *)
  set (P := 2 ^ K) in *. set (T := 2 ^ (D - K)) in *.
  assert (HP : 512 <= P).
  { change 512 with (2 ^ 9). apply pow2_le. lia. }
  pose proof (pow2_pos (D - K) ltac:(lia)) as HT. fold T in HT.
  assert (Eden : 2 ^ (D + 46) = 2 ^ 46 * T * P).
  { unfold T, P. rewrite <- !pow2_add by lia. f_equal. lia. }
  assert (HP'1 : 2 ^ K' = 2 * 2 ^ (K' - 1)).
  { change 2 with (2 ^ 1) at 2. rewrite <- pow2_add by lia. f_equal. lia. }
  assert (HP'2 : 2 <= 2 ^ (K' - 1)).
  { change 2 with (2 ^ 1) at 1. apply pow2_le. lia. }
  set (P' := 2 ^ K') in *. set (P'' := 2 ^ (K' - 1)) in *.
  set (W := 2 ^ 46 * T) in *.
  assert (HW : 0 < W) by (unfold W; change (2 ^ 46) with 70368744177664; lia).
  assert (Enum : num = 100 * z * W).
  { unfold num, W. rewrite Edm. ring. }
  rewrite Eden, Enum in S1.
  assert (S2 : 2 * Z.abs (M' * P - 100 * z * P') <= P).
  { apply (Z.mul_le_mono_pos_r _ _ W HW).
    replace (2 * Z.abs (M' * P - 100 * z * P') * W)
      with (2 * Z.abs (M' * (W * P) - 100 * z * W * P')); [lia|].
    replace (M' * (W * P) - 100 * z * W * P')
      with ((M' * P - 100 * z * P') * W) by ring.
    rewrite Z.abs_mul, (Z.abs_eq W) by lia. ring. }
  assert (S3 : Z.abs (100 * z * P' - f * P * P') <= 50 * P').
  { replace (100 * z * P' - f * P * P') with ((100 * z - f * P) * P') by ring.
    rewrite Z.abs_mul, (Z.abs_eq P') by lia.
    apply Z.mul_le_mono_nonneg_r; lia. }
  assert (S4 : 2 * Z.abs (M' * P - f * P * P') <= P + 100 * P') by lia.
  assert (S5 : P + 100 * P' < P' * P) by nia.
  assert (S6 : 2 * Z.abs (f * P' - M') < P').
  { apply (Z.mul_lt_mono_pos_r P); [lia|].
    replace (2 * Z.abs (f * P' - M') * P) with (2 * Z.abs (M' * P - f * P * P')); [lia|].
    replace (M' * P - f * P * P') with (- ((f * P' - M') * P)) by ring.
    rewrite Z.abs_opp, Z.abs_mul, (Z.abs_eq P) by lia. ring. }
  destruct (Z.eqb_spec M' (2 ^ 53)) as [E53|N53].
  - unfold PyFloat.py_round.
    destruct (Z.leb_spec 0 (1 - K')); [lia|]. f_equal.
    replace (- (1 - K')) with (K' - 1) by lia. fold P''.
    rewrite round_div_nonneg by (try reflexivity; lia).
    apply rnd_half_even_near; [lia|].
    rewrite E53 in S6. change (2 ^ 53) with (2 * 2 ^ 52) in S6. lia.
  - unfold PyFloat.py_round.
    destruct (Z.leb_spec 0 (- K')); [lia|]. f_equal.
    rewrite Z.opp_involutive. fold P'.
    rewrite round_div_nonneg by lia.
    apply rnd_half_even_near; [lia|exact S6].
Qed.

(** What lines 309 to 311 compute from the float of [c / 100]. *)
Lemma amount_float_parts c :
  0 <= c < 10 ^ 15 ->
  let x := PyFloat.round_b64 false c 100 in
  PyFloat.to_int x = Ok (c / 100)
  /\ PyFloat.py_round
       (PyFloat.fmul (PyFloat.fsub x (PyFloat.of_int (c / 100))) (PyFloat.of_int 100))
     = Ok (c mod 100).
Proof.
  intros Hc x.
  destruct (Z.eq_dec c 0) as [->|Hc0].
  { split; vm_compute; reflexivity. }
  destruct (amount_float c ltac:(lia)) as (K & M & HK & HK' & EM & HM & Ex).
  unfold x. rewrite Ex. clear x Ex.
  destruct (amount_grid c K M ltac:(lia) ltac:(lia) EM) as [Hz Hf].
  pose proof (Z.mod_pos_bound c 100 ltac:(lia)) as Hfb.
  pose proof (Z.div_mod c 100 ltac:(lia)) as Ec.
  set (q := c / 100) in *. set (f := c mod 100) in *.
  set (z := M - q * 2 ^ K) in *.
  assert (Hq : 0 <= q < 2 ^ 44).
  { change (2 ^ 44) with 17592186044416. change (10 ^ 15) with 1000000000000000 in Hc.
    lia. }
  split.
  - apply (to_int_grid M K q z); lia.
  - destruct (fsub_rupees M K q z HK ltac:(lia) Hq ltac:(lia) Hz ltac:(lia))
      as (dm & de & -> & Hcase).
    rewrite of_int_100.
    destruct Hcase as [(Hz0 & -> & ->)|(Hdm & Hde & Edm)].
    + assert (HP : 512 <= 2 ^ K).
      { change 512 with (2 ^ 9). apply pow2_le. lia. }
      assert (f = 0) by nia. subst f.
      replace (c mod 100) with 0 by lia. vm_compute. reflexivity.
    + replace de with (- - de) by lia.
      apply (paise_round dm (- de) K z f); lia.
Qed.

(** *** [float(s)] on a text with two decimals *)

Lemma digit_part_digits acc cnt s rest :
  all_chars isdigit s = true ->
  (rest = EmptyString
   \/ exists c r, rest = String c r /\ isdigit c = false /\ Ascii.eqb c "_" = false) ->
  digit_part acc cnt (s +:+ rest)
  = (digits_value acc s, cnt + Z.of_nat (String.length s), rest).
Proof.
  intros Hs Hr. revert acc cnt Hs.
  induction s as [|c s IH]; intros acc cnt Hs.
  - rewrite app_empty_l. cbn [digits_value String.length].
    rewrite Z.add_0_r.
    destruct Hr as [->|(c & r & -> & Hc & Hu)]; [reflexivity|].
    cbn [digit_part]. now rewrite Hc, Hu.
  - cbn [all_chars] in Hs. apply andb_true_iff in Hs as [Hc Hs].
    rewrite app_cons. cbn [digit_part digits_value]. rewrite Hc, (IH _ _ Hs).
    do 2 f_equal. cbn [String.length]. lia.
Qed.

Lemma opt_digit_part_digits s rest :
  all_chars isdigit s = true -> s <> EmptyString ->
  (rest = EmptyString
   \/ exists c r, rest = String c r /\ isdigit c = false /\ Ascii.eqb c "_" = false) ->
  opt_digit_part (s +:+ rest)
  = (digits_value 0 s, Z.of_nat (String.length s), rest).
Proof.
  intros Hs Hne Hr. destruct s as [|c s]; [contradiction|].
  cbn [all_chars] in Hs. apply andb_true_iff in Hs as [Hc Hs].
  rewrite app_cons. unfold opt_digit_part. rewrite Hc.
  rewrite (digit_part_digits _ _ s rest Hs Hr).
  cbn [digits_value String.length]. change (10 * 0 + digit_value c) with (digit_value c).
  do 2 f_equal. lia.
Qed.

(** Two digits for the paise. *)
Lemma zfill_2_digits f :
  0 <= f < 100 ->
  all_chars isdigit (zfill 2 (pretty f)) = true
  /\ String.length (zfill 2 (pretty f)) = 2%nat
  /\ digits_value 0 (zfill 2 (pretty f)) = f.
Proof.
  intros Hf.
  assert (Hall : forallb (fun n : nat =>
                   let t := zfill 2 (pretty (Z.of_nat n)) in
                   all_chars isdigit t && (String.length t =? 2)%nat
                   && (digits_value 0 t =? Z.of_nat n))
                 (seq 0 100) = true) by (vm_compute; reflexivity).
  rewrite forallb_forall in Hall.
  specialize (Hall (Z.to_nat f)). rewrite Z2Nat.id in Hall by lia.
  specialize (Hall ltac:(apply in_seq; lia)). cbv zeta in Hall.
  apply andb_true_iff in Hall as [Hall H3]. apply andb_true_iff in Hall as [H1 H2].
  split; [exact H1|]. split; [now apply Nat.eqb_eq|now apply Z.eqb_eq].
Qed.

Lemma fmt_2f_nonneg c :
  0 <= c ->
  fmt_2f (mkDec c (-2)) = pretty (c / 100) +:+ "." +:+ zfill 2 (pretty (c mod 100)).
Proof.
  intros Hc. unfold fmt_2f, rescale. cbn [dexp coef].
  change (-2 <=? -2) with true. cbv iota. cbn [coef].
  change (10 ^ (-2 - -2)) with 1. rewrite Z.mul_1_r.
  destruct (Z.ltb_spec c 0); [lia|]. rewrite Z.abs_eq by lia.
  now rewrite app_empty_l.
Qed.

(** A text that starts with a digit is read without a sign and is not
    one of the special words. *)
Lemma float_of_str_unsigned c s :
  strip_chars isspace_c (String c s) = String c s -> isdigit c = true ->
  float_of_str (String c s)
  = let '(ip, ni, rest1) := opt_digit_part (String c s) in
    let '(fp, nf, rest2) :=
      match rest1 with
      | String "." r => opt_digit_part r
      | _ => (0, 0, rest1)
      end in
    if (ni =? 0) && (nf =? 0) then None
    else
      match exponent_part rest2 with
      | Some (ex, EmptyString) =>
          let mant := ip * 10 ^ nf + fp in
          let e10 := ex - nf in
          Some (if 0 <=? e10 then PyFloat.round_b64 false (mant * 10 ^ e10) 1
                else PyFloat.round_b64 false mant (10 ^ (- e10)))
      | _ => None
      end.
Proof.
  intros Hs Hc. unfold float_of_str. rewrite Hs.
  destruct c as [b0 b1 b2 b3 b4 b5 b6 b7].
  destruct b0, b1, b2, b3, b4, b5, b6, b7; try reflexivity; discriminate Hc.
Qed.

Lemma float_of_str_two_decimals c :
  0 <= c ->
  float_of_str (fmt_2f (mkDec c (-2))) = Some (PyFloat.round_b64 false c 100).
Proof.
  intros Hc. rewrite fmt_2f_nonneg by exact Hc.
  pose proof (Z.mod_pos_bound c 100 ltac:(lia)) as Hf.
  pose proof (Z.div_mod c 100 ltac:(lia)) as Ec.
  assert (Hq : 0 <= c / 100) by (apply Z.div_pos; lia).
  set (q := c / 100) in *. set (f := c mod 100) in *.
  destruct (pretty_Z_nonneg q Hq) as (A & V & N).
  destruct (zfill_2_digits f Hf) as (A2 & L2 & V2).
  set (t2 := zfill 2 (pretty f)) in *.
  assert (Hdot : exists c0 r, ("." +:+ t2 = String c0 r)
                              /\ isdigit c0 = false /\ Ascii.eqb c0 "_" = false).
  { exists "."%char, t2. repeat split. }
  assert (Hstrip : strip_chars isspace_c (pretty q +:+ "." +:+ t2)
                   = pretty q +:+ "." +:+ t2).
  { apply strip_chars_none. rewrite !all_chars_app. cbn [all_chars andb].
    change (negb (isspace_c ".")) with true. cbn [andb].
    rewrite (all_chars_impl _ _ _ isdigit_not_space_c A).
    now rewrite (all_chars_impl _ _ _ isdigit_not_space_c A2). }
  assert (E1 : opt_digit_part (pretty q +:+ "." +:+ t2)
               = (q, Z.of_nat (String.length (pretty q)), "." +:+ t2)).
  { rewrite (opt_digit_part_digits _ _ A N (or_intror Hdot)). now rewrite V. }
  assert (E2 : opt_digit_part t2 = (f, 2, EmptyString)).
  { rewrite <- (app_empty_r t2) at 1.
    rewrite (opt_digit_part_digits t2 EmptyString A2); [|now destruct t2|now left].
    now rewrite V2, L2. }
  destruct (pretty q) as [|c0 s0] eqn:Epq; [contradiction|].
  rewrite app_cons in Hstrip, E1 |- *.
  rewrite float_of_str_unsigned; [|exact Hstrip|].
  2:{ cbn [all_chars] in A. now apply andb_true_iff in A as [Hc0 _]. }
  rewrite E1. change ("." +:+ t2) with (String "." t2). cbv iota beta.
  rewrite E2. cbv iota beta. rewrite andb_false_r.
  change (exponent_part EmptyString) with (Some (0, EmptyString)). cbv iota beta zeta.
  change (0 - 2) with (-2). change (0 <=? -2) with false. cbv iota.
  change (10 ^ (- -2)) with 100. change (10 ^ 2) with 100.
  do 2 f_equal. lia.
Qed.

(** The amount of a report line (lines 306 to 315 of [voucher_range]).
    For a ledger row whose final amount is the two-decimal text of a
    non-negative amount of [c] paise, below ten to the thirteen rupees,
    the detour through [float] loses nothing: the text is the rupees
    [c / 100] in Indian grouping, followed by a point and the two digits
    of the paise [c mod 100] unless the paise are zero. *)
Theorem amount_text_two_decimals (r : row) (c : Z) :
  0 <= c < 10 ^ 15 ->
  get_or r "final_amount" "Amount" "0" = fmt_2f (mkDec c (-2)) ->
  amount_text r
  = Ok (if c mod 100 =? 0 then _format_indian_number (c / 100)
        else _format_indian_number (c / 100) +:+ "." +:+ zfill 2 (pretty (c mod 100))).
Proof.
  intros Hc Hr. unfold amount_text. rewrite Hr.
  rewrite (float_of_str_two_decimals c (proj1 Hc)).
  destruct (amount_float_parts c Hc) as [H1 H2].
  rewrite (bind_of_Ok _ _ _ H1). rewrite (bind_of_Ok _ _ _ H2).
  pose proof (Z.mod_pos_bound c 100 ltac:(lia)) as Hf.
  unfold fmt_02d. destruct (Z.ltb_spec (c mod 100) 0); [lia|reflexivity].
Qed.

Lemma amount_text_two_decimals_witness :
  let r := {[ "v_no" := "7"; "final_amount" := "1234567.50" ]}%string : row in
  amount_text r = Ok "12,34,567.50"%string.
Proof.
  intros r.
  assert (Hr : get_or r "final_amount" "Amount" "0" = fmt_2f (mkDec 123456750 (-2)))
    by (vm_compute; reflexivity).
  assert (Hc : 0 <= 123456750 < 10 ^ 15) by (vm_compute; split; [discriminate|reflexivity]).
  assert (Ht : (if 123456750 mod 100 =? 0 then _format_indian_number (123456750 / 100)
                else _format_indian_number (123456750 / 100) +:+ "."
                     +:+ zfill 2 (pretty (123456750 mod 100)))
               = "12,34,567.50"%string) by (vm_compute; reflexivity).
  rewrite <- Ht. exact (amount_text_two_decimals r 123456750 Hc Hr).
Defined.

(** ** The range report, end to end *)

Lemma amount_text_paise r c :
  0 <= c < 10 ^ 15 ->
  get_or r "final_amount" "Amount" "0" = fmt_2f (mkDec c (-2)) ->
  amount_text r = Ok (spec_amount_text c).
Proof.
  intros Hc Hr. unfold amount_text. rewrite Hr.
  rewrite (float_of_str_two_decimals c (proj1 Hc)).
  destruct (amount_float_parts c Hc) as [H1 H2].
  rewrite (bind_of_Ok _ _ _ H1). rewrite (bind_of_Ok _ _ _ H2).
  pose proof (Z.mod_pos_bound c 100 ltac:(lia)) as Hf.
  unfold fmt_02d, spec_amount_text.
  destruct (Z.ltb_spec (c mod 100) 0); [lia|reflexivity].
Qed.

Lemma build_entries_paise (l : list (Z * row)) (paise : row -> Z) :
  (forall v r, (v, r) ∈ l ->
     0 <= paise r < 10 ^ 15
     /\ get_or r "final_amount" "Amount" "0" = fmt_2f (mkDec (paise r) (-2))) ->
  build_entries l
  = Ok ((fun x => (strip (get_or (snd x) "client_name" "Name" EmptyString)
                   +:+ " (" +:+ str_of_int (fst x) +:+ ")",
                   spec_amount_text (paise (snd x)))) <$> l).
Proof.
  induction l as [|[v r] l IH]; intros H; [reflexivity|].
  cbn [build_entries]. destruct (H v r ltac:(left)) as [Hc Hr].
  rewrite (bind_of_Ok _ _ _ (amount_text_paise r _ Hc Hr)).
  rewrite (bind_of_Ok _ _ _ (IH (fun v' r' Hin => H v' r' ltac:(right; exact Hin)))).
  reflexivity.
Qed.

(** The range report of a ledger the program wrote.  When the two fields
    read as integers and every selected row carries the two-decimal text
    of a non-negative amount below ten to the thirteen rupees, the request
    answers with the table, and the ledger is deduplicated: one line for
    each selected row, in the order of the selection, with the stripped
    client name, the voucher id between brackets and the amount as the
    specification describes it (grouped rupees, then the paise on two
    digits unless they are zero). *)
Theorem voucher_range_table (sa sb : string) (a b : Z) (h : history)
    (paise : row -> Z) :
  int_of_str sa = Some a -> int_of_str sb = Some b ->
  let selected := select_vouchers a b (read_history_rows h) in
  selected <> [] ->
  (forall v r, (v, r) ∈ selected ->
     0 <= paise r < 10 ^ 15
     /\ get_or r "final_amount" "Amount" "0" = fmt_2f (mkDec (paise r) (-2))) ->
  voucher_range (Some sa) (Some sb) h
  = (fst (deduplicate_history h),
     mkResponse None
       (Some (join nl
                (render_lines
                   ((fun x => (strip (get_or (snd x) "client_name" "Name" EmptyString)
                               +:+ " (" +:+ str_of_int (fst x) +:+ ")",
                               spec_amount_text (paise (snd x)))) <$> selected))))).
Proof.
  intros Ha Hb selected Hne Hrows.
  rewrite (voucher_range_read sa sb a b h Ha Hb). fold selected.
  pose proof (build_entries_paise selected paise Hrows) as Hbe.
  destruct selected as [|x l]; [contradiction|]. now rewrite Hbe.
Qed.

Lemma voucher_range_table_witness :
  let h := mkHistory standard_header
             [ {[ "v_no" := "5"; "client_name" := "Asha"; "final_amount" := "1234567.50" ]};
               {[ "v_no" := "9"; "client_name" := "Chitra"; "final_amount" := "1234567.50" ]};
               {[ "v_no" := "3"; "client_name" := "Banu"; "final_amount" := "1234567.50" ]}
             ]%string in
  snd (voucher_range (Some "6"%string) (Some "2"%string) h)
  = mkResponse None
      (Some ("1. Banu (3)  =  12,34,567.50" +:+ nl +:+ "2. Asha (5)  =  12,34,567.50")%string).
Proof.
  intros h.
  assert (Ha : int_of_str "6" = Some 6) by (vm_compute; reflexivity).
  assert (Hb : int_of_str "2" = Some 2) by (vm_compute; reflexivity).
  assert (Hs : select_vouchers 6 2 (read_history_rows h)
               = [ (3, {[ "v_no" := "3"; "client_name" := "Banu";
                          "final_amount" := "1234567.50" ]}%string);
                   (5, {[ "v_no" := "5"; "client_name" := "Asha";
                          "final_amount" := "1234567.50" ]}%string) ])
    by (vm_compute; reflexivity).
  assert (Hne : select_vouchers 6 2 (read_history_rows h) <> []) by (now rewrite Hs).
  assert (Hc : 0 <= 123456750 < 10 ^ 15) by (vm_compute; split; [discriminate|reflexivity]).
  assert (Hrows : forall v r, (v, r) ∈ select_vouchers 6 2 (read_history_rows h) ->
            0 <= (fun _ : row => 123456750) r < 10 ^ 15
            /\ get_or r "final_amount" "Amount" "0"
               = fmt_2f (mkDec ((fun _ : row => 123456750) r) (-2))).
  { intros v r Hin. rewrite Hs in Hin. split; [exact Hc|].
    apply elem_of_cons in Hin as [[= -> ->]|Hin]; [vm_compute; reflexivity|].
    apply elem_of_cons in Hin as [[= -> ->]|Hin]; [vm_compute; reflexivity|].
    inversion Hin. }
  pose proof (voucher_range_table "6" "2" 6 2 h (fun _ => 123456750) Ha Hb Hne Hrows)
    as H.
  rewrite H, Hs. cbn [snd]. vm_compute. reflexivity.
Defined.
